(** * pymatgen-diffusion: [pymatgen_diffusion/neb/pathfinder.py]

    A shallow embedding of the IDPP solver ([IDPPSolver]), of migration paths
    ([MigrationPath]) and of the enumeration of distinct paths
    ([DistinctPathFinder]), with the properties stated about them.

    Conventions of the embedding.
    - numpy arrays of [float64] are nested lists over a carrier [F] with the
      operations of the class [Float64]; the code is written once over that
      class.  Two instances are given: [binary64], the machine numbers
      (executable), and [ideal], exact real arithmetic with one undefined
      value for the results that are not numbers (a division by zero, the
      root of a negative number): it has no rounding, no underflow and no
      overflow, and does not tell [nan] from the infinities.  Statements
      that only depend on the control and data flow are proved for every
      instance; a law of exact arithmetic is proved for [ideal] and is not
      claimed of the machine numbers; what is stated of [binary64] is
      proved from the specification of its operations or by evaluation.
    - [np.sum], [np.dot] and [np.linalg.norm] accumulate from left to right.
    - An elementwise operation of numpy is modelled for two arrays of the
      same shape, where it is the operation on the pairs of entries; the
      theorems about the solver are stated for chains whose configurations
      have the same number of sites, on which every such operation of the
      code has operands of the same shape.
    - Python exceptions are the [Raise] results of the monad [result];
      warnings are collected in a log.
    - Objects of pymatgen (lattices, sites, structures, space groups) are
      records that carry the methods this file calls. *)

From Stdlib Require Import Reals Lra ZArith PrimFloat.
From Stdlib Require Uint63 Floats.
From stdpp Require Import base list strings sorting.

(** ** The arithmetic of [float64] *)

Class Float64 (F : Type) := {
  f_of_Z : Z → F;            (* the float of a Python int *)
  f_1em8 : F;                (* the literal 1e-8 *)
  fadd : F → F → F;
  fsub : F → F → F;
  fmul : F → F → F;
  fdiv : F → F → F;
  fneg : F → F;
  fabs : F → F;              (* np.abs *)
  fsign : F → F;             (* np.sign *)
  fsqrt : F → F;
  fltb : F → F → bool;       (* < *)
  fmax : F → F → F           (* np.maximum: a nan operand gives nan *)
}.

(** The machine numbers. *)
Definition b64_of_Z (z : Z) : float :=
  match z with
  | Z0 => 0%float
  | Zpos _ => PrimFloat.of_uint63 (Uint63.of_Z z)
  | Zneg p => PrimFloat.opp (PrimFloat.of_uint63 (Uint63.of_Z (Zpos p)))
  end.

Definition b64_sign (x : float) : float :=
  if PrimFloat.ltb x 0 then (-1)%float
  else if PrimFloat.ltb 0 x then 1%float
  else if PrimFloat.eqb x 0 then 0%float else x.

Definition b64_max (x y : float) : float :=
  if PrimFloat.is_nan x then x
  else if PrimFloat.is_nan y then y
  else if PrimFloat.ltb x y then y else x.

#[export] Instance binary64 : Float64 float := {|
  f_of_Z := b64_of_Z;
  f_1em8 := 0x1.5798ee2308c3ap-27%float;
  fadd := PrimFloat.add;
  fsub := PrimFloat.sub;
  fmul := PrimFloat.mul;
  fdiv := PrimFloat.div;
  fneg := PrimFloat.opp;
  fabs := PrimFloat.abs;
  fsign := b64_sign;
  fsqrt := PrimFloat.sqrt;
  fltb := PrimFloat.ltb;
  fmax := b64_max
|}.

(** Exact arithmetic: a real number, or [None] for numpy's [nan].  Every
    operation is the one of the reals on numbers and gives [nan] as soon as
    an operand is [nan]; a comparison with [nan] is false. *)
Definition xreal : Type := option R.

Definition xlift2 (f : R → R → R) (a b : xreal) : xreal :=
  match a, b with
  | Some x, Some y => Some (f x y)
  | _, _ => None
  end.

Definition xdiv (a b : xreal) : xreal :=
  match a, b with
  | Some x, Some y => if Req_dec_T y 0 then None else Some (x / y)%R
  | _, _ => None
  end.

Definition xsign (a : xreal) : xreal :=
  match a with
  | Some x =>
      Some (if Rlt_dec x 0 then (-1)%R else if Rlt_dec 0 x then 1%R else 0%R)
  | None => None
  end.

Definition xsqrt (a : xreal) : xreal :=
  match a with
  | Some x => if Rlt_dec x 0 then None else Some (R_sqrt.sqrt x)
  | None => None
  end.

Definition xltb (a b : xreal) : bool :=
  match a, b with
  | Some x, Some y => if Rlt_dec x y then true else false
  | _, _ => false
  end.

#[export] Instance ideal : Float64 xreal := {|
  f_of_Z := λ z, Some (IZR z);
  f_1em8 := Some (/ 100000000)%R;
  fadd := xlift2 Rplus;
  fsub := xlift2 Rminus;
  fmul := xlift2 Rmult;
  fdiv := xdiv;
  fneg := option_map Ropp;
  fabs := option_map Rabs;
  fsign := xsign;
  fsqrt := xsqrt;
  fltb := xltb;
  fmax := xlift2 Rmax
|}.

#[export] Instance R_eq_dec : EqDecision R := Req_dec_T.

(** The real numbers behind the norm and the unit vector of a vector of
    numbers: the sum of the squares, and the vector divided by its Euclidean
    norm. *)
Definition sumsq (rs : list R) : R := foldl Rplus 0%R (zip_with Rmult rs rs).
Definition unit_R (rs : list R) : list R :=
  (λ r, r / R_sqrt.sqrt (sumsq rs))%R <$> rs.
(** A vector of numbers, and the vector of [n] times [nan]. *)
Definition numbers (rs : list R) : list xreal := Some <$> rs.
Definition nans (n : nat) : list xreal := replicate n None.

(** A key that is a number, and the order of two elements by their keys
    that [sorted] establishes: the second key is not less than the first. *)
Definition numeric {A : Type} (key : A → xreal) (x : A) : Prop :=
  is_Some (key x).
Definition key_le {F : Type} `{!Float64 F} {A : Type} (key : A → F)
    (x y : A) : Prop :=
  fltb (key y) (key x) = false.

(** ** Exceptions *)

Inductive exn := IndexError | ValueError | AttributeError.

Inductive result (A : Type) : Type :=
  | Ok (a : A)
  | Raise (e : exn).
Arguments Ok {A} a.
Arguments Raise {A} e.

#[export] Instance result_ret : MRet result := λ A, @Ok A.
#[export] Instance result_bind : MBind result := λ A B f m,
  match m with Ok a => f a | Raise e => Raise e end.
#[export] Instance result_fmap : FMap result := λ A B f m,
  match m with Ok a => Ok (f a) | Raise e => Raise e end.

(** [for x in l: s = f(s, x)], stopping at the first exception. *)
Fixpoint foldM {A S : Type} (f : S → A → result S) (s : S) (l : list A)
    : result S :=
  match l with
  | [] => Ok s
  | x :: l => s' ← f s x; foldM f s' l
  end.

(** [l[i]] for [0 <= i]; [l[-1]]. *)
Definition getitem {A : Type} (l : list A) (i : nat) : result A :=
  match l !! i with Some a => Ok a | None => Raise IndexError end.

Definition getitem_last {A : Type} (l : list A) : result A :=
  match last l with Some a => Ok a | None => Raise IndexError end.

(** The warnings a call emits, in order. *)
Inductive event :=
  | Iteration (n : nat)       (* the body of the minimization loop starts *)
  | UserWarning (msg : string).

Section Model.
Context {F : Type} `{!Float64 F}.
Context {Specie : Type} `{!EqDecision Specie} {Props : Type}.
(** [get_el_sp] of pymatgen parses what the caller gives for a species and
    raises [ValueError] when it cannot. *)
Context {SpLike : Type} (get_el_sp : SpLike → result Specie).

(** ** numpy *)

(** One-dimensional arrays are lists, matrices lists of rows; the last axis
    of the coordinate arrays has the fixed size 3 and is a triple. *)
Abbreviation vec := (list F).
Abbreviation mat := (list (list F)).
Abbreviation vec3 := (F * F * F)%type.
Abbreviation coords_t := (list (F * F * F)).          (* (natoms, 3) *)

Definition f0 : F := f_of_Z 0.
Definition f1 : F := f_of_Z 1.
Definition f2 : F := f_of_Z 2.
Definition fhalf : F := fdiv f1 f2.                   (* the literal 0.5 *)
Definition fgtb (a b : F) : bool := fltb b a.

Definition vadd : vec → vec → vec := zip_with fadd.
Definition vsub : vec → vec → vec := zip_with fsub.
Definition vscale (c : F) (v : vec) : vec := fmul c <$> v.
Definition madd : mat → mat → mat := zip_with vadd.
Definition msub : mat → mat → mat := zip_with vsub.
Definition mmul : mat → mat → mat := zip_with (zip_with fmul).
Definition mdiv : mat → mat → mat := zip_with (zip_with fdiv).
Definition mscale (c : F) (m : mat) : mat := vscale c <$> m.
Definition mmap (f : F → F) (m : mat) : mat := (λ row : vec, f <$> row) <$> m.
(** The elementwise average of two matrices. *)
Definition mavg : mat → mat → mat :=
  zip_with (zip_with (λ x y, fdiv (fadd x y) f2)).
(** The law that makes [x + 0.5 * (y - x)] the average [(x + y) / 2]: it
    holds in exact arithmetic and fails in [float64]. *)
Definition midpoint_law : Prop :=
  ∀ x y : F, fadd x (fmul fhalf (fsub y x)) = fdiv (fadd x y) f2.

Definition v3map (f : F → F) (v : vec3) : vec3 :=
  let '(x, y, z) := v in (f x, f y, f z).
Definition v3zip (f : F → F → F) (a b : vec3) : vec3 :=
  let '(x, y, z) := a in let '(x', y', z') := b in (f x x', f y y', f z z').
Definition v3list (v : vec3) : vec := let '(x, y, z) := v in [x; y; z].
Definition v3add : vec3 → vec3 → vec3 := v3zip fadd.
Definition v3sub : vec3 → vec3 → vec3 := v3zip fsub.
Definition v3neg : vec3 → vec3 := v3map fneg.
Definition zeros3 : vec3 := (f0, f0, f0).
Definition cadd : coords_t → coords_t → coords_t := zip_with v3add.
Definition csub : coords_t → coords_t → coords_t := zip_with v3sub.

Definition np_sum (v : vec) : F := foldl fadd f0 v.
Definition np_dot (a b : vec) : F := np_sum (zip_with fmul a b).
Definition norm (v : vec) : F := fsqrt (np_dot v v).   (* np.linalg.norm *)
Definition flatten (c : coords_t) : vec := c ≫= v3list.
Definition msum (m : mat) : F := np_sum (concat m).
Definition eye (n : nat) : mat :=
  (λ i, (λ j, if decide (i = j) then f1 else f0) <$> seq 0 n) <$> seq 0 n.
Definition fpow (x : F) (n : nat) : F := Nat.iter n (λ y, fmul y x) f1.

(** [v.reshape(natoms, 3)]. *)
Fixpoint reshape3 (v : vec) : coords_t :=
  match v with
  | x :: y :: z :: v => (x, y, z) :: reshape3 v
  | _ => []
  end.

(** [np.dot(a, m)] for [a] of shape (n,) and [m] of shape (n, 3). *)
Definition np_dot_rows (a : vec) (m : coords_t) : vec3 :=
  (np_dot a ((λ v, v.1.1) <$> m), np_dot a ((λ v, v.1.2) <$> m),
   np_dot a ((λ v, v.2) <$> m)).

(** [a.max()]: a zero-size array has no maximum. *)
Definition amax (v : vec) : result F :=
  match v with
  | [] => Raise ValueError
  | x :: v => Ok (foldl fmax x v)
  end.

(** [l[i] = a]. *)
Definition setitem {A : Type} (l : list A) (i : nat) (a : A)
    : result (list A) :=
  if decide (i < length l) then Ok (<[i := a]> l) else Raise IndexError.

(** ** Lattices, sites, structures *)

Record Lattice := {
  get_cartesian_coords : vec3 → vec3;
  get_fractional_coords : vec3 → vec3;
  get_distance_and_image : vec3 → vec3 → F * vec3
}.

Record PeriodicSite := {
  species_and_occu : Specie;
  frac_coords : vec3;
  coords : vec3;
  lattice : Lattice;
  properties : Props
}.

(** The site of an ordered structure holds one species. *)
Definition specie (s : PeriodicSite) : Specie := species_and_occu s.

(** [PeriodicSite(sp, coords, lattice, coords_are_cartesian, properties)]. *)
Definition mkPeriodicSite (sp : Specie) (c : vec3) (latt : Lattice)
    (coords_are_cartesian : bool) (props : Props) : PeriodicSite :=
  if coords_are_cartesian
  then {| species_and_occu := sp; frac_coords := get_fractional_coords latt c;
          coords := c; lattice := latt; properties := props |}
  else {| species_and_occu := sp; frac_coords := c;
          coords := get_cartesian_coords latt c; lattice := latt;
          properties := props |}.

Record Structure := {
  st_lattice : Lattice;
  sites : list PeriodicSite
}.

Definition num_sites (s : Structure) : nat := length (sites s).

(** [Structure.from_sites]: the lattice is the one of the sites. *)
Definition from_sites (l : list PeriodicSite) : result Structure :=
  match l with
  | [] => Raise ValueError
  | s :: _ => Ok {| st_lattice := lattice s; sites := l |}
  end.

(** Modelled from the spec: the property [distance_matrix] of a pymatgen
    structure, which is not code of this repository.  For a configuration
    with N sites it is the N×N matrix of the pairwise distances, each the
    distance the lattice gives for the two fractional positions. *)
Definition distance_matrix (s : Structure) : mat :=
  (λ a, (λ b, (get_distance_and_image (st_lattice s)
                 (frac_coords a) (frac_coords b)).1) <$> sites s) <$> sites s.

(** ** IDPPSolver *)

Record IDPPSolver := {
  init_coords : list coords_t;              (* (nimages + 2, natoms, 3) *)
  translations : list (list coords_t);      (* (nimages, natoms, natoms, 3) *)
  weights : list mat;                       (* (nimages, natoms, natoms) *)
  structures : list Structure;
  target_dists : list mat;                  (* (nimages, natoms, natoms) *)
  nimages : nat;
  natoms : nat                              (* np.shape(translations)[1] *)
}.

(** Line 57: the interpolated distance matrix of the interior position [i]. *)
Definition interpolated_dist (d0 dlast : mat) (nimages i : Z) : mat :=
  madd d0 (mscale (fdiv (f_of_Z i) (f_of_Z (nimages + 1))) (msub dlast d0)).

(** Lines 72-75. *)
Definition weight (natoms : nat) (target actual : mat) : mat :=
  let avg_dist := mmap (λ x, fdiv x f2) (madd target actual) in
  mmap (fdiv f1)
    (madd (mmap (λ x, fpow x 4) avg_dist)
          (mmap (λ x, fmul x f_1em8) (eye natoms))).

(** [t[ni, i, j] = v] on the array of shape (nimages, natoms, natoms, 3);
    the callers index inside these bounds. *)
Definition set_translation (ni i j : nat) (v : vec3)
    (t : list (list coords_t)) : list (list coords_t) :=
  alter (alter (<[j := v]>) i) ni t.

(** [t[ni, i, j]], when the indices are inside the array. *)
Definition translation_at (t : list (list coords_t)) (ni i j : nat)
    : option vec3 :=
  t !! ni ≫= λ m, m !! i ≫= λ row, row !! j.

(** Lines 82-86: the loop over [j] for the site [i] of the image [ni]. *)
Definition init_translations (s : Structure) (latt : Lattice)
    (natoms ni i : nat) (frac : vec3) (t : list (list coords_t))
    : result (list (list coords_t)) :=
  foldM (λ t j,
    site_j ← getitem (sites s) j;
    let img := (get_distance_and_image latt frac (frac_coords site_j)).2 in
    Ok (set_translation (ni - 1) j i (v3neg (get_cartesian_coords latt img))
          (set_translation (ni - 1) i j (get_cartesian_coords latt img) t)))
    t (seq (i + 1) (natoms - (i + 1))).

(** Lines 77-86: the body of the loop over [(ni, i)]. *)
Definition init_step (structures : list Structure) (latt : Lattice)
    (nimages natoms : nat) (st : coords_t * list (list coords_t))
    (nii : nat * nat) : result (coords_t * list (list coords_t)) :=
  let '(init_coords, translations) := st in
  let '(ni, i) := nii in
  s ← getitem structures ni;
  site_i ← getitem (sites s) i;
  let frac := frac_coords site_i in
  let init_coords := init_coords ++ [get_cartesian_coords latt frac] in
  if bool_decide (ni ∈ [0; nimages + 1]) then Ok (init_coords, translations)
  else
    translations ← init_translations s latt natoms ni i frac translations;
    Ok (init_coords, translations).

(** [IDPPSolver.__init__]. *)
Definition IDPPSolver_init (structures : list Structure) : result IDPPSolver :=
  s0 ← getitem structures 0;
  slast ← getitem_last structures;
  let latt := st_lattice s0 in
  let natoms := num_sites s0 in
  let nimagesZ := (Z.of_nat (length structures) - 2)%Z in
  let target_dists :=
    interpolated_dist (distance_matrix s0) (distance_matrix slast) nimagesZ
      <$> seqZ 1 nimagesZ in
  (* np.zeros refuses a negative dimension *)
  if bool_decide (nimagesZ < 0)%Z then Raise ValueError else
  let nimages := Z.to_nat nimagesZ in
  let translations :=
    replicate nimages (replicate natoms (replicate natoms zeros3)) in
  weights ← mapM (λ ni,
      td ← getitem target_dists ni;
      s ← getitem structures (ni + 1);
      Ok (weight natoms td (distance_matrix s))) (seq 0 nimages);
  '(init_coords, translations) ←
    foldM (init_step structures latt nimages natoms) ([], translations)
      (list_prod (seq 0 (nimages + 2)) (seq 0 natoms));
  Ok {| init_coords := reshape (replicate (nimages + 2) natoms) init_coords;
        translations := translations;
        weights := weights;
        structures := structures;
        target_dists := target_dists;
        nimages := nimages;
        natoms := natoms |}.

(** The chains the solver is made for: at least one interior image, and in
    every configuration the same number of sites, at least one. *)
Definition wf_chain (chain : list Structure) : Prop :=
  3 ≤ length chain ∧ ∃ n, 1 ≤ n ∧ Forall (λ s, num_sites s = n) chain.

(** The invariant of the array of translations, and its shape. *)
Definition antisymmetric (t : list (list coords_t)) : Prop :=
  ∀ ni i j v, translation_at t ni i j = Some v →
    translation_at t ni j i = Some (v3neg v) ∧ (i = j → v = zeros3).

Definition in_shape (n m : nat) (t : list (list coords_t)) : Prop :=
  ∀ ni i j, ni < n → i < m → j < m → is_Some (translation_at t ni i j).

(** The shapes of the arrays of a solver. *)
Record solver_wf (self : IDPPSolver) : Prop := {
  wf_nimages : 1 ≤ nimages self;
  wf_natoms : 1 ≤ natoms self;
  wf_structures : length (structures self) = nimages self + 2;
  wf_sites : Forall (λ s, num_sites s = natoms self) (structures self);
  wf_init_coords : length (init_coords self) = nimages self + 2;
  wf_init_rows : Forall (λ c, length c = natoms self) (init_coords self);
  wf_translations : in_shape (nimages self) (natoms self) (translations self);
  wf_target_dists : length (target_dists self) = nimages self;
  wf_target_rows : Forall (λ m, length m = natoms self) (target_dists self);
  wf_weights : length (weights self) = nimages self;
  wf_weight_rows : Forall (λ m, length m = natoms self) (weights self)
}.

(** The shape (nimages + 2, natoms, 3) of the coordinates in [run]. *)
Definition coords_wf (self : IDPPSolver) (x : list coords_t) : Prop :=
  length x = nimages self + 2 ∧ Forall (λ c, length c = natoms self) x.

(** [x[ni, k]], and the relation between the coordinates before and after
    an update that only moves the sites [indices] of the interior images. *)
Definition coord_at (x : list coords_t) (ni k : nat) : option vec3 :=
  x !! ni ≫= λ c, c !! k.

Definition same_outside (indices : list nat) (x x' : list coords_t) : Prop :=
  x' !! 0 = x !! 0 ∧ last x' = last x ∧
  ∀ ni k, k ∉ indices → coord_at x' ni k = coord_at x ni k.

(** Lines 225-242: the objective and the true force of the image [ni]. *)
Definition image_func_and_force (self : IDPPSolver) (x : list coords_t)
    (ni : nat) : result (F * coords_t) :=
  vec ← mapM (λ i,
      xi ← getitem x (ni + 1);
      xii ← getitem xi i;
      tr ← getitem (translations self) ni;
      tri ← getitem tr i;
      Ok (csub ((λ xj, v3sub xii xj) <$> xi) tri)) (seq 0 (natoms self));
  let trial_dist : mat := (λ row : coords_t, (λ v, norm (v3list v)) <$> row) <$> vec in
  target ← getitem (target_dists self) ni;
  w ← getitem (weights self) ni;
  let aux :=
    mdiv (mmul (mscale (f_of_Z (-2)) (msub trial_dist target)) w)
         (madd trial_dist (eye (natoms self))) in
  let func :=
    fmul fhalf (msum (mmul (mmap (λ d, fpow d 2) (msub trial_dist target)) w)) in
  x0 ← getitem x 0;
  grad ← foldM (λ grad i,
      a ← getitem aux i;
      v ← getitem vec i;
      setitem grad i (np_dot_rows a v))
    ((λ _, zeros3) <$> x0) (seq 0 (natoms self));
  Ok (func, grad).

(** [IDPPSolver._get_funcs_and_forces]. *)
Definition _get_funcs_and_forces (self : IDPPSolver) (x : list coords_t)
    : result (vec * list coords_t) :=
  r ← mapM (image_func_and_force self x) (seq 0 (length x - 2));
  Ok (fst <$> r, snd <$> r).

(** [IDPPSolver.get_unit_vector]. *)
Definition get_unit_vector (v : vec) : vec := (λ c, fdiv c (norm v)) <$> v.

(** Lines 266-267: the local tangent. *)
Definition local_tangent (vec1 vec2 : vec) : vec :=
  get_unit_vector (vadd (get_unit_vector vec1) (get_unit_vector vec2)).

(** Lines 262-278: the total force on the image [ni]. *)
Definition image_total_force (x true_forces : list coords_t)
    (spring_const : F) (ni : nat) : result coords_t :=
  x_next ← getitem x (ni + 1);
  x_cur ← getitem x ni;
  x_prev ← getitem x (ni - 1);
  let vec1 := flatten (csub x_next x_cur) in
  let vec2 := flatten (csub x_cur x_prev) in
  let tangent := local_tangent vec1 vec2 in
  let spring_force :=
    vscale (fmul spring_const (fsub (norm vec1) (norm vec2))) tangent in
  tf ← getitem true_forces (ni - 1);
  let flat_ft := flatten tf in
  Ok (cadd tf (reshape3
        (vsub spring_force (vscale (np_dot flat_ft tangent) tangent)))).

(** [IDPPSolver._get_total_forces]. *)
Definition _get_total_forces (self : IDPPSolver) (x true_forces : list coords_t)
    (spring_const : F) : result (list coords_t) :=
  (* natoms = np.shape(true_forces)[1] *)
  _ ← match true_forces with [] => Raise IndexError | g :: _ => Ok (length g) end;
  mapM (image_total_force x true_forces spring_const) (seq 1 (length x - 2)).

Record run_args := {
  maxiter : nat;
  tol : F;
  gtol : F;
  step_size : F;
  max_disp : F;
  spring_const : F;
  species : option (list SpLike)
}.

(** Lines 129-137: the sites that are allowed to move. *)
Definition species_indices (self : IDPPSolver) (species : option (list SpLike))
    : result (list nat) :=
  match species with
  | None => s0 ← getitem (structures self) 0; Ok (seq 0 (num_sites s0))
  | Some sps =>
      sps ← mapM get_el_sp sps;
      s0 ← getitem (structures self) 0;
      let indices :=
        (λ p, p.1) <$> filter (λ p, specie p.2 ∈ sps)
                         (zip (seq 0 (num_sites s0)) (sites s0)) in
      if decide (length indices = 0) then Raise ValueError else Ok indices
  end.

(** Lines 148-151: one component of the displacement. *)
Definition clip_disp (step_size max_disp force : F) : F :=
  let d := fmul step_size force in
  if fgtb (fabs d) max_disp then fmul (fsign d) max_disp else d.

(** [img[indices] += d] on one image: numpy reads [img[indices]], adds and
    writes the sums back. *)
Definition iadd_rows (indices : list nat) (img d : coords_t) : result coords_t :=
  sel ← mapM (getitem img) indices;
  Ok (foldl (λ acc p, <[p.1 := p.2]> acc) img (zip indices (cadd sel d))).

(** Line 152: [coords[1:(nimages + 1), indices] += disp_mat]. *)
Definition iadd_disp (nimages : nat) (indices : list nat)
    (disp_mat coords : list coords_t) : result (list coords_t) :=
  let interior := take nimages (drop 1 coords) in
  if decide (length disp_mat = length interior) then
    new ← mapM (λ p, iadd_rows indices p.1 p.2) (zip interior disp_mat);
    Ok (take 1 coords ++ new ++ drop (nimages + 1) coords)
  else Raise ValueError.

(** Lines 143-145: the total forces at the coordinates [coords]. *)
Definition total_forces (self : IDPPSolver) (a : run_args)
    (coords : list coords_t) : result (list coords_t) :=
  r ← _get_funcs_and_forces self coords;
  _get_total_forces self coords r.2 (spring_const a).

(** Lines 143-157: the body of the minimization loop; the boolean tells
    whether the convergence test holds. *)
Definition run_step (self : IDPPSolver) (a : run_args) (indices : list nat)
    (coords : list coords_t) (old_funcs : vec)
    : result (list coords_t * vec * bool) :=
  '(funcs, true_forces) ← _get_funcs_and_forces self coords;
  tot_forces ← _get_total_forces self coords true_forces (spring_const a);
  sel ← mapM (λ img, mapM (getitem img) indices) tot_forces;
  let disp_mat :=
    (λ img : coords_t,
       v3map (clip_disp (step_size a) (max_disp a)) <$> img) <$> sel in
  coords ← iadd_disp (nimages self) indices disp_mat coords;
  max_force ← amax (fabs <$> (sel ≫= flatten));
  let tot_res := np_sum (fabs <$> vsub old_funcs funcs) in
  Ok (coords, funcs, fltb tot_res (tol a) && fltb max_force (gtol a)).

Definition convergence_warning : string :=
  "Maximum iteration number is reached without convergence!".

(** Lines 140-165: [for n in range(maxiter): ... else: warnings.warn(...)]. *)
Fixpoint run_loop (self : IDPPSolver) (a : run_args) (indices : list nat)
    (ns : list nat) (coords : list coords_t) (old_funcs : vec)
    : result (list coords_t) * list event :=
  match ns with
  | [] => (Ok coords, [UserWarning convergence_warning])
  | n :: ns =>
      match run_step self a indices coords old_funcs with
      | Raise e => (Raise e, [Iteration n])
      | Ok (coords, funcs, converged) =>
          if converged then (Ok coords, [Iteration n])
          else
            let '(r, log) := run_loop self a indices ns coords funcs in
            (r, Iteration n :: log)
      end
  end.

(** The coordinates and the objective values after [k] iterations from
    [coords] and [old_funcs], whatever the convergence test said. *)
Fixpoint loop_state (self : IDPPSolver) (a : run_args) (indices : list nat)
    (k : nat) (coords : list coords_t) (old_funcs : vec)
    : result (list coords_t * vec) :=
  match k with
  | 0 => Ok (coords, old_funcs)
  | S k =>
      r ← run_step self a indices coords old_funcs;
      loop_state self a indices k r.1.1 r.1.2
  end.

(** The convergence test holds at the end of the iteration [k] of a loop
    that starts from [coords] and [old_funcs]. *)
Definition converges_at (self : IDPPSolver) (a : run_args)
    (indices : list nat) (coords : list coords_t) (old_funcs : vec)
    (k : nat) : Prop :=
  ∃ c f c' f',
    loop_state self a indices k coords old_funcs = Ok (c, f) ∧
    run_step self a indices c f = Ok (c', f', true).

(** Lines 171-178: the improved image. *)
Definition improved_sites (s : Structure) (c : coords_t) : list PeriodicSite :=
  zip_with (λ site cart_coords,
    mkPeriodicSite (species_and_occu site) cart_coords (lattice site) true
      (properties site)) (sites s) c.

Definition new_structure (s : Structure) (c : coords_t) : result Structure :=
  from_sites (improved_sites s c).

(** Lines 167-183. *)
Definition idpp_structures (self : IDPPSolver) (s0 : Structure)
    (coords : list coords_t) : result (list Structure) :=
  new ← mapM (λ ni,
      s ← getitem (structures self) (ni + 1);
      c ← getitem coords (ni + 1);
      new_structure s c) (seq 0 (nimages self));
  slast ← getitem_last (structures self);
  Ok ([s0] ++ new ++ [slast]).

(** [IDPPSolver.run]: the value returned or the exception raised, and the
    events of the call. *)
Definition run (self : IDPPSolver) (a : run_args)
    : result (list Structure) * list event :=
  let coords := init_coords self in
  let old_funcs := replicate (nimages self) f0 in
  match getitem (structures self) 0 with
  | Raise e => (Raise e, [])
  | Ok s0 =>
      match species_indices self (species a) with
      | Raise e => (Raise e, [])
      | Ok indices =>
          match run_loop self a indices (seq 0 (maxiter a)) coords old_funcs with
          | (Raise e, log) => (Raise e, log)
          | (Ok coords, log) => (idpp_structures self s0 coords, log)
          end
      end
  end.

(** ** MigrationPath *)

Record SpaceGroup := {
  are_symmetrically_equivalent : list PeriodicSite → list PeriodicSite → bool
}.

Record SymmetrizedStructure := {
  symm_sites : list PeriodicSite;
  equivalent_sites : list (list PeriodicSite);
  spacegroup : SpaceGroup;
  get_neighbors : PeriodicSite → F → list (PeriodicSite * F)
}.

(** What the space group's test is taken to decide: on single sites an
    equivalence relation (the orbits), and two triples are equivalent only
    if their first sites are and their last sites are (the triples are
    compared in order). *)
Record symmetry_equivalence (sg : SpaceGroup) : Prop := {
  equiv_sym : ∀ a b,
    are_symmetrically_equivalent sg [a] [b] = true →
    are_symmetrically_equivalent sg [b] [a] = true;
  equiv_trans : ∀ a b c,
    are_symmetrically_equivalent sg [a] [b] = true →
    are_symmetrically_equivalent sg [b] [c] = true →
    are_symmetrically_equivalent sg [a] [c] = true;
  equiv_triple : ∀ a1 b1 c1 a2 b2 c2,
    are_symmetrically_equivalent sg [a1; b1; c1] [a2; b2; c2] = true →
    are_symmetrically_equivalent sg [a1] [a2] = true ∧
    are_symmetrically_equivalent sg [c1] [c2] = true
}.

(** The comparison [!=] of two structures, and the properties of a site
    that is built without any. *)
Context (structure_ne : SymmetrizedStructure → SymmetrizedStructure → bool).
Context (no_properties : Props).

Record MigrationPath := {
  isite : PeriodicSite;
  esite : PeriodicSite;
  symm_structure : SymmetrizedStructure;
  msite : PeriodicSite;
  iindex : option nat;               (* None: the attribute is not set *)
  eindex : option nat
}.

(** [MigrationPath.__init__]. *)
Definition MigrationPath_init (isite esite : PeriodicSite)
    (symm_structure : SymmetrizedStructure) : result MigrationPath :=
  let msite :=
    mkPeriodicSite (specie esite)
      (v3map (λ c, fdiv c f2) (v3add (frac_coords isite) (frac_coords esite)))
      (lattice esite) false no_properties in
  let sg := spacegroup symm_structure in
  '(ii, ei) ← foldM (λ (st : option nat * option nat) (p : nat * list PeriodicSite),
      s0 ← getitem p.2 0;
      let ii := if are_symmetrically_equivalent sg [isite] [s0]
                then Some p.1 else st.1 in
      let ei := if are_symmetrically_equivalent sg [esite] [s0]
                then Some p.1 else st.2 in
      Ok (ii, ei))
    (None, None)
    (zip (seq 0 (length (equivalent_sites symm_structure)))
         (equivalent_sites symm_structure));
  Ok {| isite := isite; esite := esite; symm_structure := symm_structure;
        msite := msite; iindex := ii; eindex := ei |}.

(** [MigrationPath.length]. *)
Definition MigrationPath_length (p : MigrationPath) : F :=
  norm (v3list (v3sub (coords (isite p)) (coords (esite p)))).

(** [MigrationPath.__hash__]. *)
Definition MigrationPath_hash (p : MigrationPath) : result nat :=
  match iindex p, eindex p with
  | Some i, Some e => Ok (i + e)
  | _, _ => Raise AttributeError
  end.

(** [MigrationPath.__eq__]. *)
Definition MigrationPath_eq (p other : MigrationPath) : bool :=
  if structure_ne (symm_structure p) (symm_structure other) then false
  else are_symmetrically_equivalent (spacegroup (symm_structure p))
         [isite p; msite p; esite p] [isite other; msite other; esite other].

(** ** DistinctPathFinder *)

Record DistinctPathFinder := {
  structure : Structure;
  migrating_specie : Specie;
  max_path_length : F;
  symprec : F;
  finder_symm_structure : SymmetrizedStructure
}.

(** A Python [set] of paths: the entries with their hashes, in the order of
    insertion.  [paths.add(p)] hashes [p] and keeps the set as it is when an
    entry with the same hash compares equal to [p]. *)
Definition set_add (p : MigrationPath) (paths : list (nat * MigrationPath))
    : result (list (nat * MigrationPath)) :=
  h ← MigrationPath_hash p;
  if existsb (λ e, Nat.eqb e.1 h && MigrationPath_eq e.2 p) paths
  then Ok paths else Ok (paths ++ [(h, p)]).

(** [sorted(l, key=key)]: a stable sort that compares keys with [<]. *)
Fixpoint insort {A : Type} (key : A → F) (x : A) (l : list A) : list A :=
  match l with
  | [] => [x]
  | y :: l' => if fltb (key x) (key y) then x :: l else y :: insort key x l'
  end.

Definition sorted {A : Type} (key : A → F) (l : list A) : list A :=
  foldl (λ acc x, insort key x acc) [] l.

(** Every entry of the set is kept with its hash, and no entry compares
    equal to a later entry of the same hash. *)
Definition no_duplicates (paths : list (nat * MigrationPath)) : Prop :=
  Forall (λ e, MigrationPath_hash e.2 = Ok e.1) paths ∧
  ∀ i j e1 e2, i < j → paths !! i = Some e1 → paths !! j = Some e2 →
    ¬ (e1.1 = e2.1 ∧ MigrationPath_eq e1.2 e2.2 = true).

(** Lines 442-450: the paths found, as the set holds them. *)
Definition discovered_paths (self : DistinctPathFinder)
    : result (list (nat * MigrationPath)) :=
  let symm := finder_symm_structure self in
  foldM (λ paths sites,
      s0 ← getitem sites 0;
      if decide (specie s0 = migrating_specie self) then
        foldM (λ paths (nd : PeriodicSite * F),
            if decide (specie nd.1 = migrating_specie self) then
              path ← MigrationPath_init s0 nd.1 symm;
              set_add path paths
            else Ok paths)
          paths (get_neighbors symm s0 (max_path_length self))
      else Ok paths)
    [] (equivalent_sites symm).

(** [DistinctPathFinder.get_paths].  The order in which Python iterates over
    a set is the one of its hash table; [iter_order] gives it for the
    entries in their order of insertion. *)
Definition get_paths
    (iter_order : list (nat * MigrationPath) → list (nat * MigrationPath))
    (self : DistinctPathFinder) : result (list MigrationPath) :=
  paths ← discovered_paths self;
  Ok (sorted MigrationPath_length ((λ e, e.2) <$> iter_order paths)).

(** What the specification says of [get_paths]: the paths in ascending
    length, those of equal length in the order of their discovery. *)
Definition get_paths_discovery_order (self : DistinctPathFinder)
    : result (list MigrationPath) :=
  get_paths (λ paths, paths) self.

End Model.

Arguments Lattice : clear implicits.
Arguments PeriodicSite : clear implicits.
Arguments Structure : clear implicits.
Arguments IDPPSolver : clear implicits.
Arguments run_args : clear implicits.
Arguments SpaceGroup : clear implicits.
Arguments SymmetrizedStructure : clear implicits.
Arguments MigrationPath : clear implicits.
Arguments DistinctPathFinder : clear implicits.

(** CPython keeps a set of at most four entries in a table of eight slots:
    an entry of hash [h] goes to the slot [h mod 8] when that slot is free,
    and the iteration visits the slots in ascending order.  This is the
    order of iteration for entries whose hashes differ modulo 8. *)
Definition small_set_order {A : Type} (l : list (nat * A)) : list (nat * A) :=
  concat ((λ slot, filter (λ e, e.1 mod 8 = slot) l) <$> seq 0 8).

(** ** Structures along a path *)

(** [sub in s] on Python strings. *)
Fixpoint contains (sub s : string) : bool :=
  String.prefix sub s ||
  match s with
  | EmptyString => false
  | String _ s' => contains sub s'
  end.

(** What [Structure.interpolate] of pymatgen gives: the images, or an
    exception with its text. *)
Inductive interpolation {F Specie Props : Type} :=
  | Images (images : list (Structure F Specie Props))
  | Fails (e : exn) (msg : string).
Arguments interpolation : clear implicits.

(** What [write_all_paths] does: it writes a structure to a file, or raises
    an exception; [UnboundLocalError] names the local variable that is read
    before any assignment. *)
Inductive write_outcome {F Specie Props : Type} :=
  | Written (fname : string) (st : Structure F Specie Props)
  | WriteRaises (e : exn)
  | UnboundLocalError (name : string).
Arguments write_outcome : clear implicits.

Section PathStructures.
Context {F : Type} `{!Float64 F}.
Context {Specie : Type} `{!EqDecision Specie} {Props : Type}.
Context {SpLike : Type} (get_el_sp : SpLike → result Specie).
(** [start.interpolate(end, nimages=n, pbc=b, autosort_tol=t)]. *)
Context (interpolate : Structure F Specie Props → Structure F Specie Props →
                       nat → bool → F → interpolation F Specie Props).
Context (structure_ne : SymmetrizedStructure F Specie Props →
                        SymmetrizedStructure F Specie Props → bool).
Context (no_properties : Props).
(** The species of the string ["H"], and a species as an argument of
    [get_el_sp]. *)
Context (hydrogen : Specie) (of_specie : Specie → SpLike).

(** [site] is equivalent to the representative of an orbit. *)
Definition has_orbit (symm : SymmetrizedStructure F Specie Props)
    (site : PeriodicSite F Specie Props) : Prop :=
  ∃ orbit s0, orbit ∈ equivalent_sites symm ∧ orbit !! 0 = Some s0 ∧
    are_symmetrically_equivalent (spacegroup symm) [site] [s0] = true.

(** [r] is the index of the last orbit whose representative is equivalent
    to [site]; it is [None] when there is no such orbit. *)
Definition last_orbit (symm : SymmetrizedStructure F Specie Props)
    (site : PeriodicSite F Specie Props) (r : option nat) : Prop :=
  match r with
  | None => ¬ has_orbit symm site
  | Some i =>
      ∃ orbit s0, equivalent_sites symm !! i = Some orbit ∧
        orbit !! 0 = Some s0 ∧
        are_symmetrically_equivalent (spacegroup symm) [site] [s0] = true ∧
        ∀ j orbit' s', i < j → equivalent_sites symm !! j = Some orbit' →
          orbit' !! 0 = Some s' →
          are_symmetrically_equivalent (spacegroup symm) [site] [s'] = false
  end.

(** [a.distance(b)] of pymatgen: the distance the lattice of [a] gives for
    the two fractional positions. *)
Definition distance (a b : PeriodicSite F Specie Props) : F :=
  (get_distance_and_image (lattice a) (frac_coords a) (frac_coords b)).1.

(** Lines 366-377 of [MigrationPath.get_structures]: the loop that sorts the
    sites into [migrating_specie_sites] and [other_sites]. *)
Definition sort_sites (p : MigrationPath F Specie Props) (vac_mode : bool)
    : list (PeriodicSite F Specie Props) * list (PeriodicSite F Specie Props) :=
  foldl (λ acc site,
      if decide (specie site ≠ specie (isite p)) then (acc.1, acc.2 ++ [site])
      else if vac_mode && (fgtb (distance (isite p) site) f_1em8 &&
                           fgtb (distance (esite p) site) f_1em8)
           then (acc.1 ++ [site], acc.2)
           else acc)
    ([], []) (symm_sites (symm_structure p)).

(** [MigrationPath.get_structures]; [idpp_kwargs] are the arguments of
    [IDPPSolver.run]. *)
Definition get_structures (p : MigrationPath F Specie Props) (nimages : nat)
    (vac_mode idpp : bool) (idpp_kwargs : run_args F SpLike)
    : result (list (Structure F Specie Props)) * list event :=
  let '(migrating_specie_sites, other_sites) := sort_sites p vac_mode in
  match from_sites ([isite p] ++ migrating_specie_sites ++ other_sites),
        from_sites ([esite p] ++ migrating_specie_sites ++ other_sites) with
  | Ok start_structure, Ok end_structure =>
      match interpolate start_structure end_structure (nimages + 1) false f0 with
      | Fails e _ => (Raise e, [])
      | Images structures =>
          if idpp then
            match IDPPSolver_init structures with
            | Ok solver => run get_el_sp solver idpp_kwargs
            | Raise e => (Raise e, [])
            end
          else (Ok structures, [])
      end
  | Raise e, _ | _, Raise e => (Raise e, [])
  end.

Definition autosort_warning : string :=
  "Auto sorting is turned off because it is unable to match the end-point structures!".

(** [IDPPSolver.from_endpoints]. *)
Definition from_endpoints (endpoints : list (Structure F Specie Props))
    (nimages : nat) (sort_tol : F)
    : result (IDPPSolver F Specie Props) * list event :=
  match getitem endpoints 0, getitem endpoints 1 with
  | Ok e0, Ok e1 =>
      match interpolate e0 e1 (nimages + 1) true sort_tol with
      | Images images => (IDPPSolver_init images, [])
      | Fails e msg =>
          if contains "Unable to reliably match structures " msg then
            match interpolate e0 e1 (nimages + 1) true f0 with
            | Images images =>
                (IDPPSolver_init images, [UserWarning autosort_warning])
            | Fails e' _ => (Raise e', [UserWarning autosort_warning])
            end
          else (Raise e, [])
      end
  | Raise e, _ | _, Raise e => (Raise e, [])
  end.

(** [l[1:-1]]. *)
Definition interior {A : Type} (l : list A) : list A :=
  take (length l - 2) (drop 1 l).

(** Lines 469-472 of [DistinctPathFinder.write_all_paths]: the sites one
    path contributes. *)
Definition path_placeholders (structures : list (Structure F Specie Props))
    : result (list (PeriodicSite F Specie Props)) :=
  s_first ← getitem structures 0;
  site_first ← getitem (sites s_first) 0;
  s_last ← getitem_last structures;
  site_last ← getitem (sites s_last) 0;
  images ← mapM (λ s : Structure F Specie Props,
      s0 ← getitem (sites s) 0;
      Ok (mkPeriodicSite hydrogen (frac_coords s0) (st_lattice s) false
            no_properties)) (interior structures);
  Ok ([site_first; site_last] ++ images).

(** Lines 466-472: the loop over the paths; [structures] is bound once an
    iteration has run. *)
Fixpoint write_loop (nimages : nat) (vac_mode idpp : bool)
    (kw : run_args F SpLike) (paths : list (MigrationPath F Specie Props))
    (sites : list (PeriodicSite F Specie Props))
    (structures : option (list (Structure F Specie Props))) (log : list event)
    : result (list (PeriodicSite F Specie Props) *
              option (list (Structure F Specie Props))) * list event :=
  match paths with
  | [] => (Ok (sites, structures), log)
  | p :: paths =>
      match get_structures p nimages vac_mode idpp kw with
      | (Raise e, log') => (Raise e, log ++ log')
      | (Ok sts, log') =>
          match path_placeholders sts with
          | Raise e => (Raise e, log ++ log')
          | Ok new =>
              write_loop nimages vac_mode idpp kw paths (sites ++ new)
                (Some sts) (log ++ log')
          end
      end
  end.

(** The arguments [write_all_paths] passes to [get_structures]:
    [species=[self.migrating_specie]] and the caller's other arguments. *)
Definition with_migrating_specie (self : DistinctPathFinder F Specie Props)
    (kwargs : run_args F SpLike) : run_args F SpLike :=
  {| maxiter := maxiter kwargs; tol := tol kwargs; gtol := gtol kwargs;
     step_size := step_size kwargs; max_disp := max_disp kwargs;
     spring_const := spring_const kwargs;
     species := Some [of_specie (migrating_specie self)] |}.

(** [DistinctPathFinder.write_all_paths]; [kwargs] holds the arguments of
    [IDPPSolver.run] other than [species]. *)
Definition write_all_paths
    (iter_order : list (nat * MigrationPath F Specie Props) →
                  list (nat * MigrationPath F Specie Props))
    (self : DistinctPathFinder F Specie Props) (fname : string)
    (nimages : nat) (vac_mode idpp : bool) (kwargs : run_args F SpLike)
    : write_outcome F Specie Props * list event :=
  match get_paths structure_ne no_properties iter_order self with
  | Raise e => (WriteRaises e, [])
  | Ok paths =>
      match write_loop nimages vac_mode idpp
              (with_migrating_specie self kwargs) paths [] None [] with
      | (Raise e, log) => (WriteRaises e, log)
      | (Ok (_, None), log) => (UnboundLocalError "structures", log)
      | (Ok (sites_, Some structures), log) =>
          match s0 ← getitem structures 0;
                from_sites (sites_ ++ drop 1 (sites s0)) with
          | Raise e => (WriteRaises e, log)
          | Ok st => (Written fname st, log)
          end
      end
  end.

End PathStructures.

(** ** Example inputs *)

Module Examples.

(** A cubic lattice of parameter 1 without periodic images: Cartesian and
    fractional coordinates coincide. *)
Definition cubic {F : Type} `{!Float64 F} : Lattice F := {|
  get_cartesian_coords := λ v, v;
  get_fractional_coords := λ v, v;
  get_distance_and_image := λ a b, (norm (v3list (v3sub b a)), zeros3)
|}.

Definition site {F : Type} `{!Float64 F} (sp : string) (x y z : F)
    : PeriodicSite F string unit :=
  mkPeriodicSite sp (x, y, z) cubic false tt.

Definition mkstructure {F : Type} `{!Float64 F}
    (l : list (PeriodicSite F string unit)) : Structure F string unit :=
  {| st_lattice := cubic; sites := l |}.

(** Two sites; the first moves from (0, 0, 0) to (0.5, 0, 0) along a bent
    initial guess, three interior images. *)
Definition chain5 : list (Structure float string unit) :=
  (λ p : float * float,
     mkstructure [site "Li" p.1 p.2 0%float; site "O" 0.5%float 0.5%float 0.5%float])
  <$> [(0, 0); (0.125, 0.0625); (0.25, 0.125); (0.375, 0.0625); (0.5, 0)]%float.

Definition default_args (maxiter : nat) (species : option (list string))
    : run_args float string :=
  {| maxiter := maxiter; tol := 0x1.4f8b588e368f1p-17%float;
     gtol := 0x1.0624dd2f1a9fcp-10%float;
     step_size := 0x1.999999999999ap-5%float;
     max_disp := 0x1.999999999999ap-5%float;
     spring_const := 5%float; species := species |}.

(** The same chain without its interior images. *)
Definition chain2 : list (Structure float string unit) :=
  (λ p : float * float,
     mkstructure [site "Li" p.1 p.2 0%float; site "O" 0.5%float 0.5%float 0.5%float])
  <$> [(0, 0); (0.5, 0)]%float.

Definition from_Ok {A : Type} (d : A) (r : result A) : A :=
  match r with Ok a => a | Raise _ => d end.

Definition no_solver {F : Type} : IDPPSolver F string unit :=
  {| init_coords := []; translations := []; weights := []; structures := [];
     target_dists := []; nimages := 0; natoms := 0 |}.

Definition solver5 : IDPPSolver float string unit :=
  Eval vm_compute in from_Ok no_solver (IDPPSolver_init chain5).

Definition solver2 : IDPPSolver float string unit :=
  Eval vm_compute in from_Ok no_solver (IDPPSolver_init chain2).

(** Three configurations of two sites in exact arithmetic: the first site
    moves from (0, 0, 0) to (2, 0, 0) through (1, 1, 0). *)
Definition chain3 : list (Structure xreal string unit) :=
  (λ p : R * R,
     mkstructure [site "Li" (Some p.1) (Some p.2) (Some 0%R);
                  site "O" (Some 3%R) (Some 4%R) (Some 0%R)])
  <$> [(0, 0); (1, 1); (2, 0)]%R.

Definition solver3 : IDPPSolver xreal string unit :=
  from_Ok no_solver (IDPPSolver_init chain3).

(** Sites that carry the number of their orbit, and the space group whose
    test compares these numbers site by site. *)
Definition orbit_site {F : Type} `{!Float64 F} (orbit : nat) (x y z : Z)
    : PeriodicSite F string nat :=
  mkPeriodicSite "Li" (f_of_Z x, f_of_Z y, f_of_Z z) cubic false orbit.

Definition same_orbits {F : Type} : SpaceGroup F string nat :=
  {| are_symmetrically_equivalent := λ l1 l2,
       bool_decide (properties <$> l1 = properties <$> l2) |}.

(** Two orbits of the migrating species.  The site of the first orbit has
    two neighbours at the distance 1, found in this order: one of the
    second orbit and one of its own. *)
Definition two_orbits {F : Type} `{!Float64 F}
    : SymmetrizedStructure F string nat :=
  {| symm_sites := [orbit_site 0 0 0 0; orbit_site 1 1 0 0];
     equivalent_sites := [[orbit_site 0 0 0 0]; [orbit_site 1 1 0 0]];
     spacegroup := same_orbits;
     get_neighbors := λ s r,
       if decide (properties s = 0)
       then [(orbit_site 1 1 0 0, f_of_Z 1); (orbit_site 0 0 1 0, f_of_Z 1)]
       else [] |}.

Definition two_orbits_finder {F : Type} `{!Float64 F}
    : DistinctPathFinder F string nat :=
  {| structure := {| st_lattice := cubic; sites := symm_sites two_orbits |};
     migrating_specie := "Li"; max_path_length := f_of_Z 5;
     symprec := f_of_Z 0; finder_symm_structure := two_orbits |}.

(** All the structures compared are the same one. *)
Definition never_ne {F : Type}
    (s1 s2 : SymmetrizedStructure F string nat) : bool := false.


(** Two sites on a line at the distance 0.1 in the first configuration, 0.4
    in the second one and 0.7 in the last one. *)
Definition chain_tenths : list (Structure float string unit) :=
  (λ d : float, mkstructure [site "Li" 0 0 0; site "Li" d 0 0]%float)
  <$> [0x1.999999999999ap-4; 0x1.999999999999ap-2; 0x1.6666666666666p-1]%float.

Definition solver_tenths : IDPPSolver float string unit :=
  Eval vm_compute in from_Ok no_solver (IDPPSolver_init chain_tenths).

(** The chain of three configurations whose interior image lists the
    oxygen before the lithium. *)
Definition chain_swapped : list (Structure float string unit) :=
  [mkstructure [site "Li" 0 0 0; site "O" 0.5 0.5 0.5];
   mkstructure [site "O" 0.5 0.5 0.5; site "Li" 0.25 0.125 0];
   mkstructure [site "Li" 0.5 0 0; site "O" 0.5 0.5 0.5]]%float.

Definition solver_swapped : IDPPSolver float string unit :=
  Eval vm_compute in from_Ok no_solver (IDPPSolver_init chain_swapped).

(** Tolerances that the first iteration meets. *)
Definition loose_args : run_args float string :=
  {| maxiter := 5; tol := 1e10%float; gtol := 1e10%float;
     step_size := 0x1.999999999999ap-5%float;
     max_disp := 0x1.999999999999ap-5%float;
     spring_const := 5%float; species := None |}.

(** An interpolation along the straight line between the fractional
    coordinates of the two structures, [n + 1] structures for [n] images. *)
Definition linear {F : Type} `{!Float64 F} {Specie Props : Type}
    (start end_ : Structure F Specie Props) (n : nat) (pbc : bool) (tol : F)
    : interpolation F Specie Props :=
  Images ((λ k : Z,
    {| st_lattice := st_lattice start;
       sites := zip_with (λ a b,
           mkPeriodicSite (species_and_occu a)
             (v3add (frac_coords a)
                (v3map (fmul (fdiv (f_of_Z k) (f_of_Z (Z.of_nat n))))
                   (v3sub (frac_coords b) (frac_coords a))))
             (lattice a) false (properties a))
         (sites start) (sites end_) |}) <$> seqZ 0 (Z.of_nat (n + 1))).

(** An interpolation that cannot match the sites of the two structures
    unless the matching is turned off. *)
Definition unmatched {F : Type} `{!Float64 F} {Specie Props : Type}
    (start end_ : Structure F Specie Props) (n : nat) (pbc : bool) (tol : F)
    : interpolation F Specie Props :=
  if fltb f0 tol
  then Fails ValueError "Unable to reliably match structures with auto_sort_tol"
  else linear start end_ n pbc tol.

(** A finder whose migrating species is not in the structure. *)
Definition sodium_finder {F : Type} `{!Float64 F}
    : DistinctPathFinder F string nat :=
  {| structure := {| st_lattice := cubic; sites := symm_sites two_orbits |};
     migrating_specie := "Na"; max_path_length := f_of_Z 5;
     symprec := f_of_Z 0; finder_symm_structure := two_orbits |}.

(** Two sites of lithium and one of oxygen, and the path from the first
    lithium to the second one. *)
Definition Li2O : SymmetrizedStructure float string unit :=
  {| symm_sites := [site "Li" 0 0 0; site "Li" 0.5 0 0;
                    site "O" 0.5 0.5 0.5]%float;
     equivalent_sites := [[site "Li" 0 0 0; site "Li" 0.5 0 0];
                          [site "O" 0.5 0.5 0.5]]%float;
     spacegroup := {| are_symmetrically_equivalent := λ l1 l2,
       bool_decide (species_and_occu <$> l1 = species_and_occu <$> l2) |};
     get_neighbors := λ s r, [] |}.

Definition Li_hop : MigrationPath float string unit :=
  from_Ok
    {| isite := site "Li" 0 0 0; esite := site "Li" 0 0 0;
       symm_structure := Li2O; msite := site "Li" 0 0 0;
       iindex := None; eindex := None |}%float
    (MigrationPath_init tt (site "Li" 0 0 0) (site "Li" 0.5 0 0) Li2O)%float.

End Examples.

(** ** The monad of results *)

Lemma bind_Ok {A B : Type} (m : result A) (k : A → result B) (b : B) :
  m ≫= k = Ok b ↔ ∃ a, m = Ok a ∧ k a = Ok b.
Proof.
  destruct m as [a|e]; simpl; split.
  - eauto.
  - by intros (a' & [= <-] & ?).
  - done.
  - by intros (? & ? & ?).
Qed.

Lemma getitem_Ok {A : Type} (l : list A) (i : nat) (a : A) :
  getitem l i = Ok a ↔ l !! i = Some a.
Proof. unfold getitem. destruct (l !! i); split; congruence. Qed.

Lemma getitem_lt {A : Type} (l : list A) (i : nat) :
  i < length l → ∃ a, getitem l i = Ok a ∧ l !! i = Some a.
Proof.
  intros Hi. destruct (lookup_lt_is_Some_2 l i Hi) as [a Ha].
  exists a. by rewrite getitem_Ok.
Qed.

Lemma getitem_last_Ok {A : Type} (l : list A) (a : A) :
  getitem_last l = Ok a ↔ last l = Some a.
Proof. unfold getitem_last. destruct (last l); split; congruence. Qed.

(** Inversion of a successful computation, one bind at a time. *)
Ltac inv_ok :=
  repeat match goal with
  | H : Ok _ = Ok _ |- _ => injection H as H; try subst
  | H : Raise _ = Ok _ |- _ => discriminate H
  | H : mret ?a = Ok _ |- _ => change (mret a) with (Ok a) in H
  | H : (let _ := _ in _) = Ok _ |- _ => cbv zeta in H
  | H : _ ≫= _ = Ok _ |- _ =>
      let x := fresh "x" in
      let Hx := fresh "Hx" in
      apply bind_Ok in H as (x & Hx & H)
  | H : getitem _ _ = Ok _ |- _ => apply getitem_Ok in H
  | H : getitem_last _ = Ok _ |- _ => apply getitem_last_Ok in H
  end.

(** Replaces the head of a chain of binds by its value. *)
Ltac ok_bind H :=
  rewrite H;
  match goal with
  | |- context [Ok ?a ≫= ?k] => change (Ok a ≫= k) with (k a); cbv beta
  end.

Lemma mapM_Ok {A B : Type} (f : A → result B) (l : list A) (k : list B) :
  mapM f l = Ok k ↔ Forall2 (λ x y, f x = Ok y) l k.
Proof.
  revert k. induction l as [|x l IH]; intros k; simpl.
  - split; [by intros [= <-] | by inversion 1].
  - split.
    + intros H. inv_ok. constructor; [done | by apply IH].
    + inversion 1 as [|? y ? k' Hy Hk]; subst. rewrite Hy. simpl.
      apply IH in Hk. by rewrite Hk.
Qed.

Lemma mapM_length {A B : Type} (f : A → result B) (l : list A) (k : list B) :
  mapM f l = Ok k → length k = length l.
Proof. intros H%mapM_Ok. symmetry. by eapply Forall2_length. Qed.

Lemma mapM_lookup {A B : Type} (f : A → result B) l k i x :
  mapM f l = Ok k → l !! i = Some x → ∃ y, k !! i = Some y ∧ f x = Ok y.
Proof.
  intros H%mapM_Ok Hx.
  destruct (Forall2_lookup_l _ _ _ _ _ H Hx) as (y & ? & ?). eauto.
Qed.

Lemma mapM_lookup_r {A B : Type} (f : A → result B) l k i y :
  mapM f l = Ok k → k !! i = Some y → ∃ x, l !! i = Some x ∧ f x = Ok y.
Proof.
  intros H%mapM_Ok Hy.
  destruct (Forall2_lookup_r _ _ _ _ _ H Hy) as (x & ? & ?). eauto.
Qed.

Lemma mapM_total {A B : Type} (f : A → result B) (l : list A) :
  Forall (λ x, ∃ y, f x = Ok y) l → ∃ k, mapM f l = Ok k.
Proof.
  induction 1 as [|x l [y Hy] _ [k Hk]]; simpl.
  - by eexists.
  - rewrite Hy. simpl. rewrite Hk. by eexists.
Qed.

Lemma foldM_app {A S : Type} (f : S → A → result S) s l1 l2 :
  foldM f s (l1 ++ l2) = foldM f s l1 ≫= λ s', foldM f s' l2.
Proof.
  revert s. induction l1 as [|x l1 IH]; intros s; simpl; [done|].
  destruct (f s x); simpl; [apply IH | done].
Qed.

(** An invariant of the state of a loop holds when the loop ends. *)
Lemma foldM_invariant {A S : Type} (P : S → Prop) (f : S → A → result S) l :
  (∀ s x s', x ∈ l → P s → f s x = Ok s' → P s') →
  ∀ s s', P s → foldM f s l = Ok s' → P s'.
Proof.
  induction l as [|x l IH]; intros Hf s s' Hs H; simpl in H.
  - by inv_ok.
  - apply bind_Ok in H as (s1 & Hs1 & H).
    eapply IH; [|eapply Hf; [|exact Hs|exact Hs1]|exact H].
    + intros ???? ; apply Hf. by right.
    + by left.
Qed.

(** A loop whose body cannot raise under the invariant does not raise. *)
Lemma foldM_total {A S : Type} (P : S → Prop) (f : S → A → result S) l s :
  P s →
  (∀ s x, x ∈ l → P s → ∃ s', f s x = Ok s' ∧ P s') →
  ∃ s', foldM f s l = Ok s' ∧ P s'.
Proof.
  revert s. induction l as [|x l IH]; intros s Hs Hf; simpl.
  - eauto.
  - destruct (Hf s x) as (s1 & -> & Hs1); [by left | done |]. simpl.
    apply IH; [done|]. intros ????; apply Hf; [by right | done].
Qed.

Section Construction.
Context {F : Type} `{!Float64 F}.
Context {Specie : Type} `{!EqDecision Specie} {Props : Type}.
Implicit Types (chain : list (Structure F Specie Props)).
Implicit Types (self : IDPPSolver F Specie Props).

(** What a successful construction has computed. *)
Lemma IDPPSolver_init_inv chain self :
  IDPPSolver_init chain = Ok self →
  ∃ s0 slast ic,
    chain !! 0 = Some s0 ∧ last chain = Some slast ∧
    2 ≤ length chain ∧
    nimages self = length chain - 2 ∧
    natoms self = num_sites s0 ∧
    structures self = chain ∧
    target_dists self =
      interpolated_dist (distance_matrix s0) (distance_matrix slast)
        (Z.of_nat (nimages self)) <$> seqZ 1 (Z.of_nat (nimages self)) ∧
    mapM (λ ni,
        td ← getitem (target_dists self) ni;
        s ← getitem chain (ni + 1);
        Ok (weight (natoms self) td (distance_matrix s)))
      (seq 0 (nimages self)) = Ok (weights self) ∧
    foldM (init_step chain (st_lattice s0) (nimages self) (natoms self))
      ([], replicate (nimages self)
             (replicate (natoms self) (replicate (natoms self) zeros3)))
      (list_prod (seq 0 (nimages self + 2)) (seq 0 (natoms self)))
      = Ok (ic, translations self) ∧
    init_coords self =
      reshape (replicate (nimages self + 2) (natoms self)) ic.
Proof.
  unfold IDPPSolver_init. intros H.
  apply bind_Ok in H as (s0 & Hs0 & H). apply bind_Ok in H as (sl & Hsl & H).
  case_bool_decide as Hn; [done|].
  apply bind_Ok in H as (w & Hw & H). apply bind_Ok in H as ([ic tr] & Hf & H).
  inv_ok. simpl.
  assert (Z.of_nat (Z.to_nat (Z.of_nat (length chain) - 2))
          = (Z.of_nat (length chain) - 2)%Z) as Hz by lia.
  exists s0, sl, ic. rewrite !Hz.
  repeat split; try done; lia.
Qed.


Lemma target_dists_length chain self :
  IDPPSolver_init chain = Ok self → length (target_dists self) = nimages self.
Proof.
  intros (s0 & sl & ic & _ & _ & _ & _ & _ & _ & -> & _)%IDPPSolver_init_inv.
  rewrite length_fmap, length_seqZ. lia.
Qed.

Lemma target_dists_lookup chain self s0 slast (i : nat) :
  IDPPSolver_init chain = Ok self →
  chain !! 0 = Some s0 → last chain = Some slast →
  1 ≤ i ≤ nimages self →
  target_dists self !! (i - 1) =
    Some (interpolated_dist (distance_matrix s0) (distance_matrix slast)
            (Z.of_nat (nimages self)) (Z.of_nat i)).
Proof.
  intros (s0' & sl' & ic & H0 & Hl & _ & _ & _ & _ & -> & _)%IDPPSolver_init_inv.
  intros ?? Hi. simplify_eq. rewrite list_lookup_fmap.
  rewrite (lookup_seqZ_lt _ _ (i - 1)) by lia. simpl. do 2 f_equal. lia.
Qed.

End Construction.

Section Translations.
Context {F : Type} `{!Float64 F}.
Context {Specie : Type} `{!EqDecision Specie} {Props : Type}.
Implicit Types (chain : list (Structure F Specie Props)).
Implicit Types (self : IDPPSolver F Specie Props).
Implicit Types (t : list (list (list (F * F * F)))).
Implicit Types (s : Structure F Specie Props) (latt : Lattice F).

Lemma translation_at_set ni i j v t ni' a b :
  translation_at (set_translation ni i j v t) ni' a b =
    if decide (ni = ni' ∧ i = a ∧ j = b)
    then (λ _, v) <$> translation_at t ni' a b
    else translation_at t ni' a b.
Proof.
  unfold translation_at, set_translation.
  rewrite list_lookup_alter.
  destruct (decide (ni = ni')) as [<-|]; [|by rewrite decide_False by tauto].
  destruct (t !! ni) as [m|]; simpl; [|by case_decide].
  rewrite list_lookup_alter.
  destruct (decide (i = a)) as [<-|]; [|by rewrite decide_False by tauto].
  destruct (m !! i) as [row|]; simpl; [|by case_decide].
  rewrite list_lookup_insert.
  destruct (decide (j = b)) as [<-|].
  - rewrite (decide_True (P := ni = ni ∧ i = i ∧ j = j)) by done.
    destruct (decide (j < length row)) as [Hj|Hj].
    + rewrite decide_True by done.
      by destruct (lookup_lt_is_Some_2 row j Hj) as [? ->].
    + rewrite decide_False by tauto. rewrite lookup_ge_None_2; [done | lia].
  - rewrite decide_False by tauto. by rewrite decide_False by tauto.
Qed.

Section Laws.
Hypothesis fneg_involutive : ∀ x : F, fneg (fneg x) = x.
Hypothesis fneg_zero : fneg f0 = f0.

Lemma v3neg_involutive (v : F * F * F) : v3neg (v3neg v) = v.
Proof.
  destruct v as [[x y] z]. unfold v3neg, v3map.
  by rewrite !fneg_involutive.
Qed.

Lemma antisymmetric_zeros n m :
  antisymmetric (replicate n (replicate m (replicate m zeros3))).
Proof.
  intros ni i j v. unfold translation_at. intros H.
  destruct (replicate n _ !! ni) as [x|] eqn:E1; simplify_eq/=.
  apply lookup_replicate in E1 as [-> ?].
  destruct (replicate m _ !! i) as [r|] eqn:E2; simplify_eq/=.
  apply lookup_replicate in E2 as [-> ?].
  apply lookup_replicate in H as [-> ?].
  rewrite (lookup_replicate_2 m _ j) by done. simpl.
  rewrite lookup_replicate_2 by done.
  split; [|done]. f_equal. unfold v3neg, zeros3, v3map. by rewrite fneg_zero.
Qed.

Lemma antisymmetric_set ni i j c t :
  i ≠ j → antisymmetric t →
  antisymmetric
    (set_translation ni j i (v3neg c) (set_translation ni i j c t)).
Proof.
  intros Hij Ht ni' a b v. rewrite !translation_at_set. intros H.
  destruct (decide (ni = ni' ∧ j = a ∧ i = b)) as [(<- & <- & <-)|Hne1].
  - rewrite decide_False in H by tauto.
    rewrite (decide_False (P := ni = ni ∧ j = i ∧ i = j)) by tauto.
    rewrite decide_True by done.
    destruct (translation_at t ni j i) as [w|] eqn:E; simplify_eq/=.
    destruct (Ht _ _ _ _ E) as [-> _]. simpl.
    split; [|done]. by rewrite v3neg_involutive.
  - destruct (decide (ni = ni' ∧ i = a ∧ j = b)) as [(<- & <- & <-)|Hne2].
    + rewrite decide_True by done.
      rewrite (decide_False (P := ni = ni ∧ i = j ∧ j = i)) by tauto.
      destruct (translation_at t ni i j) as [w|] eqn:E; simplify_eq/=.
      destruct (Ht _ _ _ _ E) as [-> _]. by split.
    + rewrite decide_False by tauto. rewrite decide_False by tauto.
      by apply Ht.
Qed.

Lemma init_translations_antisymmetric s latt natoms ni i frac t t' :
  init_translations s latt natoms ni i frac t = Ok t' →
  antisymmetric t → antisymmetric t'.
Proof.
  intros H Ht. unfold init_translations in H.
  eapply (foldM_invariant antisymmetric) in H; [done| |done].
  intros t1 j t2 Hj Ht1 H'. inv_ok.
  apply antisymmetric_set; [|done].
  apply elem_of_seq in Hj. lia.
Qed.

Lemma init_step_antisymmetric chain latt nimages natoms st nii st' :
  init_step chain latt nimages natoms st nii = Ok st' →
  antisymmetric st.2 → antisymmetric st'.2.
Proof.
  destruct st as [ic t], nii as [ni i]. simpl. intros H Ht.
  apply bind_Ok in H as (s & _ & H). apply bind_Ok in H as (si & _ & H).
  case_bool_decide; [by inv_ok|].
  apply bind_Ok in H as (t' & Ht' & H). inv_ok. simpl.
  by eapply init_translations_antisymmetric.
Qed.

Lemma translations_antisymmetry chain self :
  IDPPSolver_init chain = Ok self → antisymmetric (translations self).
Proof.
  intros (s0 & sl & ic & _ & _ & _ & _ & _ & _ & _ & _ & H & _)%IDPPSolver_init_inv.
  eapply (foldM_invariant (λ st, antisymmetric st.2)) in H; [done| |].
  - intros st x st' _ HP Hf. by eapply init_step_antisymmetric.
  - apply antisymmetric_zeros.
Qed.

End Laws.

Lemma in_shape_set n m ni i j c t :
  in_shape n m t → in_shape n m (set_translation ni i j c t).
Proof.
  intros Ht ni' a b ???. rewrite translation_at_set.
  destruct (Ht ni' a b) as [v ->]; try done. by case_decide.
Qed.

Lemma translations_in_shape chain self :
  IDPPSolver_init chain = Ok self →
  in_shape (nimages self) (natoms self) (translations self).
Proof.
  intros (s0 & sl & ic & _ & _ & _ & _ & _ & _ & _ & _ & H & _)%IDPPSolver_init_inv.
  eapply (foldM_invariant (λ st, in_shape (nimages self) (natoms self) st.2))
    in H; [done| |].
  - intros [ic1 t1] [ni i] st' _ Ht H'. simpl in *.
    apply bind_Ok in H' as (s & _ & H'). apply bind_Ok in H' as (si & _ & H').
    case_bool_decide; [by inv_ok|].
    apply bind_Ok in H' as (t' & Ht' & H'). inv_ok. simpl.
    eapply (foldM_invariant (in_shape (nimages self) (natoms self)))
      in Ht'; [done| |done].
    intros t2 j t3 _ Ht2 H'. inv_ok. by do 2 apply in_shape_set.
  - intros ni i j ???. unfold translation_at. simpl.
    rewrite lookup_replicate_2 by done. simpl.
    rewrite lookup_replicate_2 by done. simpl.
    by rewrite lookup_replicate_2 by done.
Qed.

End Translations.

(** C10: after the construction, [translations[ni, j, i]] is the opposite
    of [translations[ni, i, j]] for every interior image and every pair of
    sites, and the entries of the diagonal are the zero vector they were
    created with. *)
Theorem translations_antisymmetric {Specie Props : Type}
    (chain : list (Structure xreal Specie Props)) self (ni i j : nat) :
  IDPPSolver_init chain = Ok self →
  ni < nimages self → i < natoms self → j < natoms self →
  ∃ v, translation_at (translations self) ni i j = Some v ∧
       translation_at (translations self) ni j i = Some (v3neg v) ∧
       (i = j → v = zeros3).
Proof.
  intros Hinit Hni Hi Hj.
  destruct (translations_in_shape _ _ Hinit ni i j) as [v Hv]; try done.
  exists v. split; [done|].
  eapply (translations_antisymmetry (F := xreal)); try done.
  - intros [x|]; simpl; [|done]. f_equal. lra.
  - simpl. f_equal. lra.
Qed.

Create Rewrite HintDb shape.

Section Shapes.
Context {F : Type} `{!Float64 F}.
Context {Specie : Type} `{!EqDecision Specie} {Props : Type}.
Implicit Types (chain : list (Structure F Specie Props)).
Implicit Types (self : IDPPSolver F Specie Props).
Implicit Types (s : Structure F Specie Props) (latt : Lattice F).
Implicit Types (m : list (list F)) (c : list (F * F * F)).
Implicit Types (x : list (list (F * F * F))).

Lemma length_madd m1 m2 : length (madd m1 m2) = min (length m1) (length m2).
Proof. apply length_zip_with. Qed.
Lemma length_msub m1 m2 : length (msub m1 m2) = min (length m1) (length m2).
Proof. apply length_zip_with. Qed.
Lemma length_mmul m1 m2 : length (mmul m1 m2) = min (length m1) (length m2).
Proof. apply length_zip_with. Qed.
Lemma length_mdiv m1 m2 : length (mdiv m1 m2) = min (length m1) (length m2).
Proof. apply length_zip_with. Qed.
Lemma length_mscale k m : length (mscale k m) = length m.
Proof. apply length_fmap. Qed.
Lemma length_mmap f m : length (mmap f m) = length m.
Proof. apply length_fmap. Qed.
Lemma length_eye n : length (eye n) = n.
Proof. unfold eye. by rewrite length_fmap, length_seq. Qed.
Lemma length_distance_matrix s : length (distance_matrix s) = num_sites s.
Proof. apply length_fmap. Qed.
Lemma length_cadd c1 c2 : length (cadd c1 c2) = min (length c1) (length c2).
Proof. apply length_zip_with. Qed.
Lemma length_csub c1 c2 : length (csub c1 c2) = min (length c1) (length c2).
Proof. apply length_zip_with. Qed.
Lemma length_vadd (v1 v2 : list F) :
  length (vadd v1 v2) = min (length v1) (length v2).
Proof. apply length_zip_with. Qed.
Lemma length_vsub (v1 v2 : list F) :
  length (vsub v1 v2) = min (length v1) (length v2).
Proof. apply length_zip_with. Qed.
Lemma length_vscale k (v : list F) : length (vscale k v) = length v.
Proof. apply length_fmap. Qed.
Lemma length_get_unit_vector (v : list F) :
  length (get_unit_vector v) = length v.
Proof. apply length_fmap. Qed.
Lemma length_flatten c : length (flatten c) = 3 * length c.
Proof.
  unfold flatten. induction c as [|[[a b] d] c IH]; [done|].
  change (length (((a, b, d) :: c) ≫= v3list))
    with (S (S (S (length (c ≫= v3list))))).
  rewrite IH. simpl. lia.
Qed.
Lemma length_reshape3 (v : list F) n :
  length v = 3 * n → length (reshape3 v) = n.
Proof.
  revert v. induction n as [|n IH]; intros v Hv.
  - by destruct v.
  - destruct v as [|a [|b [|d v]]]; simplify_eq/=; try lia.
    f_equal. apply IH. lia.
Qed.

#[local] Hint Rewrite length_madd length_msub length_mmul length_mdiv length_mscale
  length_mmap length_eye length_distance_matrix length_cadd length_csub
  length_vadd length_vsub length_vscale length_get_unit_vector length_flatten
  @length_fmap @length_seq @length_replicate @length_insert @length_app
  @length_take @length_drop : shape.

Lemma length_interpolated_dist d0 dl n i :
  length (interpolated_dist d0 dl n i) = min (length d0) (length dl).
Proof. unfold interpolated_dist. autorewrite with shape. lia. Qed.

Lemma length_weight n t a :
  length (weight n t a) = min (min (length t) (length a)) n.
Proof. unfold weight. by autorewrite with shape. Qed.

Lemma reshape_replicate_lengths {A : Type} (l : list A) k n :
  k * n ≤ length l → Forall (λ row, length row = n) (reshape (replicate k n) l).
Proof.
  revert l. induction k as [|k IH]; intros l Hl; simpl; constructor.
  - rewrite length_take. lia.
  - apply IH. rewrite length_drop. lia.
Qed.

Lemma init_step_length chain latt nimages natoms st nii st' :
  init_step chain latt nimages natoms st nii = Ok st' →
  length st'.1 = S (length st.1).
Proof.
  destruct st as [ic t], nii as [ni i]. simpl. intros H.
  apply bind_Ok in H as (s & _ & H). apply bind_Ok in H as (si & _ & H).
  case_bool_decide; [|apply bind_Ok in H as (t' & _ & H)]; inv_ok; simpl;
    rewrite length_app; simpl; lia.
Qed.

Lemma init_coords_length chain latt nimages natoms l st st' :
  foldM (init_step chain latt nimages natoms) st l = Ok st' →
  length st'.1 = length st.1 + length l.
Proof.
  revert st. induction l as [|nii l IH]; intros st H; simpl in H.
  - inv_ok. simpl. lia.
  - apply bind_Ok in H as (st1 & H1 & H). apply IH in H.
    apply init_step_length in H1. simpl. lia.
Qed.

Lemma elem_of_list_prod_inv {A B : Type} (l : list A) (k : list B) a b :
  (a, b) ∈ list_prod l k → a ∈ l ∧ b ∈ k.
Proof. rewrite !list_elem_of_In. apply in_prod_iff. Qed.

Lemma wf_chain_lookup chain n i s :
  Forall (λ s, num_sites s = n) chain → chain !! i = Some s → num_sites s = n.
Proof. intros Hall Hs. by eapply (Forall_lookup_1 _ _ _ _ Hall Hs). Qed.

(** The construction succeeds on a well-formed chain. *)
Lemma IDPPSolver_init_total chain :
  wf_chain chain → ∃ self, IDPPSolver_init chain = Ok self.
Proof.
  intros (Hlen & n & Hn & Hsites). unfold IDPPSolver_init.
  destruct (getitem_lt chain 0) as (s0 & -> & H0); [lia|]. simpl.
  assert (∃ sl, last chain = Some sl) as [sl Hsl].
  { apply last_is_Some. by destruct chain. }
  unfold getitem_last. rewrite Hsl. simpl.
  rewrite bool_decide_eq_false_2 by lia.
  pose proof (wf_chain_lookup _ _ _ _ Hsites H0) as Hn0.
  match goal with |- context [mapM ?f ?l] =>
    destruct (mapM_total f l) as [w ->] end.
  { apply Forall_forall. intros ni Hni%elem_of_seq.
    destruct (getitem_lt
      (interpolated_dist (distance_matrix s0) (distance_matrix sl)
         (Z.of_nat (length chain) - 2)
         <$> seqZ 1 (Z.of_nat (length chain) - 2))
      ni) as (td & -> & _).
    { rewrite length_fmap, length_seqZ. lia. }
    simpl. destruct (getitem_lt chain (ni + 1)) as (s & -> & _); [lia|].
    simpl. by eexists. }
  simpl.
  match goal with |- context [foldM ?f ?st ?l] =>
    destruct (foldM_total (λ _, True) f l st I) as ([ic t] & -> & _) end;
    [|simpl; by eexists].
  intros [ic t] [ni i] (Hni & Hi)%elem_of_list_prod_inv _.
  apply elem_of_seq in Hni, Hi. simpl.
  destruct (getitem_lt chain ni) as (s & -> & Hs); [lia|]. simpl.
  pose proof (wf_chain_lookup _ _ _ _ Hsites Hs) as Hns.
  destruct (getitem_lt (sites s) i) as (si & -> & Hsi);
    [unfold num_sites in *; lia|]. simpl.
  case_bool_decide; [by eexists|].
  unfold init_translations.
  match goal with |- context [foldM ?f ?st ?l] =>
    destruct (foldM_total (λ _, True) f l st I) as (t' & -> & _) end;
    [|simpl; by eexists].
  intros t1 j Hj%elem_of_seq _.
  destruct (getitem_lt (sites s) j) as (sj & -> & Hsj);
    [unfold num_sites in *; lia|]. simpl. by eexists.
Qed.

(** The arrays of a solver made from a well-formed chain have the shapes
    of the comments in [IDPPSolver]. *)
Lemma IDPPSolver_init_wf chain self :
  wf_chain chain → IDPPSolver_init chain = Ok self → solver_wf self.
Proof.
  intros (Hlen & n & Hn & Hsites) Hinit.
  pose proof (translations_in_shape _ _ Hinit) as Hshape.
  pose proof (target_dists_length _ _ Hinit) as Htl.
  destruct (IDPPSolver_init_inv _ _ Hinit)
    as (s0 & sl & ic & H0 & Hl & _ & Hni & Hna & Hst & Htd & Hw & Hf & Hic).
  pose proof (wf_chain_lookup _ _ _ _ Hsites H0) as Hn0.
  assert (num_sites sl = n) as Hnl.
  { rewrite last_lookup in Hl. by eapply wf_chain_lookup. }
  assert (Forall (λ m, length m = natoms self) (target_dists self)) as Htr.
  { rewrite Htd. apply Forall_fmap, Forall_forall. intros i _. simpl.
    rewrite length_interpolated_dist. autorewrite with shape. lia. }
  split; try done; try lia.
  - rewrite Hst. lia.
  - rewrite Hst, Hna, Hn0. done.
  - rewrite Hic. by rewrite length_reshape, length_replicate.
  - rewrite Hic. apply reshape_replicate_lengths.
    apply init_coords_length in Hf. simpl in Hf. rewrite Hf.
    rewrite length_prod, !length_seq. lia.
  - apply mapM_length in Hw. by rewrite Hw, length_seq.
  - apply Forall_forall. intros w Hin.
    apply list_elem_of_lookup in Hin as [i Hi].
    destruct (mapM_lookup_r _ _ _ _ _ Hw Hi) as (ni & Hni' & Hwi).
    apply lookup_seq in Hni' as [-> Hlt]. simpl in Hwi.
    apply bind_Ok in Hwi as (td & Htdi & Hwi).
    apply bind_Ok in Hwi as (s & Hs & Hwi). inv_ok.
    rewrite length_weight. autorewrite with shape.
    pose proof (wf_chain_lookup _ _ _ _ Hsites Hs).
    pose proof (Forall_lookup_1 _ _ _ _ Htr Htdi) as Htdl. simpl in Htdl.
    lia.
Qed.

End Shapes.

#[local] Hint Rewrite @length_madd @length_msub @length_mmul @length_mdiv
  @length_mscale @length_mmap @length_eye @length_distance_matrix
  @length_cadd @length_csub @length_vadd @length_vsub @length_vscale
  @length_get_unit_vector @length_flatten
  @length_fmap @length_seq @length_replicate @length_insert @length_app
  @length_take @length_drop : shape.

(** ** Interpolation of the distance matrices *)

Section Interpolation.
Context {F : Type} `{!Float64 F}.
Context {Specie : Type} `{!EqDecision Specie} {Props : Type}.
Implicit Types (chain : list (Structure F Specie Props)).
Implicit Types (self : IDPPSolver F Specie Props).

Lemma zip_with_fmap_zip_with {A : Type} (f h : A → A → A) (g : A → A)
    (a b : list A) :
  zip_with f a (g <$> zip_with h b a) =
    zip_with (λ x y, f x (g (h y x))) a b.
Proof.
  revert b. induction a as [|x a IH]; intros [|y b]; simpl; try done.
  by rewrite IH.
Qed.

Lemma mat_midpoint (a b : list (list F)) :
  midpoint_law → madd a (mscale fhalf (msub b a)) = mavg a b.
Proof.
  intros Hlaw. unfold madd, mscale, msub, mavg.
  rewrite zip_with_fmap_zip_with.
  apply zip_with_ext; try done. intros x y.
  unfold vadd, vscale, vsub. rewrite zip_with_fmap_zip_with.
  apply zip_with_ext; try done.
Qed.

(** C1, as the code has it: on a chain whose configurations have the same
    number of sites, the constructor computes one target distance matrix
    for each interior position [i] in 1..nimages, of the shape of the
    distance matrices, by the operations
    [D0 + i / (nimages + 1) * (Dlast - D0)] of the arithmetic, in this
    order.  With one interior image the target is
    [D0 + 0.5 * (Dlast - D0)]; it is the elementwise average
    [(D0 + Dlast) / 2] in an arithmetic in which the two expressions
    agree. *)
Theorem target_dists_interpolation chain self s0 slast :
  IDPPSolver_init chain = Ok self →
  chain !! 0 = Some s0 → last chain = Some slast →
  Forall (λ s, num_sites s = num_sites s0) chain →
  length (target_dists self) = nimages self ∧
  Forall (λ target, length target = num_sites s0) (target_dists self) ∧
  (∀ i : nat, 1 ≤ i ≤ nimages self →
     target_dists self !! (i - 1) =
       Some (madd (distance_matrix s0)
               (mscale (fdiv (f_of_Z (Z.of_nat i))
                          (f_of_Z (Z.of_nat (nimages self) + 1)))
                  (msub (distance_matrix slast) (distance_matrix s0))))) ∧
  (nimages self = 1 →
     target_dists self =
       [madd (distance_matrix s0)
          (mscale fhalf (msub (distance_matrix slast) (distance_matrix s0)))] ∧
     (midpoint_law →
      target_dists self =
        [mavg (distance_matrix s0) (distance_matrix slast)])).
Proof.
  intros Hinit H0 Hl Hsites.
  pose proof (target_dists_length _ _ Hinit) as Hlen.
  assert (∀ i : nat, 1 ≤ i ≤ nimages self →
     target_dists self !! (i - 1) =
       Some (interpolated_dist (distance_matrix s0) (distance_matrix slast)
               (Z.of_nat (nimages self)) (Z.of_nat i))) as Hlookup.
  { intros i Hi. by eapply target_dists_lookup. }
  assert (num_sites slast = num_sites s0) as Hslast.
  { rewrite last_lookup in Hl.
    exact (proj1 (Forall_lookup _ _) Hsites _ _ Hl). }
  split; [done|]. split.
  { apply Forall_lookup. intros k target Hk.
    apply lookup_lt_Some in Hk as Hlt. rewrite Hlen in Hlt.
    specialize (Hlookup (S k) ltac:(lia)).
    replace (S k - 1) with k in Hlookup by lia.
    rewrite Hk in Hlookup. injection Hlookup as ->.
    rewrite length_interpolated_dist, !length_distance_matrix. lia. }
  split; [done|]. intros Hn.
  assert (target_dists self =
    [madd (distance_matrix s0)
       (mscale fhalf (msub (distance_matrix slast) (distance_matrix s0)))])
    as Htarget.
  { specialize (Hlookup 1). rewrite Hn in *.
    destruct (target_dists self) as [|t [|??]]; simplify_eq/=.
    specialize (Hlookup ltac:(lia)). by simplify_eq/=. }
  split; [done|]. intros Hlaw. by rewrite Htarget, mat_midpoint.
Qed.

End Interpolation.

(** In exact arithmetic the two expressions of the average agree. *)
Lemma ideal_midpoint_law : midpoint_law (F := xreal).
Proof.
  intros x y. unfold fhalf, f1, f2.
  destruct x as [x|], y as [y|]; simpl; try done;
    repeat (destruct (Req_dec_T _ _) as [H0|_]; [lra|]); try done.
  f_equal. lra.
Qed.

Section Forces.
Context {F : Type} `{!Float64 F}.
Context {Specie : Type} `{!EqDecision Specie} {Props : Type}.
Implicit Types (chain : list (Structure F Specie Props)).
Implicit Types (self : IDPPSolver F Specie Props).
Implicit Types (s : Structure F Specie Props) (latt : Lattice F).
Implicit Types (m : list (list F)) (c : list (F * F * F)).
Implicit Types (x : list (list (F * F * F))).

Lemma solver_translation_lookup self ni i :
  solver_wf self → ni < nimages self → i < natoms self →
  ∃ tr tri, translations self !! ni = Some tr ∧ tr !! i = Some tri.
Proof.
  intros Hwf Hni Hi.
  pose proof (wf_natoms _ Hwf).
  destruct (wf_translations _ Hwf ni i 0) as [v Hv]; [done|done|lia|].
  unfold translation_at in Hv.
  destruct (translations self !! ni) as [tr|] eqn:E1; simplify_eq/=.
  destruct (tr !! i) as [tri|] eqn:E2; simplify_eq/=. eauto.
Qed.

Lemma coords_wf_lookup self x ni :
  coords_wf self x → ni < nimages self + 2 →
  ∃ c, x !! ni = Some c ∧ length c = natoms self.
Proof.
  intros [Hlen Hrows] Hni.
  destruct (lookup_lt_is_Some_2 x ni) as [c Hc]; [lia|].
  exists c. split; [done|]. by eapply (Forall_lookup_1 _ _ _ _ Hrows Hc).
Qed.

Lemma image_func_and_force_ok self x ni :
  solver_wf self → coords_wf self x → ni < nimages self →
  ∃ f g, image_func_and_force self x ni = Ok (f, g) ∧
         length g = natoms self.
Proof.
  intros Hwf Hx Hni. unfold image_func_and_force.
  destruct (coords_wf_lookup _ _ (ni + 1) Hx) as (xi & Hxi & Hxil); [lia|].
  destruct (coords_wf_lookup _ _ 0 Hx) as (x0 & Hx0 & Hx0l); [lia|].
  destruct (lookup_lt_is_Some_2 (target_dists self) ni) as [target Htg].
  { rewrite (wf_target_dists _ Hwf). lia. }
  destruct (lookup_lt_is_Some_2 (weights self) ni) as [w Hw].
  { rewrite (wf_weights _ Hwf). lia. }
  pose proof (Forall_lookup_1 _ _ _ _ (wf_target_rows _ Hwf) Htg) as Htgl.
  pose proof (Forall_lookup_1 _ _ _ _ (wf_weight_rows _ Hwf) Hw) as Hwl.
  simpl in Htgl, Hwl.
  match goal with |- context [mapM ?f ?l ≫= _] =>
    destruct (mapM_total f l) as [vec Hvec] end.
  { apply Forall_forall. intros i Hi%elem_of_seq.
    apply getitem_Ok in Hxi. ok_bind Hxi.
    destruct (getitem_lt xi i) as (xii & Hxii & _); [lia|]. ok_bind Hxii.
    destruct (solver_translation_lookup self ni i)
      as (tr & tri & Htr%getitem_Ok & Htri%getitem_Ok); [done|lia..|].
    ok_bind Htr. ok_bind Htri. by eexists. }
  pose proof (mapM_length _ _ _ Hvec) as Hvecl. rewrite length_seq in Hvecl.
  ok_bind Hvec.
  apply getitem_Ok in Htg, Hw, Hx0. ok_bind Htg. ok_bind Hw. ok_bind Hx0.
  match goal with |- context [foldM ?f ?g0 ?l ≫= _] =>
    destruct (foldM_total (λ g, length g = natoms self) f l g0)
      as (g & Hg & Hgl) end.
  { by rewrite length_fmap. }
  { intros g i Hi%elem_of_seq Hgl.
    match goal with |- context [getitem ?aux i ≫= _] =>
      destruct (getitem_lt aux i) as (a & Ha & _) end.
    { autorewrite with shape. lia. }
    ok_bind Ha.
    destruct (getitem_lt vec i) as (v & Hv & _); [lia|]. ok_bind Hv.
    unfold setitem. rewrite decide_True by lia.
    eexists. split; [done|]. by rewrite length_insert. }
  ok_bind Hg. eauto.
Qed.

Lemma get_funcs_and_forces_ok self x :
  solver_wf self → coords_wf self x →
  ∃ funcs true_forces,
    _get_funcs_and_forces self x = Ok (funcs, true_forces) ∧
    length true_forces = nimages self ∧
    Forall (λ g, length g = natoms self) true_forces.
Proof.
  intros Hwf Hx. unfold _get_funcs_and_forces.
  destruct Hx as [Hxl Hxr]. rewrite Hxl.
  replace (nimages self + 2 - 2) with (nimages self) by lia.
  destruct (mapM_total (image_func_and_force self x) (seq 0 (nimages self)))
    as [r Hr].
  { apply Forall_forall. intros ni Hni%elem_of_seq.
    destruct (image_func_and_force_ok self x ni) as (f & g & -> & _);
      [done..|lia|]. by eexists. }
  ok_bind Hr. do 2 eexists. split; [done|].
  pose proof (mapM_length _ _ _ Hr) as Hrl. rewrite length_seq in Hrl.
  split; [by rewrite length_fmap|].
  apply Forall_fmap, Forall_forall. intros [f g] Hin. simpl.
  apply list_elem_of_lookup in Hin as [i Hi].
  destruct (mapM_lookup_r _ _ _ _ _ Hr Hi) as (ni & Hni%lookup_seq & Hfg).
  destruct (image_func_and_force_ok self x ni) as (f' & g' & Hfg' & Hl);
    [done..|lia|].
  rewrite Hfg in Hfg'. by simplify_eq.
Qed.

Lemma image_total_force_ok self x true_forces k ni :
  coords_wf self x →
  length true_forces = nimages self →
  Forall (λ g, length g = natoms self) true_forces →
  1 ≤ ni ≤ nimages self →
  ∃ tf, image_total_force x true_forces k ni = Ok tf ∧
        length tf = natoms self.
Proof.
  intros Hx Htl Htr Hni. unfold image_total_force.
  destruct (coords_wf_lookup _ _ (ni + 1) Hx) as (xn & Hxn%getitem_Ok & Hxnl);
    [lia|].
  destruct (coords_wf_lookup _ _ ni Hx) as (xc & Hxc%getitem_Ok & Hxcl); [lia|].
  destruct (coords_wf_lookup _ _ (ni - 1) Hx) as (xp & Hxp%getitem_Ok & Hxpl);
    [lia|].
  ok_bind Hxn. ok_bind Hxc. ok_bind Hxp.
  destruct (getitem_lt true_forces (ni - 1)) as (tf & Htf & Htf'); [lia|].
  ok_bind Htf. eexists. split; [done|].
  pose proof (Forall_lookup_1 _ _ _ _ Htr Htf') as Htfl. simpl in Htfl.
  rewrite length_cadd, (length_reshape3 _ (natoms self)); [lia|].
  unfold local_tangent. autorewrite with shape. lia.
Qed.

Lemma get_total_forces_ok self x true_forces k :
  solver_wf self → coords_wf self x →
  length true_forces = nimages self →
  Forall (λ g, length g = natoms self) true_forces →
  ∃ tot_forces,
    _get_total_forces self x true_forces k = Ok tot_forces ∧
    length tot_forces = nimages self ∧
    Forall (λ g, length g = natoms self) tot_forces.
Proof.
  intros Hwf Hx Htl Htr. unfold _get_total_forces.
  pose proof (wf_nimages _ Hwf).
  destruct true_forces as [|g0 tfs] eqn:E; [simpl in Htl; lia|].
  rewrite <- E in *. clear E.
  change (Ok (length g0) ≫= ?k) with (k (length g0)). cbv beta.
  destruct Hx as [Hxl Hxr]. rewrite Hxl.
  replace (nimages self + 2 - 2) with (nimages self) by lia.
  destruct (mapM_total (image_total_force x true_forces k)
              (seq 1 (nimages self))) as [r Hr].
  { apply Forall_forall. intros ni Hni%elem_of_seq.
    destruct (image_total_force_ok self x true_forces k ni) as (tf & -> & _);
      try done; [lia|]. by eexists. }
  exists r. split; [done|].
  pose proof (mapM_length _ _ _ Hr) as Hrl. rewrite length_seq in Hrl.
  split; [done|].
  apply Forall_forall. intros tf Hin.
  apply list_elem_of_lookup in Hin as [i Hi].
  destruct (mapM_lookup_r _ _ _ _ _ Hr Hi) as (ni & Hni%lookup_seq & Htf).
  destruct (image_total_force_ok self x true_forces k ni) as (tf' & Htf' & Hl);
    try done; [lia|].
  rewrite Htf in Htf'. by simplify_eq.
Qed.

End Forces.

Section Update.
Context {F : Type} `{!Float64 F}.
Context {Specie : Type} `{!EqDecision Specie} {Props : Type}.
Context {SpLike : Type} (get_el_sp : SpLike → result Specie).
Implicit Types (chain : list (Structure F Specie Props)).
Implicit Types (self : IDPPSolver F Specie Props).
Implicit Types (s : Structure F Specie Props) (latt : Lattice F).
Implicit Types (m : list (list F)) (c img d : list (F * F * F)).
Implicit Types (x : list (list (F * F * F))).
Implicit Types (a : run_args F SpLike).

Lemma same_outside_refl indices x : same_outside indices x x.
Proof. by repeat split. Qed.

Lemma same_outside_trans indices x1 x2 x3 :
  same_outside indices x1 x2 → same_outside indices x2 x3 →
  same_outside indices x1 x3.
Proof.
  intros (H0 & Hl & Hk) (H0' & Hl' & Hk'). repeat split; try congruence.
  intros ni k Hnotin. rewrite Hk', Hk; done.
Qed.

Lemma foldl_insert_length {A : Type} (l : list (nat * A)) (acc : list A) :
  length (foldl (λ acc p, <[p.1 := p.2]> acc) acc l) = length acc.
Proof.
  revert acc. induction l as [|p l IH]; intros acc; simpl; [done|].
  by rewrite IH, length_insert.
Qed.

Lemma foldl_insert_lookup_ne {A : Type} (l : list (nat * A)) (acc : list A) k :
  k ∉ l.*1 → foldl (λ acc p, <[p.1 := p.2]> acc) acc l !! k = acc !! k.
Proof.
  revert acc. induction l as [|p l IH]; intros acc Hk; simpl; [done|].
  apply not_elem_of_cons in Hk as [Hne Hk].
  rewrite IH by done. by rewrite list_lookup_insert_ne.
Qed.

Lemma iadd_rows_ok indices img d :
  Forall (λ i, i < length img) indices →
  ∃ img', iadd_rows indices img d = Ok img' ∧ length img' = length img ∧
          ∀ k, k ∉ indices → img' !! k = img !! k.
Proof.
  intros Hin. unfold iadd_rows.
  destruct (mapM_total (getitem img) indices) as [sel Hsel].
  { eapply Forall_impl; [done|]. intros i Hi. simpl.
    destruct (getitem_lt img i Hi) as (v & -> & _). by eexists. }
  ok_bind Hsel. eexists. split; [done|].
  split; [apply foldl_insert_length|].
  intros k Hk. apply foldl_insert_lookup_ne.
  intros ([i v] & -> & Hp)%list_elem_of_fmap. apply Hk.
  by apply elem_of_zip_l in Hp.
Qed.

Lemma iadd_disp_ok self indices disp x :
  coords_wf self x → length disp = nimages self →
  Forall (λ i, i < natoms self) indices →
  ∃ x', iadd_disp (nimages self) indices disp x = Ok x' ∧
        coords_wf self x' ∧ same_outside indices x x'.
Proof.
  intros [Hxl Hxr] Hdl Hin. unfold iadd_disp.
  set (n := nimages self) in *.
  set (interior := take n (drop 1 x)).
  assert (length interior = n) as Hil.
  { unfold interior. rewrite length_take, length_drop. lia. }
  assert (∀ i img, interior !! i = Some img → x !! (1 + i) = Some img) as Hint.
  { unfold interior. intros i img [Hi ?]%lookup_take_Some.
    by rewrite lookup_drop in Hi. }
  rewrite decide_True by lia.
  destruct (mapM_total (λ p, iadd_rows indices p.1 p.2) (zip interior disp))
    as [new Hnew].
  { apply Forall_forall. intros [img d] Himg%elem_of_zip_l. simpl.
    apply list_elem_of_lookup in Himg as [i Hi%Hint].
    pose proof (Forall_lookup_1 _ _ _ _ Hxr Hi) as Himgl. simpl in Himgl.
    destruct (iadd_rows_ok indices img d) as (img' & -> & _);
      [by rewrite Himgl | by eexists]. }
  ok_bind Hnew.
  pose proof (mapM_length _ _ _ Hnew) as Hnl.
  rewrite length_zip_with in Hnl.
  assert (∀ i img', new !! i = Some img' →
            ∃ img, x !! (1 + i) = Some img ∧ length img' = length img ∧
                   ∀ k, k ∉ indices → img' !! k = img !! k) as Hframe.
  { intros i img' Hi.
    destruct (mapM_lookup_r _ _ _ _ _ Hnew Hi) as ([img d] & Hz & Himg').
    apply lookup_zip_with_Some in Hz as (img0 & d0 & Heq & Himg & Hd).
    injection Heq as <- <-. simpl in Himg'.
    pose proof (Hint _ _ Himg) as Hx.
    pose proof (Forall_lookup_1 _ _ _ _ Hxr Hx) as Himgl. simpl in Himgl.
    destruct (iadd_rows_ok indices img d) as (img2 & Himg2 & ? & ?);
      [by rewrite Himgl|].
    rewrite Himg' in Himg2. simplify_eq. eauto. }
  set (x' := take 1 x ++ new ++ drop (n + 1) x).
  assert (x' !! 0 = x !! 0) as H0.
  { unfold x'. rewrite lookup_app_l by (rewrite length_take; lia).
    by rewrite lookup_take_lt by lia. }
  assert (∀ ni, 1 ≤ ni ≤ n → x' !! ni = new !! (ni - 1)) as Hmid.
  { intros ni Hni. unfold x'.
    rewrite lookup_app_r; rewrite length_take; [|lia].
    replace (1 `min` length x) with 1 by lia.
    by rewrite lookup_app_l by lia. }
  assert (∀ ni, n < ni → x' !! ni = x !! ni) as Hhigh.
  { intros ni Hni. unfold x'.
    rewrite lookup_app_r; rewrite length_take; [|lia].
    replace (1 `min` length x) with 1 by lia.
    rewrite lookup_app_r by lia. rewrite lookup_drop. f_equal. lia. }
  assert (length x' = n + 2) as Hx'l.
  { unfold x'. rewrite !length_app, length_take, length_drop. lia. }
  exists x'. split; [done|]. split; [split; [done|] |].
  - unfold x'. rewrite !Forall_app. split_and!.
    + by apply Forall_take.
    + apply Forall_forall. intros img' [i Hi]%list_elem_of_lookup.
      destruct (Hframe _ _ Hi) as (img & Hx & -> & _).
      by eapply (Forall_lookup_1 _ _ _ _ Hxr Hx).
    + by apply Forall_drop.
  - split; [done|]. split.
    + rewrite !last_lookup, Hx'l, Hxl.
      replace (pred (n + 2)) with (n + 1) by lia. apply Hhigh. lia.
    + intros ni k Hk. unfold coord_at.
      destruct (decide (ni = 0)) as [->|]; [by rewrite H0|].
      destruct (decide (n < ni)); [by rewrite Hhigh|].
      rewrite Hmid by lia.
      destruct (lookup_lt_is_Some_2 new (ni - 1)) as [img' Hi]; [lia|].
      destruct (Hframe _ _ Hi) as (img & Hx & _ & Hsame).
      replace (1 + (ni - 1)) with ni in Hx by lia.
      rewrite Hi, Hx. simpl. by apply Hsame.
Qed.

Lemma run_step_ok self a indices x old_funcs :
  solver_wf self → coords_wf self x →
  indices ≠ [] → Forall (λ i, i < natoms self) indices →
  ∃ x' funcs conv,
    run_step self a indices x old_funcs = Ok (x', funcs, conv) ∧
    coords_wf self x' ∧ same_outside indices x x'.
Proof.
  intros Hwf Hx Hne Hin. unfold run_step.
  destruct (get_funcs_and_forces_ok self x) as (funcs & tfs & Hff & Htl & Htr);
    [done..|].
  ok_bind Hff. cbv beta iota.
  destruct (get_total_forces_ok self x tfs (spring_const a))
    as (tot & Htot & Htotl & Htotr); [done..|].
  ok_bind Htot.
  destruct (mapM_total (λ img, mapM (getitem img) indices) tot) as [sel Hsel].
  { eapply Forall_impl; [done|]. intros img Himg. simpl in *.
    apply mapM_total. eapply Forall_impl; [done|]. intros i Hi. simpl in *.
    destruct (getitem_lt img i) as (v & -> & _); [lia | by eexists]. }
  ok_bind Hsel.
  pose proof (mapM_length _ _ _ Hsel) as Hsell.
  destruct (iadd_disp_ok self indices
    ((λ img : list (F * F * F),
        v3map (clip_disp (step_size a) (max_disp a)) <$> img) <$> sel) x)
    as (x' & Hx' & Hwf' & Hsame); [done| |done|].
  { rewrite length_fmap. lia. }
  ok_bind Hx'.
  assert (∃ y v, fabs <$> (sel ≫= flatten) = y :: v) as (y & v & ->).
  { pose proof (wf_nimages _ Hwf).
    destruct sel as [|s1 sel]; [simpl in *; lia|].
    destruct tot as [|t1 tot]; [done|].
    apply mapM_Ok in Hsel. apply Forall2_cons in Hsel as [Hs1 _].
    apply mapM_length in Hs1.
    destruct s1 as [|[[r1 r2] r3] s1]; [by destruct indices|].
    simpl. eauto. }
  simpl. eauto 10.
Qed.

Lemma run_loop_ok self a indices ns x old_funcs :
  solver_wf self → coords_wf self x →
  indices ≠ [] → Forall (λ i, i < natoms self) indices →
  ∃ x' log,
    run_loop self a indices ns x old_funcs = (Ok x', log) ∧
    coords_wf self x' ∧ same_outside indices x x'.
Proof.
  intros Hwf Hx Hne Hin. revert x old_funcs Hx.
  induction ns as [|n ns IH]; intros x old_funcs Hx; simpl.
  - eauto using same_outside_refl.
  - destruct (run_step_ok self a indices x old_funcs)
      as (x1 & funcs & conv & -> & Hx1 & Hs1); [done..|].
    destruct conv; [eauto|].
    destruct (IH x1 funcs Hx1) as (x' & log & -> & Hx' & Hs').
    do 2 eexists. split; [done|]. eauto using same_outside_trans.
Qed.

End Update.

Section Run.
Context {F : Type} `{!Float64 F}.
Context {Specie : Type} `{!EqDecision Specie} {Props : Type}.
Context {SpLike : Type} (get_el_sp : SpLike → result Specie).
Implicit Types (chain : list (Structure F Specie Props)).
Implicit Types (self : IDPPSolver F Specie Props).
Implicit Types (s : Structure F Specie Props) (latt : Lattice F).
Implicit Types (m : list (list F)) (c img d : list (F * F * F)).
Implicit Types (x : list (list (F * F * F))).
Implicit Types (a : run_args F SpLike).
Implicit Types (site : PeriodicSite F Specie Props).

Lemma elem_of_enumerate {A : Type} (l : list A) k y :
  (k, y) ∈ zip (seq 0 (length l)) l ↔ l !! k = Some y.
Proof.
  rewrite list_elem_of_lookup. split.
  - intros [i Hi]. apply lookup_zip_with_Some in Hi as (k' & y' & ? & Hk & Hy).
    simplify_eq. by apply lookup_seq in Hk as [-> _].
  - intros Hk. exists k. apply lookup_zip_with_Some. exists k, y.
    split_and!; [done| |done]. apply lookup_seq.
    split; [done|]. by eapply lookup_lt_Some.
Qed.

(** The sites that move: all of them without a filter, else those of the
    first structure whose species is in the filter. *)
Lemma species_indices_None self s0 :
  structures self !! 0 = Some s0 →
  species_indices get_el_sp self None = Ok (seq 0 (num_sites s0)).
Proof. intros H0%getitem_Ok. unfold species_indices. by ok_bind H0. Qed.

Lemma species_indices_Some self s0 sps indices :
  structures self !! 0 = Some s0 →
  species_indices get_el_sp self (Some sps) = Ok indices →
  ∃ sps', mapM get_el_sp sps = Ok sps' ∧ indices ≠ [] ∧
    ∀ k, k ∈ indices ↔ ∃ site, sites s0 !! k = Some site ∧ specie site ∈ sps'.
Proof.
  intros H0%getitem_Ok. unfold species_indices. intros H.
  apply bind_Ok in H as (sps' & Hsps & H). rewrite H0 in H.
  change (Ok s0 ≫= ?k) with (k s0) in H. cbv beta zeta in H.
  case_decide as Hlen; [done|]. inv_ok.
  exists sps'. split; [done|]. split.
  { intros E. by rewrite E in Hlen. }
  intros k. rewrite list_elem_of_fmap. split.
  - intros ([k' site] & -> & [Hsp Hin]%list_elem_of_filter).
    apply elem_of_enumerate in Hin. eauto.
  - intros (site & Hk & Hsp). exists (k, site). split; [done|].
    apply list_elem_of_filter. split; [done|]. by apply elem_of_enumerate.
Qed.

Lemma species_indices_bound self s0 sp indices :
  structures self !! 0 = Some s0 → 1 ≤ num_sites s0 →
  species_indices get_el_sp self sp = Ok indices →
  indices ≠ [] ∧ Forall (λ i, i < num_sites s0) indices.
Proof.
  intros H0 Hn H. destruct sp as [sps|].
  - destruct (species_indices_Some _ _ _ _ H0 H) as (sps' & _ & Hne & Hin).
    split; [done|]. apply Forall_forall. intros k (site & Hk & _)%Hin.
    by eapply lookup_lt_Some.
  - rewrite (species_indices_None _ _ H0) in H. inv_ok. split.
    + destruct (num_sites s0); [lia|done].
    + apply Forall_forall. intros k Hk%elem_of_seq. lia.
Qed.

(** A filter that matches no site of the first structure. *)
Lemma species_indices_empty self s0 sps sps' :
  structures self !! 0 = Some s0 →
  mapM get_el_sp sps = Ok sps' →
  Forall (λ site, specie site ∉ sps') (sites s0) →
  species_indices get_el_sp self (Some sps) = Raise ValueError.
Proof.
  intros H0%getitem_Ok Hsps Hall. unfold species_indices.
  ok_bind Hsps. ok_bind H0. cbv zeta.
  match goal with |- context [filter ?P ?l] =>
    assert (filter P l = []) as -> end; [|done].
  apply elem_of_nil_inv. intros [k site] [Hsp Hin]%list_elem_of_filter.
  apply elem_of_zip_r in Hin. simpl in Hsp.
  by eapply (proj1 (Forall_forall _ _) Hall site).
Qed.

Lemma idpp_structures_ok self s0 x :
  solver_wf self → coords_wf self x →
  ∃ chain',
    idpp_structures self s0 x = Ok chain' ∧
    length chain' = nimages self + 2 ∧
    chain' !! 0 = Some s0 ∧ last chain' = last (structures self) ∧
    ∀ ni, 1 ≤ ni ≤ nimages self →
      ∃ s c s', structures self !! ni = Some s ∧ x !! ni = Some c ∧
                chain' !! ni = Some s' ∧ sites s' = improved_sites s c.
Proof.
  intros Hwf Hx. unfold idpp_structures.
  set (f := λ ni : nat,
    s ← getitem (structures self) (ni + 1);
    c ← getitem x (ni + 1); new_structure s c).
  assert (∀ ni, ni < nimages self →
    ∃ s c s', structures self !! (ni + 1) = Some s ∧ x !! (ni + 1) = Some c ∧
              f ni = Ok s' ∧ sites s' = improved_sites s c) as Hf.
  { intros ni Hni. unfold f.
    destruct (getitem_lt (structures self) (ni + 1)) as (s & Hs & Hs').
    { rewrite (wf_structures _ Hwf). lia. }
    destruct (coords_wf_lookup _ _ (ni + 1) Hx) as (c & Hc & Hcl); [lia|].
    exists s, c. ok_bind Hs. apply getitem_Ok in Hc as Hc'. ok_bind Hc'.
    pose proof (Forall_lookup_1 _ _ _ _ (wf_sites _ Hwf) Hs') as Hsl.
    simpl in Hsl. unfold num_sites in Hsl.
    pose proof (wf_natoms _ Hwf).
    unfold new_structure, improved_sites.
    destruct (sites s) as [|site l] eqn:Es; [simpl in *; lia|].
    destruct c as [|v c]; [simpl in *; lia|].
    simpl. eexists. split_and!; try done. }
  destruct (mapM_total f (seq 0 (nimages self))) as [new Hnew].
  { apply Forall_forall. intros ni Hni%elem_of_seq.
    destruct (Hf ni) as (? & ? & ? & ? & ? & ? & ?); [lia | by eexists]. }
  ok_bind Hnew.
  pose proof (mapM_length _ _ _ Hnew) as Hnl. rewrite length_seq in Hnl.
  assert (∃ sl, last (structures self) = Some sl) as [sl Hsl].
  { apply last_is_Some. intros E. pose proof (wf_structures _ Hwf) as Hl.
    rewrite E in Hl. simpl in Hl. lia. }
  apply getitem_last_Ok in Hsl as Hsl'. ok_bind Hsl'.
  eexists. split; [done|]. split_and!.
  - rewrite !length_app. simpl. lia.
  - done.
  - by rewrite app_assoc, last_snoc.
  - intros ni Hni. destruct (Hf (ni - 1)) as (s & c & s' & Hs & Hc & Hs' & E);
      [lia|].
    replace (ni - 1 + 1) with ni in * by lia.
    exists s, c, s'. split_and!; try done.
    change ([s0] ++ new ++ [sl]) with (s0 :: (new ++ [sl])).
    destruct ni as [|ni]; [lia|]. simpl. 
    rewrite lookup_app_l by lia.
    destruct (mapM_lookup f (seq 0 (nimages self)) new ni ni Hnew)
      as (s'' & Hnew' & Hs''); [apply lookup_seq; lia|].
    replace (S ni - 1) with ni in Hs' by lia. congruence.
Qed.

End Run.

Section RunTheorems.
Context {F : Type} `{!Float64 F}.
Context {Specie : Type} `{!EqDecision Specie} {Props : Type}.
Context {SpLike : Type} (get_el_sp : SpLike → result Specie).
Implicit Types (chain : list (Structure F Specie Props)).
Implicit Types (self : IDPPSolver F Specie Props).
Implicit Types (s : Structure F Specie Props) (latt : Lattice F).
Implicit Types (m : list (list F)) (c img d : list (F * F * F)).
Implicit Types (x : list (list (F * F * F))).
Implicit Types (a : run_args F SpLike).
Implicit Types (site : PeriodicSite F Specie Props).

Lemma init_coords_wf self : solver_wf self → coords_wf self (init_coords self).
Proof. intros Hwf. split; apply Hwf. Qed.

(** What [run] returns once the sites that move are known. *)
Lemma run_unfold self a s0 indices :
  structures self !! 0 = Some s0 →
  species_indices get_el_sp self (species a) = Ok indices →
  run get_el_sp self a =
    match run_loop self a indices (seq 0 (maxiter a)) (init_coords self)
            (replicate (nimages self) f0) with
    | (Raise e, log) => (Raise e, log)
    | (Ok coords, log) => (idpp_structures self s0 coords, log)
    end.
Proof. intros H0%getitem_Ok Hi. unfold run. by rewrite H0, Hi. Qed.

Lemma solver_first_structure chain self :
  IDPPSolver_init chain = Ok self →
  structures self = chain ∧ ∃ s0, chain !! 0 = Some s0 ∧ natoms self = num_sites s0.
Proof.
  intros (s0 & sl & ic & H0 & _ & _ & _ & Hn & Hs & _)%IDPPSolver_init_inv.
  eauto.
Qed.

Lemma solver_indices chain self sp indices :
  wf_chain chain → IDPPSolver_init chain = Ok self →
  species_indices get_el_sp self sp = Ok indices →
  indices ≠ [] ∧ Forall (λ i, i < natoms self) indices.
Proof.
  intros Hchain Hinit Hi.
  pose proof (IDPPSolver_init_wf _ _ Hchain Hinit) as Hwf.
  destruct (solver_first_structure _ _ Hinit) as (Hs & s0 & H0 & Hn).
  rewrite Hn. eapply species_indices_bound; [by rewrite Hs| |done].
  rewrite <- Hn. apply Hwf.
Qed.

(** The run of a solver on a well-formed chain: the loop ends without an
    exception, the coordinates keep their shape and only the sites that are
    allowed to move have moved; the chain is built from them. *)
Lemma run_ok chain self a indices :
  wf_chain chain → IDPPSolver_init chain = Ok self →
  species_indices get_el_sp self (species a) = Ok indices →
  ∃ s0 x log chain',
    chain !! 0 = Some s0 ∧
    run_loop self a indices (seq 0 (maxiter a)) (init_coords self)
      (replicate (nimages self) f0) = (Ok x, log) ∧
    coords_wf self x ∧ same_outside indices (init_coords self) x ∧
    idpp_structures self s0 x = Ok chain' ∧
    run get_el_sp self a = (Ok chain', log).
Proof.
  intros Hchain Hinit Hi.
  pose proof (IDPPSolver_init_wf _ _ Hchain Hinit) as Hwf.
  destruct (solver_first_structure _ _ Hinit) as (Hs & s0 & H0 & Hn).
  destruct (solver_indices _ _ _ _ Hchain Hinit Hi) as [Hne Hin].
  destruct (run_loop_ok self a indices (seq 0 (maxiter a)) (init_coords self)
              (replicate (nimages self) f0))
    as (x & log & Hloop & Hx & Hsame); [done|by apply init_coords_wf|done..|].
  destruct (idpp_structures_ok self s0 x) as (chain' & Hc & _); [done..|].
  exists s0, x, log, chain'. split_and!; try done.
  rewrite (run_unfold _ _ s0 indices), Hloop, Hc; [done| by rewrite Hs |done].
Qed.

Lemma improved_sites_lookup s c k site v :
  sites s !! k = Some site → c !! k = Some v →
  improved_sites s c !! k =
    Some (mkPeriodicSite (species_and_occu site) v (lattice site) true
            (properties site)).
Proof.
  intros Hs Hc. unfold improved_sites. apply lookup_zip_with_Some. eauto.
Qed.

Lemma improved_sites_fmap {B : Type} (g : PeriodicSite F Specie Props → B)
    s c :
  (∀ site v, g (mkPeriodicSite (species_and_occu site) v (lattice site) true
                  (properties site)) = g site) →
  length c = length (sites s) →
  g <$> improved_sites s c = g <$> sites s.
Proof.
  intros Hg. unfold improved_sites. generalize (sites s). clear s.
  induction c as [|v c IH]; intros [|site l] Hl; simplify_eq/=; [done|].
  by rewrite Hg, IH.
Qed.

(** The sites of an interior configuration returned by [run] have the
    species, the properties and the lattice of the sites of the input. *)
Lemma run_interior_sites chain self a indices chain' :
  wf_chain chain → IDPPSolver_init chain = Ok self →
  species_indices get_el_sp self (species a) = Ok indices →
  (run get_el_sp self a).1 = Ok chain' →
  length chain = nimages self + 2 ∧
  ∀ ni s, 1 ≤ ni ≤ nimages self → chain !! ni = Some s →
    ∃ s', chain' !! ni = Some s' ∧
      species_and_occu <$> sites s' = species_and_occu <$> sites s ∧
      properties <$> sites s' = properties <$> sites s ∧
      lattice <$> sites s' = lattice <$> sites s.
Proof.
  intros Hchain Hinit Hi Hrun.
  pose proof (IDPPSolver_init_wf _ _ Hchain Hinit) as Hwf.
  destruct (run_ok _ _ _ _ Hchain Hinit Hi)
    as (s0 & x & log & chain2 & H0 & _ & Hx & _ & Hc & Hrun2).
  rewrite Hrun2 in Hrun. simpl in Hrun. injection Hrun as ->.
  destruct (solver_first_structure _ _ Hinit) as (Hs & _).
  destruct (idpp_structures_ok self s0 x Hwf Hx)
    as (chain2 & Hc2 & _ & _ & _ & Hmid).
  rewrite Hc in Hc2. injection Hc2 as <-.
  rewrite Hs in *. split; [rewrite <- Hs; apply Hwf|].
  intros ni s Hni Hsni.
  destruct (Hmid ni Hni) as (s1 & c & s' & Hs1 & Hc1 & Hs' & Esites).
  assert (s1 = s) as -> by congruence.
  exists s'. split; [done|]. rewrite Esites.
  assert (length c = length (sites s)) as Hl.
  { pose proof (Forall_lookup_1 _ _ _ _ (wf_sites _ Hwf)
      (eq_ind_r (λ l, l !! ni = Some s) Hsni Hs)) as H1.
    pose proof (Forall_lookup_1 _ _ _ _ (proj2 Hx) Hc1) as H2.
    simpl in *. unfold num_sites in H1. lia. }
  split_and!; by apply improved_sites_fmap.
Qed.

(** C2: [run] returns a chain as long as the one it was given; its first and
    last configurations are those of the input, and the sites of an interior
    configuration have the species, the properties and the lattice of the
    sites of the input. *)
Theorem run_returns_chain chain self a indices :
  wf_chain chain → IDPPSolver_init chain = Ok self →
  species_indices get_el_sp self (species a) = Ok indices →
  ∃ chain',
    (run get_el_sp self a).1 = Ok chain' ∧
    length chain' = nimages self + 2 ∧ length chain = nimages self + 2 ∧
    chain' !! 0 = chain !! 0 ∧ last chain' = last chain ∧
    ∀ ni s, 1 ≤ ni ≤ nimages self → chain !! ni = Some s →
      ∃ s', chain' !! ni = Some s' ∧
        species_and_occu <$> sites s' = species_and_occu <$> sites s ∧
        properties <$> sites s' = properties <$> sites s ∧
        lattice <$> sites s' = lattice <$> sites s.
Proof.
  intros Hchain Hinit Hi.
  pose proof (IDPPSolver_init_wf _ _ Hchain Hinit) as Hwf.
  destruct (run_ok _ _ _ _ Hchain Hinit Hi)
    as (s0 & x & log & chain' & H0 & _ & Hx & _ & Hc & Hrun).
  destruct (solver_first_structure _ _ Hinit) as (Hs & _).
  destruct (idpp_structures_ok self s0 x Hwf Hx)
    as (chain2 & Hc2 & Hlen & Hfirst & Hlast & _).
  rewrite Hc in Hc2. injection Hc2 as <-.
  assert ((run get_el_sp self a).1 = Ok chain') as Hrun1 by by rewrite Hrun.
  destruct (run_interior_sites _ _ _ _ _ Hchain Hinit Hi Hrun1)
    as [Hlen0 Hmid].
  exists chain'. rewrite Hs in *. split_and!; try done. congruence.
Qed.

Lemma species_indices_total self s0 sps sps' :
  structures self !! 0 = Some s0 →
  mapM get_el_sp sps = Ok sps' →
  Exists (λ site, specie site ∈ sps') (sites s0) →
  ∃ indices, species_indices get_el_sp self (Some sps) = Ok indices.
Proof.
  intros H0%getitem_Ok Hsps Hex. unfold species_indices.
  ok_bind Hsps. ok_bind H0. cbv zeta.
  case_decide as Hlen; [|by eexists]. exfalso.
  apply Exists_exists in Hex as (site & [k Hk]%list_elem_of_lookup & Hsp).
  rewrite length_fmap in Hlen. apply nil_length_inv in Hlen.
  eapply (filter_nil_not_elem_of _ _ (k, site)); [exact Hlen|done|].
  by apply elem_of_enumerate.
Qed.

Lemma loop_state_same_outside self a indices j x0 old x f :
  solver_wf self → coords_wf self x0 →
  indices ≠ [] → Forall (λ i, i < natoms self) indices →
  loop_state self a indices j x0 old = Ok (x, f) →
  coords_wf self x ∧ same_outside indices x0 x.
Proof.
  intros Hwf Hx0 Hne Hin. revert x0 old Hx0.
  induction j as [|j IH]; intros x0 old Hx0 Hj; simpl in Hj.
  - inv_ok. split; [done|apply same_outside_refl].
  - apply bind_Ok in Hj as ([[x1 f1] b] & Hstep & Hj). simpl in Hj.
    destruct (run_step_ok self a indices x0 old)
      as (x1' & f1' & b' & Hstep' & Hx1 & Hs1); [done..|].
    rewrite Hstep in Hstep'. simplify_eq.
    destruct (IH _ _ Hx1 Hj) as [Hx Hs]. split; [done|].
    by eapply same_outside_trans.
Qed.

(** With a species filter that matches a site, the run returns, and a site
    whose species in the first structure is not in the filter has in every
    interior configuration returned the Cartesian coordinates stored at
    construction; it has them after any number of iterations. *)
Lemma unfiltered_sites_frame chain self a sps sps' s0 :
  wf_chain chain → IDPPSolver_init chain = Ok self →
  species a = Some sps → mapM get_el_sp sps = Ok sps' →
  chain !! 0 = Some s0 →
  Exists (λ site, specie site ∈ sps') (sites s0) →
  ∃ chain' indices,
    (run get_el_sp self a).1 = Ok chain' ∧
    species_indices get_el_sp self (species a) = Ok indices ∧
    ∀ ni k site0, 1 ≤ ni ≤ nimages self →
      sites s0 !! k = Some site0 → specie site0 ∉ sps' →
      (∃ s' site', chain' !! ni = Some s' ∧ sites s' !! k = Some site' ∧
         Some (coords site') = coord_at (init_coords self) ni k) ∧
      (∀ j x f,
         loop_state self a indices j (init_coords self)
           (replicate (nimages self) f0) = Ok (x, f) →
         coord_at x ni k = coord_at (init_coords self) ni k).
Proof.
  intros Hchain Hinit Hsp Hsps H0 Hex.
  pose proof (IDPPSolver_init_wf _ _ Hchain Hinit) as Hwf.
  destruct (solver_first_structure _ _ Hinit) as (Hs & s0' & H0' & Hn).
  assert (s0' = s0) as -> by congruence.
  destruct (species_indices_total self s0 sps sps') as [indices Hi];
    [by rewrite Hs|done..|].
  rewrite <- Hsp in Hi.
  destruct (solver_indices _ _ _ _ Hchain Hinit Hi) as [Hne Hin].
  destruct (run_ok _ _ _ _ Hchain Hinit Hi)
    as (s0' & x & log & chain' & H0'' & _ & Hx & Hsame & Hc & Hrun).
  exists chain', indices. rewrite Hrun. split_and!; try done.
  intros ni k site0 Hni Hk Hnotin.
  assert (k ∉ indices) as Hkout.
  { rewrite Hsp in Hi.
    destruct (species_indices_Some get_el_sp self s0 sps indices)
      as (sps2 & Hsps2 & _ & Hmem);
      [by rewrite Hs|done|].
    rewrite Hsps in Hsps2. injection Hsps2 as <-.
    intros (site & Hk' & Hsp')%Hmem. congruence. }
  split.
  - destruct (idpp_structures_ok self s0' x Hwf Hx)
      as (chain2 & Hc2 & _ & _ & _ & Hmid).
    rewrite Hc in Hc2. injection Hc2 as <-.
    destruct (Hmid ni Hni) as (s1 & c & s' & Hs1 & Hc1 & Hs' & Esites).
    destruct Hsame as (_ & _ & Hsame). specialize (Hsame ni k Hkout).
    unfold coord_at in Hsame at 1. rewrite Hc1 in Hsame. simpl in Hsame.
    pose proof (Forall_lookup_1 _ _ _ _ (wf_sites _ Hwf) Hs1) as H1.
    pose proof (Forall_lookup_1 _ _ _ _ (proj2 Hx) Hc1) as H2.
    simpl in *. unfold num_sites in *.
    apply lookup_lt_Some in Hk as Hklt.
    destruct (lookup_lt_is_Some_2 (sites s1) k) as [site1 Hsite1]; [lia|].
    destruct (lookup_lt_is_Some_2 c k) as [v Hv]; [lia|].
    exists s'. eexists. split; [done|]. rewrite Esites.
    split; [by eapply improved_sites_lookup|].
    simpl. by rewrite <- Hsame, Hv.
  - intros j xj f Hj.
    destruct (loop_state_same_outside _ _ _ _ _ _ _ _ Hwf
                (init_coords_wf _ Hwf) Hne Hin Hj) as (_ & _ & _ & Hsj).
    by apply Hsj.
Qed.

(** When the configurations of the chain have the same species, site by
    site: a site whose species is not in the filter has in every interior
    configuration returned the Cartesian coordinates stored at
    construction; it is not one of the sites that move, and has these
    coordinates after any number of iterations. *)
Lemma unfiltered_species_frame chain self a sps sps' s0 :
  wf_chain chain → IDPPSolver_init chain = Ok self →
  Forall (λ s, specie <$> sites s = specie <$> sites s0) chain →
  species a = Some sps → mapM get_el_sp sps = Ok sps' →
  chain !! 0 = Some s0 →
  Exists (λ site, specie site ∈ sps') (sites s0) →
  ∃ chain' indices,
    (run get_el_sp self a).1 = Ok chain' ∧
    species_indices get_el_sp self (species a) = Ok indices ∧
    ∀ ni, 1 ≤ ni ≤ nimages self →
      ∃ s', chain' !! ni = Some s' ∧
        ∀ k site', sites s' !! k = Some site' → specie site' ∉ sps' →
          (k ∉ indices) ∧
          Some (coords site') = coord_at (init_coords self) ni k ∧
          ∀ j x f,
            loop_state self a indices j (init_coords self)
              (replicate (nimages self) f0) = Ok (x, f) →
            coord_at x ni k = coord_at (init_coords self) ni k.
Proof.
  intros Hchain Hinit Huni Hsp Hsps H0 Hex.
  destruct (unfiltered_sites_frame _ _ _ _ _ _ Hchain Hinit Hsp Hsps H0 Hex)
    as (chain' & indices & Hrun & Hi & Hframe).
  destruct (run_interior_sites _ _ _ _ _ Hchain Hinit Hi Hrun)
    as [Hlen Hmid].
  exists chain', indices. split_and!; try done.
  intros ni Hni.
  destruct (lookup_lt_is_Some_2 chain ni) as [s Hs]; [lia|].
  destruct (Hmid ni s Hni Hs) as (s' & Hs' & Hspecies & _).
  exists s'. split; [done|]. intros k site' Hk Hnotin.
  pose proof (Forall_lookup_1 _ _ _ _ Huni Hs) as Hs0. simpl in Hs0.
  assert ((specie <$> sites s0) !! k = Some (specie site')) as Hk0.
  { rewrite <- Hs0. change specie with (@species_and_occu F Specie Props).
    rewrite <- Hspecies. by rewrite list_lookup_fmap, Hk. }
  rewrite list_lookup_fmap in Hk0.
  destruct (sites s0 !! k) as [site0|] eqn:Hsite0; simplify_eq/=.
  destruct (Hframe ni k site0 Hni Hsite0) as ((s2 & site2 & Hs2 & Hk2 & Hc) & Hj).
  { by rewrite Hk0. }
  rewrite Hs' in Hs2. injection Hs2 as <-.
  rewrite Hk in Hk2. injection Hk2 as <-.
  split_and!; try done.
  rewrite Hsp in Hi.
  destruct (solver_first_structure _ _ Hinit) as (Hst & _).
  destruct (species_indices_Some get_el_sp self s0 sps indices)
    as (sps2 & Hsps2 & _ & Hmem); [by rewrite Hst|done|].
  rewrite Hsps in Hsps2. injection Hsps2 as <-.
  intros (site & Hk' & Hsp')%Hmem. rewrite Hsite0 in Hk'.
  injection Hk' as <-. by rewrite Hk0 in Hsp'.
Qed.

(** C3, as the code has it: with a species filter that matches a site of
    the first structure, the run returns.  The sites that move are those
    at the indices of the sites of the first structure whose species is in
    the filter, in every image: a site at another index has in every
    interior configuration returned the Cartesian coordinates stored at
    construction, and has them after any number of iterations.  When the
    configurations of the chain have the same species, site by site, these
    are the sites whose species is not in the filter. *)
Theorem unfiltered_sites_keep_init_coords chain self a sps sps' s0 :
  wf_chain chain → IDPPSolver_init chain = Ok self →
  species a = Some sps → mapM get_el_sp sps = Ok sps' →
  chain !! 0 = Some s0 →
  Exists (λ site, specie site ∈ sps') (sites s0) →
  ∃ chain' indices,
    (run get_el_sp self a).1 = Ok chain' ∧
    species_indices get_el_sp self (species a) = Ok indices ∧
    (∀ k, k ∈ indices ↔
       ∃ site0, sites s0 !! k = Some site0 ∧ specie site0 ∈ sps') ∧
    (∀ ni k site0, 1 ≤ ni ≤ nimages self →
       sites s0 !! k = Some site0 → specie site0 ∉ sps' →
       (∃ s' site', chain' !! ni = Some s' ∧ sites s' !! k = Some site' ∧
          Some (coords site') = coord_at (init_coords self) ni k) ∧
       (∀ j x f,
          loop_state self a indices j (init_coords self)
            (replicate (nimages self) f0) = Ok (x, f) →
          coord_at x ni k = coord_at (init_coords self) ni k)) ∧
    (Forall (λ s, specie <$> sites s = specie <$> sites s0) chain →
     ∀ ni, 1 ≤ ni ≤ nimages self →
       ∃ s', chain' !! ni = Some s' ∧
         ∀ k site', sites s' !! k = Some site' → specie site' ∉ sps' →
           (k ∉ indices) ∧
           Some (coords site') = coord_at (init_coords self) ni k ∧
           ∀ j x f,
             loop_state self a indices j (init_coords self)
               (replicate (nimages self) f0) = Ok (x, f) →
             coord_at x ni k = coord_at (init_coords self) ni k).
Proof.
  intros Hchain Hinit Hsp Hsps H0 Hex.
  destruct (unfiltered_sites_frame _ _ _ _ _ _ Hchain Hinit Hsp Hsps H0 Hex)
    as (chain' & indices & Hrun & Hi & Hframe).
  exists chain', indices. split; [done|]. split; [done|]. split.
  { destruct (solver_first_structure _ _ Hinit) as (Hst & _).
    rewrite Hsp in Hi.
    destruct (species_indices_Some get_el_sp self s0 sps indices)
      as (sps2 & Hsps2 & _ & Hmem); [by rewrite Hst|done|].
    rewrite Hsps in Hsps2. by injection Hsps2 as <-. }
  split; [exact Hframe|]. intros Huni.
  destruct (unfiltered_species_frame _ _ _ _ _ _ Hchain Hinit Huni Hsp Hsps
              H0 Hex) as (chain2 & indices2 & Hrun2 & Hi2 & Hspecies).
  rewrite Hrun in Hrun2. injection Hrun2 as <-.
  rewrite Hi in Hi2. by injection Hi2 as <-.
Qed.

(** C5: with a species filter that matches no site of the first structure,
    [run] raises [ValueError] and no iteration of the loop has started. *)
Theorem run_species_not_in_system chain self a sps sps' s0 :
  IDPPSolver_init chain = Ok self →
  species a = Some sps → mapM get_el_sp sps = Ok sps' →
  chain !! 0 = Some s0 →
  Forall (λ site, specie site ∉ sps') (sites s0) →
  run get_el_sp self a = (Raise ValueError, []).
Proof.
  intros Hinit Hsp Hsps H0 Hall.
  destruct (solver_first_structure _ _ Hinit) as (Hs & _).
  rewrite <- Hs in H0. unfold run.
  apply getitem_Ok in H0 as H0'. rewrite H0', Hsp.
  by erewrite species_indices_empty.
Qed.

Lemma converges_at_S self a indices x old x1 f1 b k :
  run_step self a indices x old = Ok (x1, f1, b) →
  converges_at self a indices x1 f1 k →
  converges_at self a indices x old (S k).
Proof.
  intros Hstep (c & f & c' & f' & Hk & Hc). exists c, f, c', f'.
  split; [|done]. simpl. by ok_bind Hstep.
Qed.

Lemma run_loop_no_convergence self a indices ns x old :
  solver_wf self → coords_wf self x →
  indices ≠ [] → Forall (λ i, i < natoms self) indices →
  (∀ k, k < length ns → ¬ converges_at self a indices x old k) →
  ∃ x' f,
    run_loop self a indices ns x old =
      (Ok x', (Iteration <$> ns) ++ [UserWarning convergence_warning]) ∧
    loop_state self a indices (length ns) x old = Ok (x', f) ∧
    coords_wf self x'.
Proof.
  intros Hwf Hx Hne Hin. revert x old Hx.
  induction ns as [|n ns IH]; intros x old Hx Hnever; simpl.
  - eauto.
  - destruct (run_step_ok self a indices x old)
      as (x1 & f1 & b & Hstep & Hx1 & _); [done..|].
    rewrite Hstep. destruct b.
    { destruct (Hnever 0); [simpl; lia|]. exists x, old, x1, f1. by split. }
    destruct (IH x1 f1 Hx1) as (x' & f' & -> & Hls & Hx').
    { intros k Hk Hconv. apply (Hnever (S k)); [simpl; lia|].
      by eapply converges_at_S. }
    exists x', f'. split_and!; try done.
Qed.

(** The loop body never raises on a solver of a well-formed chain: the
    state after any number of iterations exists and keeps its shape. *)
Lemma loop_state_ok self a indices k x old :
  solver_wf self → coords_wf self x →
  indices ≠ [] → Forall (λ i, i < natoms self) indices →
  ∃ x' f, loop_state self a indices k x old = Ok (x', f) ∧ coords_wf self x'.
Proof.
  intros Hwf Hx Hne Hin. revert x old Hx.
  induction k as [|k IH]; intros x old Hx; simpl; [eauto|].
  destruct (run_step_ok self a indices x old)
    as (x1 & f1 & b & Hstep & Hx1 & _); [done..|].
  rewrite Hstep. simpl. by apply IH.
Qed.

(** C6: when the convergence test holds at none of the [maxiter] iterations
    of a run that has reached the loop, [run] does not raise: each of the
    [maxiter] iterations is executed and its test is false, the warning is
    emitted after them, and [run] returns the chain of [nimages + 2]
    configurations built from the coordinates of the last iteration. *)
Theorem run_without_convergence chain self a indices :
  wf_chain chain → IDPPSolver_init chain = Ok self →
  species_indices get_el_sp self (species a) = Ok indices →
  (∀ k, k < maxiter a →
     ¬ converges_at self a indices (init_coords self)
         (replicate (nimages self) f0) k) →
  ∃ chain' s0 coords funcs,
    run get_el_sp self a =
      (Ok chain', (Iteration <$> seq 0 (maxiter a))
                    ++ [UserWarning convergence_warning]) ∧
    length chain' = nimages self + 2 ∧
    loop_state self a indices (maxiter a) (init_coords self)
      (replicate (nimages self) f0) = Ok (coords, funcs) ∧
    chain !! 0 = Some s0 ∧
    idpp_structures self s0 coords = Ok chain' ∧
    ∀ k, k < maxiter a →
      ∃ x f x' f',
        loop_state self a indices k (init_coords self)
          (replicate (nimages self) f0) = Ok (x, f) ∧
        run_step self a indices x f = Ok (x', f', false).
Proof.
  intros Hchain Hinit Hi Hnever.
  pose proof (IDPPSolver_init_wf _ _ Hchain Hinit) as Hwf.
  destruct (solver_first_structure _ _ Hinit) as (Hs & s0 & H0 & Hn).
  destruct (solver_indices _ _ _ _ Hchain Hinit Hi) as [Hne Hin].
  destruct (run_loop_no_convergence self a indices (seq 0 (maxiter a))
              (init_coords self) (replicate (nimages self) f0))
    as (x & f & Hloop & Hls & Hx);
    [done|by apply init_coords_wf|done..| |].
  { by rewrite length_seq. }
  rewrite length_seq in Hls.
  destruct (idpp_structures_ok self s0 x Hwf Hx) as (chain' & Hc & Hlen & _).
  exists chain', s0, x, f. split_and!; try done.
  - rewrite (run_unfold _ _ s0 indices), Hloop, Hc; [done|by rewrite Hs|done].
  - intros k Hk.
    destruct (loop_state_ok self a indices k (init_coords self)
                (replicate (nimages self) f0))
      as (xk & fk & Hxk & Hcw); [done|by apply init_coords_wf|done..|].
    destruct (run_step_ok self a indices xk fk)
      as (x' & f' & b & Hstep & _); [done..|].
    destruct b; [|by exists xk, fk, x', f'].
    destruct (Hnever k Hk). by exists xk, fk, x', f'.
Qed.

End RunTheorems.

(** ** The clipped displacement, in exact arithmetic *)

Lemma clip_disp_ideal (step maxd force : R) :
  clip_disp (Some step) (Some maxd) (Some force) =
    Some (if Rlt_dec maxd (Rabs (step * force))
          then (if Rlt_dec (step * force) 0 then -1
                else if Rlt_dec 0 (step * force) then 1 else 0) * maxd
          else step * force)%R.
Proof.
  unfold clip_disp, fgtb. simpl.
  destruct (Rlt_dec maxd (Rabs (step * force))); done.
Qed.

(** The clipped displacement on numbers: [d = step_size * force] when
    [|d| <= max_disp] and [sign(d) * max_disp] otherwise.  For
    [max_disp >= 0] this is [d] clipped to [[-max_disp, max_disp]]; when
    moreover [step_size > 0] and [|d|] exceeds [max_disp], it is [max_disp]
    in magnitude with the sign of the force. *)
Lemma clip_disp_real (step maxd force : R) :
  ∃ d : R,
    clip_disp (Some step) (Some maxd) (Some force) = Some d ∧
    (Rabs (step * force) <= maxd → d = step * force)%R ∧
    (maxd < Rabs (step * force) →
       (0 < step * force → d = maxd) ∧ (step * force < 0 → d = - maxd))%R ∧
    (0 <= maxd → d = Rmax (- maxd) (Rmin maxd (step * force)))%R ∧
    (0 < step → 0 <= maxd → maxd < Rabs (step * force) →
       Rabs d = maxd ∧ (0 < force → d = maxd) ∧ (force < 0 → d = - maxd))%R.
Proof.
  eexists. split; [apply clip_disp_ideal|].
  unfold Rmax, Rmin.
  destruct (Rlt_dec maxd (Rabs (step * force))) as [Hgt|Hle];
    revert Hgt || revert Hle; unfold Rabs;
    repeat (destruct (Rcase_abs _) || destruct (Rlt_dec _ _)
            || destruct (Rle_dec _ _)); intros;
    repeat split; intros; try lra; try nra.
Qed.

(** The displacement has the sign of [step_size * force], not always the one
    of the force: with a negative step size, a positive force component
    gives a negative displacement. *)
Lemma displacement_against_force :
  clip_disp (Some (-1)%R) (Some (/ 20)%R) (Some 1%R) = Some (- / 20)%R ∧
  (0 < 1)%R ∧ (- / 20 < 0)%R.
Proof.
  split; [|lra]. rewrite clip_disp_ideal. f_equal.
  unfold Rabs.
  repeat (destruct (Rcase_abs _) || destruct (Rlt_dec _ _)); lra.
Qed.

(** ** The unit vector and the tangent, in exact arithmetic *)

Lemma foldl_Rplus (a : R) (l : list R) :
  foldl Rplus a l = (a + foldl Rplus 0 l)%R.
Proof.
  revert a. induction l as [|r l IH]; intros a; simpl; [lra|].
  rewrite (IH (a + r)%R), (IH (0 + r)%R). lra.
Qed.

Lemma sumsq_cons (r : R) (rs : list R) :
  sumsq (r :: rs) = (r * r + sumsq rs)%R.
Proof. unfold sumsq. simpl. rewrite foldl_Rplus. lra. Qed.

Lemma sumsq_nonneg (rs : list R) : (0 <= sumsq rs)%R.
Proof.
  induction rs as [|r rs IH]; [unfold sumsq; simpl; lra|].
  rewrite sumsq_cons. nra.
Qed.

Lemma sumsq_zero (rs : list R) :
  sumsq rs = 0%R ↔ rs = replicate (length rs) 0%R.
Proof.
  induction rs as [|r rs IH]; [done|]. rewrite sumsq_cons. simpl.
  pose proof (sumsq_nonneg rs). split.
  - intros H0. assert (r = 0%R) as -> by nra.
    f_equal. apply IH. nra.
  - intros [= -> Hrs%IH]. lra.
Qed.

Lemma np_dot_numbers (rs : list R) :
  np_dot (numbers rs) (numbers rs) = Some (sumsq rs).
Proof.
  unfold np_dot, np_sum, sumsq, numbers, f0. simpl.
  generalize 0%R. induction rs as [|r rs IH]; intros a; simpl; [done|].
  apply IH.
Qed.

Lemma norm_numbers (rs : list R) :
  norm (numbers rs) = Some (R_sqrt.sqrt (sumsq rs)).
Proof.
  unfold norm. rewrite np_dot_numbers. simpl.
  pose proof (sumsq_nonneg rs). destruct (Rlt_dec _ _); [lra|done].
Qed.

Lemma norm_numbers_zero (rs : list R) :
  R_sqrt.sqrt (sumsq rs) = 0%R ↔ rs = replicate (length rs) 0%R.
Proof.
  rewrite <- sumsq_zero. split.
  - apply sqrt_eq_0, sumsq_nonneg.
  - intros ->. apply sqrt_0.
Qed.

(** The unit vector of a vector of numbers: [nan] in every component for
    the zero vector, whose norm is 0, and numbers otherwise. *)
Lemma get_unit_vector_zero (n : nat) :
  get_unit_vector (numbers (replicate n 0%R)) = nans n.
Proof.
  unfold get_unit_vector. rewrite norm_numbers.
  assert (R_sqrt.sqrt (sumsq (replicate n 0%R)) = 0%R) as ->.
  { apply norm_numbers_zero. by rewrite length_replicate. }
  unfold numbers, nans.
  induction n as [|n IH]; [done|].
  change ((λ c : xreal, fdiv c (Some 0%R)) <$> (Some <$> replicate (S n) 0%R))
    with (xdiv (Some 0%R) (Some 0%R)
            :: ((λ c : xreal, fdiv c (Some 0%R)) <$> (Some <$> replicate n 0%R))).
  rewrite IH. simpl. by destruct (Req_dec_T _ _).
Qed.

Lemma get_unit_vector_numbers (rs : list R) :
  rs ≠ replicate (length rs) 0%R →
  get_unit_vector (numbers rs) = numbers (unit_R rs).
Proof.
  intros Hne. unfold get_unit_vector, unit_R. rewrite norm_numbers.
  assert (R_sqrt.sqrt (sumsq rs) ≠ 0%R) as Hn by by rewrite norm_numbers_zero.
  unfold numbers. rewrite <- !list_fmap_compose.
  apply list_fmap_ext. intros _ r _. simpl.
  by destruct (Req_dec_T _ _).
Qed.

Lemma fdiv_nans (z : xreal) (n : nat) :
  (λ c : xreal, fdiv c z) <$> nans n = nans n.
Proof. unfold nans. induction n as [|n IH]; simpl; [done|]. by f_equal. Qed.

Lemma get_unit_vector_nans (n : nat) : get_unit_vector (nans n) = nans n.
Proof. apply fdiv_nans.
Qed.

Lemma vadd_numbers (rs1 rs2 : list R) :
  vadd (numbers rs1) (numbers rs2) = numbers (zip_with Rplus rs1 rs2).
Proof.
  unfold vadd, numbers. revert rs2.
  induction rs1 as [|r rs1 IH]; intros [|r' rs2]; simpl; try done.
  by rewrite IH.
Qed.

Lemma vadd_nans_l (n : nat) (v : list xreal) :
  length v = n → vadd (nans n) v = nans n.
Proof.
  unfold vadd, nans. revert v.
  induction n as [|n IH]; intros [|y v] Hv; simplify_eq/=; [done|].
  by rewrite IH.
Qed.

Lemma vadd_nans_r (n : nat) (v : list xreal) :
  length v = n → vadd v (nans n) = nans n.
Proof.
  unfold vadd, nans. revert v.
  induction n as [|n IH]; intros [|y v] Hv; simplify_eq/=; [done|].
  rewrite IH by done. by destruct y.
Qed.

Lemma length_unit_R (rs : list R) : length (unit_R rs) = length rs.
Proof. apply length_fmap. Qed.

Lemma length_numbers (rs : list R) : length (numbers rs) = length rs.
Proof. apply length_fmap. Qed.

Lemma get_unit_vector_cases (rs : list R) :
  (rs = replicate (length rs) 0%R ∧
   get_unit_vector (numbers rs) = nans (length rs)) ∨
  (rs ≠ replicate (length rs) 0%R ∧ R_sqrt.sqrt (sumsq rs) ≠ 0%R ∧
   get_unit_vector (numbers rs) = numbers (unit_R rs)).
Proof.
  destruct (Req_dec_T (R_sqrt.sqrt (sumsq rs)) 0) as [H0|H0].
  - left. apply norm_numbers_zero in H0 as H0'. split; [done|].
    rewrite H0' at 1. apply get_unit_vector_zero.
  - right. assert (rs ≠ replicate (length rs) 0%R) as Hne.
    { by rewrite <- norm_numbers_zero. }
    split_and!; try done. by apply get_unit_vector_numbers.
Qed.

Lemma local_tangent_undefined (rs1 rs2 : list R) :
  length rs2 = length rs1 →
  rs1 = replicate (length rs1) 0%R ∨ rs2 = replicate (length rs1) 0%R ∨
    zip_with Rplus (unit_R rs1) (unit_R rs2) = replicate (length rs1) 0%R →
  local_tangent (numbers rs1) (numbers rs2) = nans (length rs1).
Proof.
  intros Hlen Hzero. unfold local_tangent.
  destruct (get_unit_vector_cases rs1) as [[_ ->]|(Hne1 & _ & ->)].
  { rewrite vadd_nans_l; [apply get_unit_vector_nans|].
    by rewrite length_get_unit_vector, length_numbers. }
  destruct (get_unit_vector_cases rs2) as [[_ ->]|(Hne2 & _ & ->)].
  { rewrite Hlen, vadd_nans_r; [apply get_unit_vector_nans|].
    by rewrite length_numbers, length_unit_R. }
  destruct Hzero as [?|[?|Hs]]; [done|congruence|].
  rewrite vadd_numbers, Hs. apply get_unit_vector_zero.
Qed.

Lemma local_tangent_defined (rs1 rs2 : list R) :
  length rs2 = length rs1 →
  rs1 ≠ replicate (length rs1) 0%R → rs2 ≠ replicate (length rs1) 0%R →
  zip_with Rplus (unit_R rs1) (unit_R rs2) ≠ replicate (length rs1) 0%R →
  R_sqrt.sqrt (sumsq rs1) ≠ 0%R ∧ R_sqrt.sqrt (sumsq rs2) ≠ 0%R ∧
  R_sqrt.sqrt (sumsq (zip_with Rplus (unit_R rs1) (unit_R rs2))) ≠ 0%R ∧
  local_tangent (numbers rs1) (numbers rs2) =
    numbers (unit_R (zip_with Rplus (unit_R rs1) (unit_R rs2))).
Proof.
  intros Hlen Hne1 Hne2 Hs. unfold local_tangent.
  destruct (get_unit_vector_cases rs1) as [[? _]|(_ & Hn1 & ->)]; [done|].
  destruct (get_unit_vector_cases rs2) as [[? _]|(_ & Hn2 & ->)];
    [congruence|].
  rewrite vadd_numbers.
  destruct (get_unit_vector_cases (zip_with Rplus (unit_R rs1) (unit_R rs2)))
    as [[Hz _]|(_ & Hn & ->)]; [|done].
  rewrite length_zip_with, !length_unit_R, Hlen, Nat.min_id in Hz. done.
Qed.

Lemma vscale_nans (z : xreal) (n : nat) : vscale z (nans n) = nans n.
Proof.
  unfold vscale, nans. induction n as [|n IH]; [done|].
  change (fmul z <$> replicate (S n) None)
    with (fmul z None :: (fmul z <$> replicate n None)).
  rewrite IH. by destruct z.
Qed.

(** The total force on the middle one of three images that are collinear
    and opposed: [nan] in every component. *)
Lemma total_force_collinear_opposed (k tx ty tz : R) :
  image_total_force
    [[(Some 0, Some 0, Some 0)]; [(Some 1, Some 0, Some 0)];
     [(Some 0, Some 0, Some 0)]]%R
    [[(Some tx, Some ty, Some tz)]] (Some k) 1
  = Ok [(None, None, None)].
Proof.
  unfold image_total_force.
  repeat match goal with
  | |- context [getitem ?l ?i ≫= ?f] =>
      let r := eval cbn [getitem lookup list_lookup Nat.add Nat.sub] in (getitem l i) in
      change (getitem l i) with r;
      match r with Ok ?a => change (Ok a ≫= f) with (f a); cbv beta end
  end.
  assert (local_tangent
    (flatten (csub [(Some 0, Some 0, Some 0)] [(Some 1, Some 0, Some 0)]))%R
    (flatten (csub [(Some 1, Some 0, Some 0)] [(Some 0, Some 0, Some 0)]))%R
    = nans 3) as ->; [|by rewrite !vscale_nans].
  change (local_tangent (numbers [0 - 1; 0 - 0; 0 - 0]%R)
            (numbers [1 - 0; 0 - 0; 0 - 0]%R) = nans 3).
  apply (local_tangent_undefined [_; _; _] [_; _; _]); [done|].
  right. right. unfold unit_R.
  replace (sumsq [0 - 1; 0 - 0; 0 - 0]%R) with 1%R
    by (unfold sumsq; simpl; lra).
  replace (sumsq [1 - 0; 0 - 0; 0 - 0]%R) with 1%R
    by (unfold sumsq; simpl; lra).
  rewrite sqrt_1. simpl. repeat f_equal; lra.
Qed.

(** ** The unit vector in [float64] *)

(** A division by zero gives no finite number: [nan] for [0 / 0] and
    [nan / 0], an infinity otherwise. *)
Lemma b64_div_zero (c : float) :
  is_nan (c / 0) = true ∨ is_infinity (c / 0) = true.
Proof.
  unfold is_nan, is_infinity.
  rewrite !FloatAxioms.eqb_spec, FloatAxioms.abs_spec, FloatAxioms.div_spec.
  change (FloatOps.Prim2SF 0) with (SpecFloat.S754_zero false).
  change (FloatOps.Prim2SF infinity) with (SpecFloat.S754_infinity false).
  destruct (FloatOps.Prim2SF c) as [s|s| |s m e]; simpl; auto.
Qed.

Lemma b64_mul_nan (x : float) : (x * nan)%float = nan.
Proof.
  rewrite <- (FloatAxioms.SF2Prim_Prim2SF (x * nan)), FloatAxioms.mul_spec.
  change (FloatOps.Prim2SF nan) with SpecFloat.S754_nan.
  by destruct (FloatOps.Prim2SF x).
Qed.

Lemma b64_ltb_nan (x : float) : (x <? nan)%float = false.
Proof.
  rewrite FloatAxioms.ltb_spec.
  change (FloatOps.Prim2SF nan) with SpecFloat.S754_nan.
  unfold SpecFloat.SFltb. by destruct (FloatOps.Prim2SF x).
Qed.

Lemma get_unit_vector_zero_norm (v : list float) :
  norm v = 0%float →
  Forall (λ c, is_nan c = true ∨ is_infinity c = true) (get_unit_vector v).
Proof.
  intros Hn. unfold get_unit_vector. rewrite Hn.
  apply Forall_fmap, Forall_forall. intros c _. apply b64_div_zero.
Qed.

(** The total force on an image, written out: the tangent is the sum of the
    unit vectors of the two differences, divided by its norm. *)
Lemma image_total_force_inv {F : Type} `{!Float64 F}
    (x tf : list (list (F * F * F))) (k : F) (ni : nat) r :
  image_total_force x tf k ni = Ok r →
  ∃ x_next x_cur x_prev g vec1 vec2 u tangent,
    x !! (ni + 1) = Some x_next ∧ x !! ni = Some x_cur ∧
    x !! (ni - 1) = Some x_prev ∧ tf !! (ni - 1) = Some g ∧
    vec1 = flatten (csub x_next x_cur) ∧ vec2 = flatten (csub x_cur x_prev) ∧
    u = vadd ((λ c, fdiv c (norm vec1)) <$> vec1)
             ((λ c, fdiv c (norm vec2)) <$> vec2) ∧
    tangent = (λ c, fdiv c (norm u)) <$> u ∧
    r = cadd g (reshape3
          (vsub (vscale (fmul k (fsub (norm vec1) (norm vec2))) tangent)
                (vscale (np_dot (flatten g) tangent) tangent))).
Proof.
  unfold image_total_force. intros H.
  apply bind_Ok in H as (xn & Hn%getitem_Ok & H).
  apply bind_Ok in H as (xc & Hc%getitem_Ok & H).
  apply bind_Ok in H as (xp & Hp%getitem_Ok & H).
  apply bind_Ok in H as (g & Hg%getitem_Ok & H). injection H as <-.
  by eexists xn, xc, xp, g, _, _, _, _.
Qed.

(** C7, as the code has it.  In every arithmetic [get_unit_vector] divides
    each component by the norm of the vector without any guard, and the
    total force on an image uses three such divisions: by the norms of the
    forward difference, of the backward difference, and of the sum of
    their unit vectors.  In [float64], when such a norm is zero the result
    has no finite component; this is the case for two coincident images
    and for two opposite steps along an axis, where the tangent and the
    total force are [nan] in every component.  In exact arithmetic a norm
    is zero only for the zero vector: the tangent is [nan] exactly when a
    difference or the sum of the two unit vectors is the zero vector, and
    is a vector of numbers, the three norms not being zero, otherwise. *)
Theorem tangent_partial :
  (∀ (F : Type) (HF : Float64 F) (v : list F),
     get_unit_vector v = (λ c, fdiv c (norm v)) <$> v) ∧
  (∀ (F : Type) (HF : Float64 F) (x tf : list (list (F * F * F))) (k : F)
     (ni : nat) r,
     image_total_force x tf k ni = Ok r →
     ∃ x_next x_cur x_prev g vec1 vec2 u tangent,
       x !! (ni + 1) = Some x_next ∧ x !! ni = Some x_cur ∧
       x !! (ni - 1) = Some x_prev ∧ tf !! (ni - 1) = Some g ∧
       vec1 = flatten (csub x_next x_cur) ∧
       vec2 = flatten (csub x_cur x_prev) ∧
       u = vadd ((λ c, fdiv c (norm vec1)) <$> vec1)
                ((λ c, fdiv c (norm vec2)) <$> vec2) ∧
       tangent = (λ c, fdiv c (norm u)) <$> u ∧
       r = cadd g (reshape3
             (vsub (vscale (fmul k (fsub (norm vec1) (norm vec2))) tangent)
                   (vscale (np_dot (flatten g) tangent) tangent)))) ∧
  (∀ v : list float, norm v = 0%float →
     Forall (λ c, is_nan c = true ∨ is_infinity c = true)
       (get_unit_vector v)) ∧
  (get_unit_vector [0; 0; 0]%float = [nan; nan; nan] ∧
   local_tangent [0; 0; 0]%float [1; 0; 0]%float = [nan; nan; nan] ∧
   local_tangent [-1; 0; 0]%float [1; 0; 0]%float = [nan; nan; nan] ∧
   image_total_force [[(0, 0, 0)]; [(0, 0, 0)]; [(1, 0, 0)]]%float
     [[(0.5, 0.25, 0.125)]]%float 5%float 1 = Ok [(nan, nan, nan)] ∧
   image_total_force [[(0, 0, 0)]; [(1, 0, 0)]; [(0, 0, 0)]]%float
     [[(0.5, 0.25, 0.125)]]%float 5%float 1 = Ok [(nan, nan, nan)]) ∧
  (∀ rs1 rs2 : list R, length rs2 = length rs1 →
     rs1 = replicate (length rs1) 0%R ∨ rs2 = replicate (length rs1) 0%R ∨
       zip_with Rplus (unit_R rs1) (unit_R rs2) = replicate (length rs1) 0%R →
     local_tangent (numbers rs1) (numbers rs2) = nans (length rs1)) ∧
  (∀ rs1 rs2 : list R, length rs2 = length rs1 →
     rs1 ≠ replicate (length rs1) 0%R → rs2 ≠ replicate (length rs1) 0%R →
     zip_with Rplus (unit_R rs1) (unit_R rs2) ≠ replicate (length rs1) 0%R →
     R_sqrt.sqrt (sumsq rs1) ≠ 0%R ∧ R_sqrt.sqrt (sumsq rs2) ≠ 0%R ∧
     R_sqrt.sqrt (sumsq (zip_with Rplus (unit_R rs1) (unit_R rs2))) ≠ 0%R ∧
     local_tangent (numbers rs1) (numbers rs2) =
       numbers (unit_R (zip_with Rplus (unit_R rs1) (unit_R rs2)))) ∧
  (∀ k tx ty tz : R,
     image_total_force
       [[(Some 0, Some 0, Some 0)]; [(Some 1, Some 0, Some 0)];
        [(Some 0, Some 0, Some 0)]]%R
       [[(Some tx, Some ty, Some tz)]] (Some k) 1
     = Ok [(None, None, None)]).
Proof.
  split; [done|].
  split; [intros F HF x tf k ni r; apply image_total_force_inv|].
  split; [apply get_unit_vector_zero_norm|].
  split; [split_and!; vm_compute; reflexivity|].
  split; [apply local_tangent_undefined|].
  split; [apply local_tangent_defined|].
  apply total_force_collinear_opposed.
Qed.

(** In [float64] the norm of a vector that is not zero can be zero, its
    squares being too small for the arithmetic, and the division by this
    norm gives an infinity; and two opposite steps need not give unit
    vectors whose sum is zero. *)
Lemma norm_underflow :
  PrimFloat.eqb 0x1p-600 0 = false ∧
  norm [0x1p-600; 0; 0]%float = 0%float ∧
  get_unit_vector [0x1p-600; 0; 0]%float = [infinity; nan; nan] ∧
  ∃ c : float,
    local_tangent [1; 1; 1]%float [-3; -3; -3]%float = [c; c; c] ∧
    is_nan c = false ∧ is_infinity c = false.
Proof.
  split_and!; [vm_compute; reflexivity..|].
  eexists. split_and!; vm_compute; reflexivity.
Qed.

Section Paths.
Context {F : Type} `{!Float64 F}.
Context {Specie : Type} `{!EqDecision Specie} {Props : Type}.
Context (structure_ne : SymmetrizedStructure F Specie Props →
                        SymmetrizedStructure F Specie Props → bool).
Context (no_properties : Props).
Implicit Types (site ist est : PeriodicSite F Specie Props).
Implicit Types (symm : SymmetrizedStructure F Specie Props).
Implicit Types (p q : MigrationPath F Specie Props).
Implicit Types (sg : SpaceGroup F Specie Props) (a b r : PeriodicSite F Specie Props).

Lemma foldM_ext {A S : Type} (f g : S → A → result S) (s : S) (l : list A) :
  (∀ s x, x ∈ l → f s x = g s x) → foldM f s l = foldM g s l.
Proof.
  revert s. induction l as [|x l IH]; intros s Hfg; simpl; [done|].
  rewrite Hfg by by left. destruct (g s x); simpl; [|done].
  apply IH. intros ???. apply Hfg. by right.
Qed.

Lemma MigrationPath_init_inv ist est symm p :
  MigrationPath_init no_properties ist est symm = Ok p →
  isite p = ist ∧ esite p = est ∧
  symm_structure p = symm ∧
  foldM (λ (st : option nat * option nat) (o : nat * list _),
      s0 ← getitem o.2 0;
      let ii := if are_symmetrically_equivalent (spacegroup symm) [ist] [s0]
                then Some o.1 else st.1 in
      let ei := if are_symmetrically_equivalent (spacegroup symm) [est] [s0]
                then Some o.1 else st.2 in
      Ok (ii, ei))
    (None, None)
    (zip (seq 0 (length (equivalent_sites symm))) (equivalent_sites symm))
  = Ok (iindex p, eindex p).
Proof.
  unfold MigrationPath_init. intros H.
  apply bind_Ok in H as ([ii ei] & Hf & H). by inv_ok.
Qed.

(** Equivalent sites are equivalent to the same representatives. *)
Lemma equivalent_same_orbits sg a b r :
  symmetry_equivalence sg →
  are_symmetrically_equivalent sg [a] [b] = true →
  are_symmetrically_equivalent sg [a] [r] =
  are_symmetrically_equivalent sg [b] [r].
Proof.
  intros Hsg Hab.
  destruct (are_symmetrically_equivalent sg [b] [r]) eqn:Hb.
  - by eapply equiv_trans.
  - destruct (are_symmetrically_equivalent sg [a] [r]) eqn:Ha; [|done].
    rewrite <- Hb. symmetry. eapply equiv_trans; [done| |done].
    by apply equiv_sym.
Qed.

(** C8: two paths of the same symmetrized structure that compare equal
    have the same orbit indices, hence the same hash. *)
Theorem hash_consistent_with_eq (isite1 esite1 isite2 esite2 : PeriodicSite F Specie Props)
    symm p q :
  symmetry_equivalence (spacegroup symm) →
  MigrationPath_init no_properties isite1 esite1 symm = Ok p →
  MigrationPath_init no_properties isite2 esite2 symm = Ok q →
  MigrationPath_eq structure_ne p q = true →
  iindex p = iindex q ∧ eindex p = eindex q ∧
  MigrationPath_hash p = MigrationPath_hash q.
Proof.
  intros Hsg (Hi1 & He1 & Hs1 & Hf1)%MigrationPath_init_inv
             (Hi2 & He2 & Hs2 & Hf2)%MigrationPath_init_inv Heq.
  unfold MigrationPath_eq in Heq. rewrite Hs1 in Heq.
  destruct (structure_ne _ _); [done|].
  apply (equiv_triple _ Hsg) in Heq as [Hi He].
  rewrite Hi1, Hi2 in Hi. rewrite He1, He2 in He.
  assert (Ok (iindex p, eindex p) = Ok (iindex q, eindex q)) as Hpq.
  { rewrite <- Hf1, <- Hf2. apply foldM_ext. intros st [i o] _. simpl.
    destruct (getitem o 0) as [s0|]; simpl; [|done].
    by rewrite (equivalent_same_orbits _ _ _ s0 Hsg Hi),
               (equivalent_same_orbits _ _ _ s0 Hsg He). }
  injection Hpq as Hii Hei. unfold MigrationPath_hash.
  by rewrite Hii, Hei.
Qed.

End Paths.

(** ** Sorting *)

Section Sorting.
Context {F : Type} `{!Float64 F} {A : Type} (key : A → F).

Lemma insort_perm (x : A) (l : list A) : insort key x l ≡ₚ x :: l.
Proof.
  induction l as [|y l IH]; simpl; [done|].
  destruct (fltb _ _); [done|]. rewrite IH. apply Permutation_swap.
Qed.

Lemma foldl_insort_perm (l acc : list A) :
  foldl (λ acc x, insort key x acc) acc l ≡ₚ acc ++ l.
Proof.
  revert acc. induction l as [|x l IH]; intros acc; simpl.
  - by rewrite app_nil_r.
  - rewrite IH, insort_perm. simpl. apply Permutation_middle.
Qed.

Lemma sorted_perm (l : list A) : sorted key l ≡ₚ l.
Proof. apply foldl_insort_perm. Qed.

End Sorting.

(** Sorting by keys that are numbers, in exact arithmetic. *)
Section SortingNumbers.
Context {A : Type} (key : A → xreal).

#[local] Abbreviation numeric := (numeric key).
#[local] Abbreviation key_le := (key_le key).

Lemma xltb_numbers (a b : R) :
  fltb (Some a) (Some b) = true ↔ (a < b)%R.
Proof. simpl. destruct (Rlt_dec a b); split; (done || lra). Qed.

Lemma key_le_numbers x y a b :
  key x = Some a → key y = Some b → key_le x y ↔ (a <= b)%R.
Proof.
  intros Hx Hy. unfold key_le. rewrite Hx, Hy. simpl.
  destruct (Rlt_dec b a); split; (done || lra).
Qed.

Lemma insort_sorted (x : A) (l : list A) :
  numeric x → Forall numeric l →
  StronglySorted key_le l → StronglySorted key_le (insort key x l).
Proof.
  intros [a Ha] Hnum Hl.
  induction Hl as [|y l Hl IH Hy]; cbn [insort].
  - repeat constructor.
  - apply Forall_cons in Hnum as [[b Hb] Hnum].
    destruct (fltb (key x) (key y)) eqn:Hlt.
    + rewrite Ha, Hb in Hlt. apply xltb_numbers in Hlt.
      constructor; [by constructor|]. constructor.
      * rewrite (key_le_numbers _ _ _ _ Ha Hb). lra.
      * apply Forall_forall. intros z Hz.
        pose proof (proj1 (Forall_forall _ _) Hy z Hz) as Hyz.
        destruct (proj1 (Forall_forall _ _) Hnum z Hz) as [d Hd].
        rewrite (key_le_numbers _ _ _ _ Hb Hd) in Hyz.
        rewrite (key_le_numbers _ _ _ _ Ha Hd). lra.
    + constructor; [by apply IH|].
      rewrite insort_perm. by constructor.
Qed.

Lemma filter_insort (r : R) (x : A) (l : list A) :
  numeric x → Forall numeric l → StronglySorted key_le l →
  filter (λ p, key p = Some r) (insort key x l) =
    filter (λ p, key p = Some r) l ++
    (if decide (key x = Some r) then [x] else []).
Proof.
  intros [a Ha] Hnum Hl.
  induction Hl as [|y l Hl IH Hy]; cbn [insort].
  - rewrite filter_cons. by case_decide.
  - apply Forall_cons in Hnum as [[b Hb] Hnum].
    destruct (fltb (key x) (key y)) eqn:Hlt.
    + rewrite Ha, Hb in Hlt. apply xltb_numbers in Hlt.
      rewrite (filter_cons _ x). case_decide as Hx; [|by rewrite app_nil_r].
      assert (filter (λ p : A, key p = Some r) (y :: l) = []) as ->; [|done].
      apply elem_of_nil_inv. intros z [Hz Hin]%list_elem_of_filter.
      rewrite Ha in Hx. injection Hx as ->.
      apply elem_of_cons in Hin as [->|Hin]; [rewrite Hb in Hz; simplify_eq; lra|].
      pose proof (proj1 (Forall_forall _ _) Hy z Hin) as Hyz.
      rewrite (key_le_numbers _ _ _ _ Hb Hz) in Hyz. lra.
    + rewrite !(filter_cons _ y). rewrite IH by done.
      by destruct (decide (key y = Some r)).
Qed.

Lemma foldl_insort_sorted (l acc : list A) :
  Forall numeric l → Forall numeric acc → StronglySorted key_le acc →
  StronglySorted key_le (foldl (λ acc x, insort key x acc) acc l) ∧
  ∀ r, filter (λ p, key p = Some r)
         (foldl (λ acc x, insort key x acc) acc l) =
       filter (λ p, key p = Some r) acc ++ filter (λ p, key p = Some r) l.
Proof.
  revert acc. induction l as [|x l IH]; intros acc Hl Hacc Hs; simpl.
  - split; [done|]. intros r. by rewrite app_nil_r.
  - apply Forall_cons in Hl as [Hx Hl].
    destruct (IH (insort key x acc)) as [Hs' Hf]; [done| |by apply insort_sorted|].
    { rewrite insort_perm. by constructor. }
    split; [done|]. intros r. rewrite Hf, filter_insort by done.
    rewrite (filter_cons _ x), <- app_assoc. by case_decide.
Qed.

(** [sorted] on numeric keys: a sorted permutation that keeps the order of
    the elements of equal key. *)
Lemma sorted_numbers (l : list A) :
  Forall numeric l →
  sorted key l ≡ₚ l ∧ StronglySorted key_le (sorted key l) ∧
  ∀ r, filter (λ p, key p = Some r) (sorted key l) =
       filter (λ p, key p = Some r) l.
Proof.
  intros Hl. split; [apply sorted_perm|].
  destruct (foldl_insort_sorted l []) as [Hs Hf]; try done; constructor.
Qed.

End SortingNumbers.

Section Finder.
Context {F : Type} `{!Float64 F}.
Context {Specie : Type} `{!EqDecision Specie} {Props : Type}.
Context (structure_ne : SymmetrizedStructure F Specie Props →
                        SymmetrizedStructure F Specie Props → bool).
Context (no_properties : Props).
Implicit Types (p q : MigrationPath F Specie Props).
Implicit Types (paths : list (nat * MigrationPath F Specie Props)).
Implicit Types (finder : DistinctPathFinder F Specie Props).

Lemma set_add_no_duplicates p paths paths' :
  set_add structure_ne p paths = Ok paths' →
  no_duplicates structure_ne paths → no_duplicates structure_ne paths'.
Proof.
  unfold set_add. intros H [Hhash Hnd]. apply bind_Ok in H as (h & Hh & H).
  destruct (existsb _ paths) eqn:Hex; inv_ok; [done|].
  split; [apply Forall_app; split; [done|by repeat constructor]|].
  intros i j e1 e2 Hij H1 H2.
  destruct (decide (j < length paths)) as [Hj|Hj].
  { rewrite lookup_app_l in H1 by lia. rewrite lookup_app_l in H2 by lia.
    exact (Hnd i j e1 e2 Hij H1 H2). }
  assert (j = length paths) as ->.
  { apply lookup_lt_Some in H2. rewrite length_app in H2. simpl in H2. lia. }
  rewrite lookup_app_l in H1 by lia.
  rewrite lookup_app_r, Nat.sub_diag in H2 by lia. simpl in H2.
  injection H2 as <-. simpl. intros [Heq Hpeq].
  assert (existsb (λ e, (e.1 =? h) && MigrationPath_eq structure_ne e.2 p)
            paths = true) as Hex'; [|congruence].
  apply existsb_exists. exists e1. split.
  - apply list_elem_of_In, list_elem_of_lookup. eauto.
  - rewrite Hpeq, andb_true_r. by apply Nat.eqb_eq.
Qed.

Lemma discovered_paths_no_duplicates finder paths :
  discovered_paths structure_ne no_properties finder = Ok paths →
  no_duplicates structure_ne paths.
Proof.
  unfold discovered_paths. intros H.
  eapply (foldM_invariant (no_duplicates structure_ne)) in H; [done| |].
  - intros paths1 orbit paths2 _ Hnd H1.
    apply bind_Ok in H1 as (s0 & _ & H1).
    case_decide; [|by inv_ok].
    eapply (foldM_invariant (no_duplicates structure_ne)) in H1; [done| |done].
    intros paths3 nd paths4 _ Hnd3 H3.
    case_decide; [|by inv_ok].
    apply bind_Ok in H3 as (path & _ & H3).
    by eapply set_add_no_duplicates.
  - split; [constructor|]. intros i j e1 e2 _ H1. done.
Qed.

End Finder.

(** C9, as the code has it: [get_paths] returns the paths of the set, which
    holds no two paths that compare equal, in non-decreasing order of their
    lengths; the paths of equal length are in the order in which the set is
    iterated over. *)
Theorem get_paths_sorted {Specie : Type} `{!EqDecision Specie} {Props : Type}
    (structure_ne : SymmetrizedStructure xreal Specie Props →
                    SymmetrizedStructure xreal Specie Props → bool)
    (no_properties : Props)
    (iter_order : list (nat * MigrationPath xreal Specie Props) →
                  list (nat * MigrationPath xreal Specie Props))
    (finder : DistinctPathFinder xreal Specie Props)
    (ps : list (MigrationPath xreal Specie Props)) :
  (∀ l, iter_order l ≡ₚ l) →
  get_paths structure_ne no_properties iter_order finder = Ok ps →
  Forall (numeric MigrationPath_length) ps →
  ∃ paths,
    discovered_paths structure_ne no_properties finder = Ok paths ∧
    no_duplicates structure_ne paths ∧
    ps ≡ₚ paths.*2 ∧
    StronglySorted (key_le MigrationPath_length) ps ∧
    ∀ r : R,
      filter (λ p, MigrationPath_length p = Some r) ps =
      filter (λ p, MigrationPath_length p = Some r) (iter_order paths).*2.
Proof.
  intros Hperm Hget Hnum. unfold get_paths in Hget.
  apply bind_Ok in Hget as (paths & Hd & Hget). injection Hget as <-.
  exists paths. split; [done|].
  split; [by eapply discovered_paths_no_duplicates|].
  rewrite sorted_perm in Hnum.
  destruct (sorted_numbers MigrationPath_length _ Hnum) as (Hp & Hs & Hf).
  split_and!; try done.
  by rewrite Hp, Hperm.
Qed.

Section Displacement.
Context {F : Type} `{!Float64 F}.
Context {Specie : Type} `{!EqDecision Specie} {Props : Type}.
Context {SpLike : Type} (get_el_sp : SpLike → result Specie).
Implicit Types (self : IDPPSolver F Specie Props).
Implicit Types (c img d : list (F * F * F)).
Implicit Types (x : list (list (F * F * F))).
Implicit Types (a : run_args F SpLike).

Lemma NoDup_fst_zip {A B : Type} (l : list A) (k : list B) :
  NoDup l → NoDup (zip l k).*1.
Proof.
  intros Hl. revert k. induction Hl as [|y l Hy Hl IH]; intros [|z k]; simpl;
    try constructor; [|apply IH].
  intros ([y' z'] & -> & Hin%elem_of_zip_l)%list_elem_of_fmap. done.
Qed.

Lemma foldl_insert_lookup_NoDup {A : Type} (l : list (nat * A)) acc i v :
  NoDup l.*1 → (i, v) ∈ l → i < length acc →
  foldl (λ acc p, <[p.1 := p.2]> acc) acc l !! i = Some v.
Proof.
  revert acc. induction l as [|p l IH]; intros acc Hnd Hin Hi; simpl in *.
  - by apply elem_of_nil in Hin.
  - apply NoDup_cons in Hnd as [Hp Hnd].
    apply elem_of_cons in Hin as [<-|Hin].
    + rewrite foldl_insert_lookup_ne by done. simpl.
      by apply list_lookup_insert_eq.
    + apply IH; [done..|]. by rewrite length_insert.
Qed.

Lemma iadd_rows_value indices img d img' j i v dv :
  iadd_rows indices img d = Ok img' → NoDup indices →
  indices !! j = Some i → img !! i = Some v → d !! j = Some dv →
  img' !! i = Some (v3add v dv).
Proof.
  unfold iadd_rows. intros H Hnd Hj Hv Hd.
  apply bind_Ok in H as (sel & Hsel & H). inv_ok.
  destruct (mapM_lookup _ _ _ _ _ Hsel Hj) as (v' & Hv' & Hg%getitem_Ok).
  assert (v' = v) as -> by congruence.
  apply foldl_insert_lookup_NoDup.
  - by apply NoDup_fst_zip.
  - apply list_elem_of_lookup. exists j. apply lookup_zip_with_Some.
    exists i, (v3add v dv). split_and!; try done.
    apply lookup_zip_with_Some. eauto.
  - by eapply lookup_lt_Some.
Qed.

(** In an iteration, the coordinates of a site that moves change by the
    clipped displacement of the total force on it. *)
Lemma run_step_displacement self a indices x old x' funcs conv :
  run_step self a indices x old = Ok (x', funcs, conv) → NoDup indices →
  ∃ tot_forces,
    total_forces self a x = Ok tot_forces ∧
    ∀ ni i v t, 1 ≤ ni ≤ nimages self → i ∈ indices →
      coord_at x ni i = Some v → coord_at tot_forces (ni - 1) i = Some t →
      coord_at x' ni i =
        Some (v3add v (v3map (clip_disp (step_size a) (max_disp a)) t)).
Proof.
  unfold run_step, total_forces. intros H Hnd.
  apply bind_Ok in H as ([fs tfs] & Hff & H).
  apply bind_Ok in H as (tot & Htot & H).
  apply bind_Ok in H as (sel & Hsel & H).
  apply bind_Ok in H as (x1 & Hx1 & H).
  apply bind_Ok in H as (mf & _ & H). injection H as -> _ _.
  exists tot. split; [by rewrite Hff|].
  intros ni i v t Hni [j Hj]%list_elem_of_lookup Hv Ht.
  unfold coord_at in Hv, Ht.
  destruct (x !! ni) as [img|] eqn:Himg; simplify_eq/=.
  destruct (tot !! (ni - 1)) as [tf|] eqn:Htf; simplify_eq/=.
  destruct (mapM_lookup _ _ _ _ _ Hsel Htf) as (selr & Hselr & Hrow).
  destruct (mapM_lookup _ _ _ _ _ Hrow Hj) as (t' & Ht' & Hg%getitem_Ok).
  assert (t' = t) as -> by congruence.
  unfold iadd_disp in Hx1. case_decide as Hlen; [|done].
  apply bind_Ok in Hx1 as (new & Hnew & Hx1). injection Hx1 as <-.
  assert (take (nimages self) (drop 1 x) !! (ni - 1) = Some img) as Hint.
  { rewrite lookup_take_lt by lia. rewrite lookup_drop.
    by replace (1 + (ni - 1)) with ni by lia. }
  destruct (mapM_lookup _ _ new (ni - 1)
    (img, v3map (clip_disp (step_size a) (max_disp a)) <$> selr) Hnew)
    as (img' & Himg' & Hrows).
  { apply lookup_zip_with_Some. do 2 eexists. split_and!; [done|done|].
    rewrite list_lookup_fmap, Hselr. done. }
  simpl in Hrows.
  assert (length (take 1 x) = 1) as Ht1.
  { rewrite length_take. apply lookup_lt_Some in Himg. lia. }
  unfold coord_at.
  rewrite lookup_app_r by lia. rewrite Ht1.
  rewrite lookup_app_l by (by eapply lookup_lt_Some).
  rewrite Himg'. simpl.
  eapply iadd_rows_value; try done.
  by rewrite list_lookup_fmap, Ht'.
Qed.

Lemma species_indices_NoDup self indices sp :
  species_indices get_el_sp self sp = Ok indices → NoDup indices.
Proof.
  unfold species_indices. destruct sp as [sps|]; intros H.
  - apply bind_Ok in H as (sps' & _ & H). apply bind_Ok in H as (s0 & _ & H).
    cbv zeta in H. case_decide; [done|]. inv_ok.
    eapply NoDup_fmap_fst; [|apply NoDup_filter].
    + intros k y1 y2 [_ H1]%list_elem_of_filter [_ H2]%list_elem_of_filter.
      apply elem_of_enumerate in H1, H2. congruence.
    + apply (NoDup_fmap_1 fst), NoDup_fst_zip, NoDup_seq.
  - apply bind_Ok in H as (s0 & _ & H). inv_ok. apply NoDup_seq.
Qed.

(** The state after [k + 1] iterations is the loop body applied to the
    state after [k] iterations. *)
Lemma loop_state_S self a indices k x old :
  loop_state self a indices (S k) x old =
    (r ← loop_state self a indices k x old;
     r' ← run_step self a indices r.1 r.2;
     Ok (r'.1.1, r'.1.2)).
Proof.
  revert x old. induction k as [|k IH]; intros x old.
  - simpl. by destruct (run_step self a indices x old) as [[[x1 f1] b]|e].
  - change (loop_state self a indices (S (S k)) x old)
      with (r ← run_step self a indices x old;
            loop_state self a indices (S k) r.1.1 r.1.2).
    change (loop_state self a indices (S k) x old)
      with (r ← run_step self a indices x old;
            loop_state self a indices k r.1.1 r.1.2).
    destruct (run_step self a indices x old) as [[[x1 f1] b]|e]; [|done].
    simpl. apply IH.
Qed.

(** The iteration [k] of the loop of [run]: from the coordinates [x] after
    [k] iterations to the coordinates [x'] after [k + 1]. *)
Lemma iteration_displacement self a indices k x0 old0 x old x' funcs :
  NoDup indices →
  loop_state self a indices k x0 old0 = Ok (x, old) →
  loop_state self a indices (S k) x0 old0 = Ok (x', funcs) →
  ∃ tot_forces,
    total_forces self a x = Ok tot_forces ∧
    ∀ ni i v t, 1 ≤ ni ≤ nimages self → i ∈ indices →
      coord_at x ni i = Some v → coord_at tot_forces (ni - 1) i = Some t →
      coord_at x' ni i =
        Some (v3add v (v3map (clip_disp (step_size a) (max_disp a)) t)).
Proof.
  intros Hnd Hk HS. rewrite loop_state_S, Hk in HS. simpl in HS.
  destruct (run_step self a indices x old) as [[[x1 f1] b]|e] eqn:Hstep;
    [|done].
  simpl in HS. injection HS as <- <-.
  by eapply run_step_displacement.
Qed.

End Displacement.

(** In [float64] a force component that is [nan] gives a displacement that
    is [nan]: the comparison with [max_disp] is false and nothing is
    clipped. *)
Lemma clip_disp_nan (step maxd : float) : clip_disp step maxd nan = nan.
Proof.
  unfold clip_disp, fgtb. simpl. rewrite b64_mul_nan.
  change (abs nan) with nan. by rewrite b64_ltb_nan.
Qed.

(** C4, as the code has it.  In every arithmetic the loop body adds to each
    coordinate of a site that moves, in every interior image, the clipped
    displacement of the total force on it; so does every iteration of
    [run], from the coordinates after [k] iterations to those after
    [k + 1].  The clipped displacement of a force component is
    [d = step_size * force] when [|d| > max_disp] does not hold and
    [sign(d) * max_disp] when it does.  On numbers, for
    [max_disp >= 0] this is [d] clipped to [[-max_disp, max_disp]], and when
    moreover [step_size > 0] and [|d|] exceeds [max_disp] it is [max_disp]
    in magnitude with the sign of the force.  In [float64] a force
    component that is [nan] gives a displacement that is [nan], and a
    product [step_size * force] that overflows to an infinity is clipped
    to [max_disp] with the sign of the infinity. *)
Theorem displacement_clipped :
  (∀ (F : Type) (HF : Float64 F) (Specie : Type) (HS : EqDecision Specie)
     (Props SpLike : Type) (get_el_sp : SpLike → result Specie)
     (self : IDPPSolver F Specie Props) (a : run_args F SpLike) sp indices
     x old x' funcs conv,
     species_indices get_el_sp self sp = Ok indices →
     run_step self a indices x old = Ok (x', funcs, conv) →
     ∃ tot_forces,
       total_forces self a x = Ok tot_forces ∧
       ∀ ni i v t, 1 ≤ ni ≤ nimages self → i ∈ indices →
         coord_at x ni i = Some v → coord_at tot_forces (ni - 1) i = Some t →
         coord_at x' ni i =
           Some (v3add v (v3map (clip_disp (step_size a) (max_disp a)) t))) ∧
  (∀ (F : Type) (HF : Float64 F) (Specie : Type) (HS : EqDecision Specie)
     (Props SpLike : Type) (get_el_sp : SpLike → result Specie)
     (self : IDPPSolver F Specie Props) (a : run_args F SpLike) indices
     k x old x' funcs,
     species_indices get_el_sp self (species a) = Ok indices →
     loop_state self a indices k (init_coords self)
       (replicate (nimages self) f0) = Ok (x, old) →
     loop_state self a indices (S k) (init_coords self)
       (replicate (nimages self) f0) = Ok (x', funcs) →
     ∃ tot_forces,
       total_forces self a x = Ok tot_forces ∧
       ∀ ni i v t, 1 ≤ ni ≤ nimages self → i ∈ indices →
         coord_at x ni i = Some v → coord_at tot_forces (ni - 1) i = Some t →
         coord_at x' ni i =
           Some (v3add v (v3map (clip_disp (step_size a) (max_disp a)) t))) ∧
  (∀ (F : Type) (HF : Float64 F) (step maxd force : F),
     clip_disp step maxd force =
       if fltb maxd (fabs (fmul step force))
       then fmul (fsign (fmul step force)) maxd
       else fmul step force) ∧
  (∀ step maxd force : R,
     ∃ d : R,
       clip_disp (Some step) (Some maxd) (Some force) = Some d ∧
       (Rabs (step * force) <= maxd → d = step * force)%R ∧
       (maxd < Rabs (step * force) →
          (0 < step * force → d = maxd) ∧ (step * force < 0 → d = - maxd))%R ∧
       (0 <= maxd → d = Rmax (- maxd) (Rmin maxd (step * force)))%R ∧
       (0 < step → 0 <= maxd → maxd < Rabs (step * force) →
          Rabs d = maxd ∧ (0 < force → d = maxd) ∧ (force < 0 → d = - maxd))%R) ∧
  (∀ step maxd : float, clip_disp step maxd nan = nan) ∧
  (clip_disp 0x1p1023 0x1.999999999999ap-5 0x1p1023 = 0x1.999999999999ap-5 ∧
   clip_disp 0x1p1023 0x1.999999999999ap-5 (-0x1p1023) =
     -0x1.999999999999ap-5)%float.
Proof.
  split_and!.
  - intros F HF Specie HS Props SpLike get_el_sp self a sp indices x old x'
      funcs conv Hi Hstep.
    eapply run_step_displacement; [done|]. by eapply species_indices_NoDup.
  - intros F HF Specie HS Props SpLike get_el_sp self a indices k x old x'
      funcs Hi Hk HSk.
    eapply iteration_displacement; [|done..]. by eapply species_indices_NoDup.
  - done.
  - apply clip_disp_real.
  - apply clip_disp_nan.
  - vm_compute. reflexivity.
  - vm_compute. reflexivity.
Qed.


(** ** The constructor: what it refuses, and the coordinates it stores *)

Lemma reshape_replicate_lookup {A : Type} (l : list A) k n ni i :
  ni < k → i < n →
  reshape (replicate k n) l !! ni ≫= (λ row, row !! i) = l !! (ni * n + i).
Proof.
  revert l ni. induction k as [|k IH]; intros l ni Hni Hi; [lia|].
  destruct ni as [|ni]; simpl.
  - by rewrite lookup_take_lt.
  - rewrite IH by lia. rewrite lookup_drop. f_equal. lia.
Qed.

Lemma list_prod_lookup {A B : Type} (l : list A) (k : list B) a b x y :
  l !! a = Some x → k !! b = Some y →
  list_prod l k !! (a * length k + b) = Some (x, y).
Proof.
  revert a. induction l as [|x' l IH]; intros a Ha Hb; [done|].
  simpl. destruct a as [|a]; simplify_eq/=.
  - rewrite lookup_app_l.
    + change (map (λ y, (x, y)) k) with ((λ y, (x, y)) <$> k).
      by rewrite list_lookup_fmap, Hb.
    + rewrite length_map. by eapply lookup_lt_Some.
  - rewrite lookup_app_r; rewrite length_map; [|lia].
    replace (length k + a * length k + b - length k) with (a * length k + b)
      by lia.
    by apply IH.
Qed.

Section Coordinates.
Context {F : Type} `{!Float64 F}.
Context {Specie : Type} `{!EqDecision Specie} {Props : Type}.
Implicit Types (chain : list (Structure F Specie Props)).
Implicit Types (self : IDPPSolver F Specie Props).
Implicit Types (s : Structure F Specie Props) (latt : Lattice F).



Lemma init_step_coords chain latt nimages natoms st nii st' :
  init_step chain latt nimages natoms st nii = Ok st' →
  ∃ s site, chain !! nii.1 = Some s ∧ sites s !! nii.2 = Some site ∧
    st'.1 = st.1 ++ [get_cartesian_coords latt (frac_coords site)].
Proof.
  destruct st as [ic t], nii as [ni i]. simpl. intros H.
  apply bind_Ok in H as (s & Hs%getitem_Ok & H).
  apply bind_Ok in H as (si & Hsi%getitem_Ok & H).
  exists s, si. split_and!; try done.
  case_bool_decide; [by inv_ok|].
  apply bind_Ok in H as (t' & _ & H). by inv_ok.
Qed.

Lemma init_coords_values chain latt nimages natoms l st st' :
  foldM (init_step chain latt nimages natoms) st l = Ok st' →
  ∃ vs, st'.1 = st.1 ++ vs ∧
    Forall2 (λ nii v, ∃ s site, chain !! nii.1 = Some s ∧
               sites s !! nii.2 = Some site ∧
               v = get_cartesian_coords latt (frac_coords site)) l vs.
Proof.
  revert st. induction l as [|y l IH]; intros st Hf; simpl in Hf.
  - injection Hf as <-. exists []. by rewrite app_nil_r.
  - apply bind_Ok in Hf as (st1 & Hstep & Hf).
    destruct (init_step_coords _ _ _ _ _ _ _ Hstep)
      as (s & site & Hs & Hsite & E).
    destruct (IH _ Hf) as (vs & -> & Hvs). rewrite E, <- app_assoc.
    eexists. split; [done|]. constructor; [|done]. by exists s, site.
Qed.


End Coordinates.

(** ** The minimization loop *)

Section Loop.
Context {F : Type} `{!Float64 F}.
Context {Specie : Type} `{!EqDecision Specie} {Props : Type}.
Context {SpLike : Type} (get_el_sp : SpLike → result Specie).
Implicit Types (chain : list (Structure F Specie Props)).
Implicit Types (self : IDPPSolver F Specie Props).
Implicit Types (s : Structure F Specie Props) (latt : Lattice F).
Implicit Types (x : list (list (F * F * F))).
Implicit Types (a : run_args F SpLike).

(** The loop that meets the convergence test at the iteration [k]: it
    stops there. *)
Lemma run_loop_converges self a indices k n0 x old :
  (∀ j, j < k → ¬ converges_at self a indices x old j) →
  converges_at self a indices x old k →
  ∃ c f c' f',
    loop_state self a indices k x old = Ok (c, f) ∧
    run_step self a indices c f = Ok (c', f', true) ∧
    ∀ more,
      run_loop self a indices (seq n0 (S k) ++ more) x old =
        (Ok c', Iteration <$> seq n0 (S k)).
Proof.
  revert n0 x old. induction k as [|k IH]; intros n0 x old Hnot Hconv.
  - destruct Hconv as (c & f & c' & f' & Hk & Hstep). simpl in Hk.
    injection Hk as <- <-. exists x, old, c', f'. split_and!; try done.
    intros more. simpl. by rewrite Hstep.
  - destruct Hconv as (c & f & c' & f' & Hk & Hstep). simpl in Hk.
    apply bind_Ok in Hk as ([[x1 f1] b] & Hstep1 & Hk). simpl in Hk.
    destruct b.
    { destruct (Hnot 0); [lia|]. exists x, old, x1, f1. by split. }
    destruct (IH (S n0) x1 f1) as (c2 & f2 & c2' & f2' & Hk2 & Hstep2 & Hrun).
    { intros j Hj Hc. apply (Hnot (S j)); [lia|].
      by eapply converges_at_S. }
    { by exists c, f, c', f'. }
    exists c2, f2, c2', f2'. split_and!; try done.
    + simpl. by rewrite Hstep1.
    + intros more. change (seq n0 (S (S k))) with (n0 :: seq (S n0) (S k)).
      cbn [app run_loop]. rewrite Hstep1. by rewrite Hrun.
Qed.






End Loop.

(** ** The unit vector, in exact arithmetic *)

Lemma sumsq_scaled (c : R) (rs : list R) :
  sumsq ((λ r, r / c)%R <$> rs) = (sumsq rs / (c * c))%R.
Proof.
  induction rs as [|r rs IH].
  - unfold sumsq. simpl. unfold Rdiv. lra.
  - rewrite fmap_cons, !sumsq_cons, IH.
    destruct (Req_dec_T c 0) as [->|Hc].
    + unfold Rdiv. rewrite Rmult_0_l, Rinv_0. lra.
    + field. done.
Qed.


(** ** The orbit indices of a path *)


Section OrbitIndices.
Context {F : Type} `{!Float64 F}.
Context {Specie : Type} `{!EqDecision Specie} {Props : Type}.
Context (structure_ne : SymmetrizedStructure F Specie Props →
                        SymmetrizedStructure F Specie Props → bool).
Context (no_properties : Props).
Implicit Types (site ist est : PeriodicSite F Specie Props).
Implicit Types (symm : SymmetrizedStructure F Specie Props).
Implicit Types (p q : MigrationPath F Specie Props).
Implicit Types (sg : SpaceGroup F Specie Props).
Implicit Types (orbits : list (list (PeriodicSite F Specie Props))).
Implicit Types (paths : list (nat * MigrationPath F Specie Props)).
Implicit Types (finder : DistinctPathFinder F Specie Props).

(** The loop of lines 302-306 over the orbits numbered from [k]: no orbit is
    empty, and each of the two indices is the one it was before the loop
    when no representative is equivalent to its site, and the number of the
    last orbit whose representative is equivalent otherwise. *)
Lemma orbit_loop_inv sg ist est orbits k ii0 ei0 ii ei :
  foldM (λ (st : option nat * option nat) (o : nat * list _),
      s0 ← getitem o.2 0;
      let ii := if are_symmetrically_equivalent sg [ist] [s0]
                then Some o.1 else st.1 in
      let ei := if are_symmetrically_equivalent sg [est] [s0]
                then Some o.1 else st.2 in
      Ok (ii, ei))
    (ii0, ei0) (zip (seq k (length orbits)) orbits) = Ok (ii, ei) →
  Forall (λ orbit, orbit ≠ []) orbits ∧
  ∀ site r r0, (site = ist ∧ r = ii ∧ r0 = ii0) ∨
               (site = est ∧ r = ei ∧ r0 = ei0) →
    (r = r0 ∧ ∀ orbit s0, orbit ∈ orbits → orbit !! 0 = Some s0 →
        are_symmetrically_equivalent sg [site] [s0] = false) ∨
    (∃ i orbit s0, r = Some (k + i) ∧ orbits !! i = Some orbit ∧
        orbit !! 0 = Some s0 ∧
        are_symmetrically_equivalent sg [site] [s0] = true ∧
        ∀ j orbit' s', i < j → orbits !! j = Some orbit' →
          orbit' !! 0 = Some s' →
          are_symmetrically_equivalent sg [site] [s'] = false).
Proof.
  revert k ii0 ei0.
  induction orbits as [|orbit orbits IH]; intros k ii0 ei0 Hf.
  - simpl in Hf. injection Hf as <- <-. split; [constructor|].
    intros site r r0 [(-> & -> & ->)|(-> & -> & ->)]; left;
      (split; [done|]); intros ?? Hin; by apply elem_of_nil in Hin.
  - simpl in Hf. apply bind_Ok in Hf as ([ii1 ei1] & Hstep & Hf).
    apply bind_Ok in Hstep as (s0 & Hs0%getitem_Ok & Hstep).
    simpl in Hstep. injection Hstep as <- <-.
    destruct (IH _ _ _ Hf) as [Hne Hrest]. split.
    { constructor; [|done]. intros ->. done. }
    assert (∀ site r r1 r0,
      r1 = (if are_symmetrically_equivalent sg [site] [s0]
            then Some k else r0) →
      (r = r1 ∧ ∀ orbit s0, orbit ∈ orbits → orbit !! 0 = Some s0 →
          are_symmetrically_equivalent sg [site] [s0] = false) ∨
      (∃ i orbit s0, r = Some (S k + i) ∧ orbits !! i = Some orbit ∧
          orbit !! 0 = Some s0 ∧
          are_symmetrically_equivalent sg [site] [s0] = true ∧
          ∀ j orbit' s', i < j → orbits !! j = Some orbit' →
            orbit' !! 0 = Some s' →
            are_symmetrically_equivalent sg [site] [s'] = false) →
      (r = r0 ∧ ∀ orbit' s', orbit' ∈ orbit :: orbits →
          orbit' !! 0 = Some s' →
          are_symmetrically_equivalent sg [site] [s'] = false) ∨
      (∃ i orbit' s', r = Some (k + i) ∧
          (orbit :: orbits) !! i = Some orbit' ∧
          orbit' !! 0 = Some s' ∧
          are_symmetrically_equivalent sg [site] [s'] = true ∧
          ∀ j orbit2 s2, i < j → (orbit :: orbits) !! j = Some orbit2 →
            orbit2 !! 0 = Some s2 →
            are_symmetrically_equivalent sg [site] [s2] = false)) as Hcase.
    { intros site r r1 r0 -> [[-> Hnone]|(i & o & s' & -> & Ho & Hs' & Ht & Hlater)].
      - destruct (are_symmetrically_equivalent sg [site] [s0]) eqn:E.
        + right. exists 0, orbit, s0. rewrite Nat.add_0_r.
          split_and!; try done.
          intros [|j] o2 s2 Hj Ho2 Hs2; [lia|]. simpl in Ho2.
          eapply Hnone; [|done]. by eapply list_elem_of_lookup_2.
        + left. split; [done|]. intros o2 s2 [->|Hin]%elem_of_cons Hs2.
          * congruence.
          * by eapply Hnone.
      - right. exists (S i), o, s'. split_and!; try done.
        + f_equal. lia.
        + intros [|j] o2 s2 Hj Ho2 Hs2; [lia|]. simpl in Ho2.
          eapply (Hlater j); [lia|done..]. }
    intros site r r0 [(-> & -> & ->)|(-> & -> & ->)].
    + eapply Hcase; [done|]. apply Hrest. by left.
    + eapply Hcase; [done|]. apply Hrest. by right.
Qed.

Lemma orbit_loop_last ist est symm p site r :
  MigrationPath_init no_properties ist est symm = Ok p →
  (site = ist ∧ r = iindex p) ∨ (site = est ∧ r = eindex p) →
  last_orbit symm site r.
Proof.
  intros (_ & _ & _ & Hf)%MigrationPath_init_inv Hr.
  apply orbit_loop_inv in Hf as [_ Hloop].
  destruct (Hloop site r None)
    as [[-> Hnone]|(i & o & s0 & -> & Ho & Hs0 & Ht & Hl)].
  { destruct Hr as [[-> ->]|[-> ->]]; [left|right]; done. }
  - intros (o & s0 & Ho & Hs0 & Ht). by rewrite (Hnone o s0) in Ht.
  - simpl. by exists o, s0.
Qed.



Lemma orbit_loop_swap sg ist est
    (l : list (nat * list (PeriodicSite F Specie Props))) ii0 ei0 ii ei :
  foldM (λ (st : option nat * option nat) (o : nat * list _),
      s0 ← getitem o.2 0;
      let ii := if are_symmetrically_equivalent sg [ist] [s0]
                then Some o.1 else st.1 in
      let ei := if are_symmetrically_equivalent sg [est] [s0]
                then Some o.1 else st.2 in
      Ok (ii, ei)) (ii0, ei0) l = Ok (ii, ei) →
  foldM (λ (st : option nat * option nat) (o : nat * list _),
      s0 ← getitem o.2 0;
      let ii := if are_symmetrically_equivalent sg [est] [s0]
                then Some o.1 else st.1 in
      let ei := if are_symmetrically_equivalent sg [ist] [s0]
                then Some o.1 else st.2 in
      Ok (ii, ei)) (ei0, ii0) l = Ok (ei, ii).
Proof.
  revert ii0 ei0. induction l as [|o l IH]; intros ii0 ei0 Hf; simpl in *.
  - by injection Hf as <- <-.
  - apply bind_Ok in Hf as ([ii1 ei1] & Hstep & Hf).
    apply bind_Ok in Hstep as (s0 & Hs0 & Hstep).
    simpl in Hstep. injection Hstep as <- <-.
    rewrite Hs0. simpl. by apply IH.
Qed.


(** ** The paths that [get_paths] returns *)

Lemma set_add_members (P : MigrationPath F Specie Props → Prop) p paths paths' :
  set_add structure_ne p paths = Ok paths' →
  P p → Forall (λ e, P e.2) paths → Forall (λ e, P e.2) paths'.
Proof.
  unfold set_add. intros H Hp Hall. apply bind_Ok in H as (h & Hh & H).
  destruct (existsb _ paths); inv_ok; [done|].
  apply Forall_app. split; [done|]. by repeat constructor.
Qed.

(** What [get_paths] puts into the set. *)
Lemma discovered_paths_members finder paths :
  discovered_paths structure_ne no_properties finder = Ok paths →
  Forall (λ e,
    symm_structure e.2 = finder_symm_structure finder ∧
    specie (isite e.2) = migrating_specie finder ∧
    specie (esite e.2) = migrating_specie finder ∧
    (∃ orbit, orbit ∈ equivalent_sites (finder_symm_structure finder) ∧
              orbit !! 0 = Some (isite e.2)) ∧
    (∃ dist, (esite e.2, dist) ∈
        get_neighbors (finder_symm_structure finder) (isite e.2)
          (max_path_length finder))) paths.
Proof.
  unfold discovered_paths. intros H.
  match goal with |- Forall ?Q _ => set (P := Q) end.
  eapply (foldM_invariant (Forall P)) in H; [exact H| |constructor].
  intros paths1 orbit paths2 Horbit Hall H1.
  apply bind_Ok in H1 as (s0 & Hs0%getitem_Ok & H1).
  case_decide as Hsp; [|by inv_ok].
  eapply (foldM_invariant (Forall P)) in H1; [exact H1| |exact Hall].
  intros paths3 [nn dist] paths4 Hnn Hall3 H3. simpl in H3.
  case_decide as Hsp'; [|by inv_ok].
  apply bind_Ok in H3 as (path & Hpath & H3).
  apply MigrationPath_init_inv in Hpath as (Hi & He & Hs & _).
  eapply (set_add_members (λ p, P (0, p))); [exact H3| |exact Hall3].
  unfold P. simpl. rewrite Hi, He, Hs. split_and!; try done; eauto.
Qed.


Lemma MigrationPath_init_total ist est symm :
  Forall (λ orbit, orbit ≠ []) (equivalent_sites symm) →
  ∃ p, MigrationPath_init no_properties ist est symm = Ok p.
Proof.
  intros Hne. unfold MigrationPath_init.
  match goal with |- context [foldM ?f ?s ?l] =>
    destruct (foldM_total (λ _, True) f l s) as ([ii ei] & Hf & _)
  end; [done| |].
  - intros st [k orbit] Hin%elem_of_zip_r _. simpl.
    pose proof (proj1 (Forall_forall _ _) Hne _ Hin) as Ho.
    destruct orbit as [|s0 orbit]; [done|]. simpl. eauto.
  - rewrite Hf. simpl. eauto.
Qed.


End OrbitIndices.

(** ** The structures of a path *)

Section StructureProperties.
Context {F : Type} `{!Float64 F}.
Context {Specie : Type} `{!EqDecision Specie} {Props : Type}.
Context {SpLike : Type} (get_el_sp : SpLike → result Specie).
Context (interpolate : Structure F Specie Props → Structure F Specie Props →
                       nat → bool → F → interpolation F Specie Props).
Context (structure_ne : SymmetrizedStructure F Specie Props →
                        SymmetrizedStructure F Specie Props → bool).
Context (no_properties : Props).
Context (hydrogen : Specie) (of_specie : Specie → SpLike).
Implicit Types (p : MigrationPath F Specie Props).
Implicit Types (site : PeriodicSite F Specie Props).
Implicit Types (kw : run_args F SpLike).
Implicit Types (sts : list (Structure F Specie Props)).

(** The loop of [get_structures] computes two filters. *)
Lemma sort_sites_filter p vac_mode :
  sort_sites p vac_mode =
    (if vac_mode
     then filter (λ site, specie site = specie (isite p) ∧
                    fgtb (distance (isite p) site) f_1em8 = true ∧
                    fgtb (distance (esite p) site) f_1em8 = true)
            (symm_sites (symm_structure p))
     else [],
     filter (λ site, specie site ≠ specie (isite p))
       (symm_sites (symm_structure p))).
Proof.
  unfold sort_sites.
  set (P := λ site, specie site = specie (isite p) ∧
              fgtb (distance (isite p) site) f_1em8 = true ∧
              fgtb (distance (esite p) site) f_1em8 = true).
  set (Q := λ site, specie site ≠ specie (isite p)).
  match goal with |- foldl ?f _ _ = _ => set (step := f) end.
  assert (∀ l a b, foldl step (a, b) l =
            (a ++ (if vac_mode then filter P l else []), b ++ filter Q l))
    as Hgen; [|by rewrite Hgen].
  induction l as [|site l IH]; intros a b.
  - destruct vac_mode; cbn [foldl]; rewrite ?filter_nil, !app_nil_r; done.
  - cbn [foldl]. unfold step at 2. cbn [fst snd].
    rewrite (filter_cons Q), (filter_cons P).
    destruct (decide (specie site ≠ specie (isite p))) as [Hq|Hq].
    + rewrite IH. rewrite (decide_True (P := Q site)) by done.
      rewrite (decide_False (P := P site)) by (intros [? _]; done).
      by rewrite <- app_assoc.
    + rewrite (decide_False (P := Q site)) by done.
      apply dec_stable in Hq.
      destruct vac_mode; simpl.
      * destruct (decide (P site)) as [(_ & E1 & E2)|Hn].
        -- rewrite E1, E2. simpl. rewrite IH. by rewrite <- app_assoc.
        -- assert (fgtb (distance (isite p) site) f_1em8 &&
                   fgtb (distance (esite p) site) f_1em8 = false) as ->.
           { apply not_true_is_false. intros [E1 E2]%andb_true_iff.
             by apply Hn. }
           by rewrite IH.
      * by rewrite IH.
Qed.





(** ** Writing all the paths *)

Lemma path_placeholders_inv sts new :
  path_placeholders no_properties hydrogen sts = Ok new →
  ∃ s_first site_first s_last site_last images,
    sts !! 0 = Some s_first ∧ sites s_first !! 0 = Some site_first ∧
    last sts = Some s_last ∧ sites s_last !! 0 = Some site_last ∧
    new = [site_first; site_last] ++ images ∧
    length images = length sts - 2 ∧
    Forall (λ site, specie site = hydrogen) images.
Proof.
  unfold path_placeholders. intros H.
  apply bind_Ok in H as (s1 & H1%getitem_Ok & H).
  apply bind_Ok in H as (site1 & Hs1%getitem_Ok & H).
  apply bind_Ok in H as (s2 & H2%getitem_last_Ok & H).
  apply bind_Ok in H as (site2 & Hs2%getitem_Ok & H).
  apply bind_Ok in H as (images & Him & H). injection H as <-.
  exists s1, site1, s2, site2, images. split_and!; try done.
  - apply mapM_length in Him. rewrite Him. unfold interior.
    rewrite length_take, length_drop. lia.
  - apply Forall_forall. intros site [k Hk]%list_elem_of_lookup.
    destruct (mapM_lookup_r _ _ _ _ _ Him Hk) as (s & _ & Hsite).
    apply bind_Ok in Hsite as (s0 & _ & Hsite). by injection Hsite as <-.
Qed.

Lemma write_loop_inv n vac_mode idpp kw paths acc structures log acc'
    structures' log' :
  write_loop get_el_sp interpolate no_properties hydrogen n vac_mode idpp kw
    paths acc structures log = (Ok (acc', structures'), log') →
  ∃ new,
    acc' = acc ++ new ∧
    match last paths with
    | None => structures' = structures ∧ new = []
    | Some p =>
        ∃ sts, structures' = Some sts ∧
          (get_structures get_el_sp interpolate p n vac_mode idpp kw).1 = Ok sts
    end ∧
    ((∀ p sts, p ∈ paths →
        (get_structures get_el_sp interpolate p n vac_mode idpp kw).1 = Ok sts →
        length sts = n + 2) →
     length new = (n + 2) * length paths).
Proof.
  revert acc structures log.
  induction paths as [|p paths IH]; intros acc structures log H; simpl in H.
  - injection H as <- <- <-. exists []. rewrite app_nil_r.
    split_and!; try done; intros _; simpl; lia.
  - destruct (get_structures _ _ p _ _ _ _) as [[sts|] lg] eqn:Hget; [|done].
    destruct (path_placeholders _ _ sts) as [new|] eqn:Hnew; [|done].
    destruct (IH _ _ _ H) as (new' & -> & Hlast & Hlen).
    exists (new ++ new'). rewrite app_assoc. split; [done|]. split.
    + destruct paths as [|q paths].
      * destruct Hlast as [-> ->]. simpl. exists sts. by rewrite Hget.
      * change (last (p :: q :: paths)) with (last (q :: paths)).
        destruct (last (q :: paths)) eqn:E; [done|].
        by apply last_None in E.
    + intros Hall. rewrite length_app, Hlen.
      2: { intros q sts' Hq. apply Hall. by right. }
      apply path_placeholders_inv in Hnew
        as (? & ? & ? & ? & images & _ & _ & _ & _ & -> & Him & _).
      rewrite (Hall p sts) in Him; [|by left|by rewrite Hget].
      rewrite length_app. simpl. lia.
Qed.



End StructureProperties.

(** ** The theorems at the example inputs *)

Import Examples.

Lemma chain5_wf : wf_chain chain5.
Proof.
  split; [simpl; lia|]. exists 2. split; [lia|]. repeat constructor.
Qed.

Lemma solver5_init : IDPPSolver_init chain5 = Ok solver5.
Proof. vm_compute. reflexivity. Qed.

Lemma chain3_wf : wf_chain chain3.
Proof. split; [simpl; lia|]. exists 2. split; [lia|]. repeat constructor. Qed.

Lemma solver3_init : IDPPSolver_init chain3 = Ok solver3.
Proof.
  destruct (IDPPSolver_init_total chain3 chain3_wf) as [self Hself].
  unfold solver3. by rewrite Hself.
Qed.

Lemma solver3_shape : nimages solver3 = 1 ∧ natoms solver3 = 2.
Proof.
  destruct (IDPPSolver_init_inv _ _ solver3_init)
    as (s0 & sl & ic & H0 & _ & _ & Hn & Ha & _).
  split; [exact Hn|]. rewrite Ha. by injection H0 as <-.
Qed.

Lemma solver2_init : IDPPSolver_init chain2 = Ok solver2.
Proof. vm_compute. reflexivity. Qed.

Lemma chain3_sites :
  Forall (λ s : Structure xreal string unit,
            num_sites s =
            num_sites (mkstructure [site "Li" (Some 0%R) (Some 0%R) (Some 0%R);
                                    site "O" (Some 3%R) (Some 4%R) (Some 0%R)]))
    chain3.
Proof. repeat constructor. Qed.

(** [target_dists_interpolation] on the chain of three configurations in
    exact arithmetic: its single target is the average of the end points. *)
Lemma target_dists_interpolation_witness :
  IDPPSolver_init chain3 = Ok solver3 ∧ nimages solver3 = 1 ∧
  midpoint_law (F := xreal) ∧
  ∃ s0 slast, chain3 !! 0 = Some s0 ∧ last chain3 = Some slast ∧
    Forall (λ s, num_sites s = num_sites s0) chain3 ∧
    target_dists solver3 = [mavg (distance_matrix s0) (distance_matrix slast)].
Proof.
  split; [apply solver3_init|]. split; [apply solver3_shape|].
  split; [apply ideal_midpoint_law|].
  do 2 eexists. split; [reflexivity|]. split; [reflexivity|].
  split; [apply chain3_sites|].
  destruct (target_dists_interpolation chain3 solver3 _ _ solver3_init
              eq_refl eq_refl chain3_sites) as (_ & _ & _ & Hone).
  destruct (Hone (proj1 solver3_shape)) as [_ Havg].
  apply Havg, ideal_midpoint_law.
Defined.

(** In [float64] the target of a single interior image is not the average
    of the two distance matrices: for the distances 0.1 and 0.7 the code
    computes 0.1 + 0.5 * (0.7 - 0.1) = 0.40000000000000002, and the average
    is 0.39999999999999997. *)
Lemma interpolation_not_average :
  IDPPSolver_init chain_tenths = Ok solver_tenths ∧
  nimages solver_tenths = 1 ∧
  ∃ s0 slast,
    chain_tenths !! 0 = Some s0 ∧ last chain_tenths = Some slast ∧
    Forall (λ s, num_sites s = num_sites s0) chain_tenths ∧
    distance_matrix s0 =
      [[0; 0x1.999999999999ap-4]; [0x1.999999999999ap-4; 0]]%float ∧
    distance_matrix slast =
      [[0; 0x1.6666666666666p-1]; [0x1.6666666666666p-1; 0]]%float ∧
    target_dists solver_tenths =
      [[[0; 0x1.999999999999ap-2]; [0x1.999999999999ap-2; 0]]]%float ∧
    mavg (distance_matrix s0) (distance_matrix slast) =
      [[0; 0x1.9999999999999p-2]; [0x1.9999999999999p-2; 0]]%float ∧
    PrimFloat.eqb 0x1.999999999999ap-2 0x1.9999999999999p-2 = false.
Proof.
  split; [vm_compute; reflexivity|]. split; [reflexivity|].
  do 2 eexists. split; [reflexivity|]. split; [reflexivity|].
  split; [repeat constructor|].
  split_and!; vm_compute; reflexivity.
Qed.

(** [run_returns_chain] on the chain of five configurations, three
    iterations, every site free to move. *)
Lemma run_returns_chain_witness :
  wf_chain chain5 ∧ IDPPSolver_init chain5 = Ok solver5 ∧
  species_indices (@Ok string) solver5 None = Ok [0; 1] ∧
  ∃ chain', (run (@Ok string) solver5 (default_args 3 None)).1 = Ok chain' ∧
            length chain' = 5 ∧ chain' !! 0 = chain5 !! 0 ∧
            last chain' = last chain5.
Proof.
  split; [apply chain5_wf|]. split; [apply solver5_init|].
  split; [vm_compute; reflexivity|].
  destruct (run_returns_chain (@Ok string) chain5 solver5 (default_args 3 None)
              [0; 1] chain5_wf solver5_init)
    as (chain' & Hrun & Hlen & _ & H0 & Hl & _); [vm_compute; reflexivity|].
  exists chain'. by split_and!.
Defined.

(** A chain of two configurations has no interior image: the first
    iteration reads the second dimension of an empty array of forces and
    raises [IndexError]. *)
Lemma run_raises_without_interior_image :
  IDPPSolver_init chain2 = Ok solver2 ∧
  length chain2 = nimages solver2 + 2 ∧
  (run (@Ok string) solver2 (default_args 1 None)).1 = Raise IndexError.
Proof. split; [apply solver2_init|]. split; vm_compute; reflexivity. Qed.

(** The sites that move are those of the first structure whose species is
    in the filter, in every image: in the chain whose interior image lists
    the oxygen first, with the filter on lithium, the site of index 0 moves,
    and in the interior image returned the oxygen has left the position
    stored at construction. *)
Lemma filter_read_from_first_structure :
  wf_chain chain_swapped ∧
  IDPPSolver_init chain_swapped = Ok solver_swapped ∧
  species_indices (@Ok string) solver_swapped (Some ["Li"]) = Ok [0] ∧
  coord_at (init_coords solver_swapped) 1 0 = Some (0.5, 0.5, 0.5)%float ∧
  ∃ chain' s' site' cx cy cz,
    (run (@Ok string) solver_swapped (default_args 1 (Some ["Li"]))).1
      = Ok chain' ∧
    chain' !! 1 = Some s' ∧ sites s' !! 0 = Some site' ∧
    specie site' = "O" ∧ coords site' = (cx, cy, cz) ∧
    PrimFloat.eqb cx 0.5 = false ∧ PrimFloat.eqb cy 0.5 = false ∧
    PrimFloat.eqb cz 0.5 = false.
Proof.
  split; [split; [simpl; lia|]; exists 2; split; [lia|repeat constructor]|].
  split; [vm_compute; reflexivity|]. split; [vm_compute; reflexivity|].
  split; [vm_compute; reflexivity|].
  eexists _, _, _, _, _, _. split; [vm_compute; reflexivity|].
  split; [reflexivity|]. split; [reflexivity|].
  split_and!; vm_compute; reflexivity.
Qed.

Lemma chain5_species :
  Forall (λ s : Structure float string unit,
            specie <$> sites s = specie <$> sites (mkstructure
              [site "Li" 0%float 0%float 0%float;
               site "O" 0.5%float 0.5%float 0.5%float])) chain5.
Proof. repeat constructor. Qed.

(** [unfiltered_sites_keep_init_coords] on the chain of five configurations
    when only lithium moves: the oxygen site of the third configuration
    returned has the coordinates stored at construction. *)
Lemma unfiltered_sites_keep_init_coords_witness :
  wf_chain chain5 ∧ IDPPSolver_init chain5 = Ok solver5 ∧
  mapM (@Ok string) ["Li"] = Ok ["Li"] ∧
  ∃ chain' s' site',
    (run (@Ok string) solver5 (default_args 3 (Some ["Li"]))).1 = Ok chain' ∧
    chain' !! 2 = Some s' ∧ sites s' !! 1 = Some site' ∧
    Some (coords site') = coord_at (init_coords solver5) 2 1.
Proof.
  split; [apply chain5_wf|]. split; [apply solver5_init|].
  split; [reflexivity|].
  destruct (unfiltered_sites_keep_init_coords (@Ok string) chain5 solver5
              (default_args 3 (Some ["Li"])) ["Li"] ["Li"] _
              chain5_wf solver5_init eq_refl eq_refl eq_refl)
    as (chain' & indices & Hrun & Hi & _ & _ & Hframe).
  { apply Exists_cons_hd. simpl. by left. }
  destruct (Hframe chain5_species 2) as (s' & Hs' & Hsites); [vm_compute; lia|].
  assert (∃ site', sites s' !! 1 = Some site' ∧ specie site' = "O")
    as (site' & Hsite' & Hsp).
  { revert Hrun Hs'. vm_compute. intros [= <-] [= <-]. eauto. }
  exists chain', s', site'.
  split; [exact Hrun|]. split; [exact Hs'|]. split; [exact Hsite'|].
  apply (Hsites 1 site' Hsite'). rewrite Hsp.
  intros Hin. by repeat (apply elem_of_cons in Hin as [?|Hin]; [done|]);
    apply elem_of_nil in Hin.
Defined.

(** [run_species_not_in_system] on the chain of five configurations, which
    holds no hydrogen. *)
Lemma run_species_not_in_system_witness :
  IDPPSolver_init chain5 = Ok solver5 ∧
  mapM (@Ok string) ["H"] = Ok ["H"] ∧
  run (@Ok string) solver5 (default_args 3 (Some ["H"]))
    = (Raise ValueError, []).
Proof.
  split; [apply solver5_init|]. split; [reflexivity|].
  eapply (run_species_not_in_system (@Ok string) chain5 solver5
            (default_args 3 (Some ["H"])) ["H"] ["H"] _ solver5_init);
    [reflexivity..|].
  repeat constructor; simpl; intros Hin;
    repeat (apply elem_of_cons in Hin as [?|Hin]; [done|]);
    by apply elem_of_nil in Hin.
Defined.

(** [run_without_convergence] on the chain of five configurations: three
    iterations do not converge. *)
Lemma run_without_convergence_witness :
  wf_chain chain5 ∧ IDPPSolver_init chain5 = Ok solver5 ∧
  ∃ chain',
    run (@Ok string) solver5 (default_args 3 None) =
      (Ok chain', [Iteration 0; Iteration 1; Iteration 2;
                   UserWarning convergence_warning]) ∧
    length chain' = 5.
Proof.
  split; [apply chain5_wf|]. split; [apply solver5_init|].
  destruct (run_without_convergence (@Ok string) chain5 solver5
              (default_args 3 None) [0; 1] chain5_wf solver5_init)
    as (chain' & s0 & x & f & Hrun & Hlen & _); [vm_compute; reflexivity| |].
  { intros k Hk (c & f & c' & f' & Hk1 & Hk2).
    change (maxiter (default_args 3 None)) with 3 in Hk.
    destruct k as [|[|[|k]]]; [| | |lia];
      vm_compute in Hk1; injection Hk1 as <- <-;
      vm_compute in Hk2; discriminate Hk2. }
  exists chain'. split; [exact Hrun | exact Hlen].
Defined.

Lemma same_orbits_equivalence {F : Type} :
  symmetry_equivalence (@same_orbits F).
Proof.
  split; simpl.
  - intros a b H%bool_decide_eq_true. apply bool_decide_eq_true. congruence.
  - intros a b c H1%bool_decide_eq_true H2%bool_decide_eq_true.
    apply bool_decide_eq_true. congruence.
  - intros a1 b1 c1 a2 b2 c2 H%bool_decide_eq_true.
    split; apply bool_decide_eq_true; congruence.
Qed.


(** [hash_consistent_with_eq] for two paths from the first orbit to the
    second one. *)
Lemma hash_consistent_with_eq_witness :
  symmetry_equivalence (spacegroup (two_orbits (F := float))) ∧
  ∃ p q : MigrationPath float string nat,
    MigrationPath_init 7 (orbit_site 0 0 0 0) (orbit_site 1 1 0 0) two_orbits
      = Ok p ∧
    MigrationPath_init 7 (orbit_site 0 5 5 5) (orbit_site 1 5 6 5) two_orbits
      = Ok q ∧
    MigrationPath_eq never_ne p q = true ∧
    MigrationPath_hash p = Ok 1 ∧ MigrationPath_hash q = Ok 1.
Proof.
  split; [apply same_orbits_equivalence|].
  destruct (MigrationPath_init (F := float) 7 (orbit_site 0 0 0 0)
              (orbit_site 1 1 0 0) two_orbits) as [p|] eqn:Hp;
    [|vm_compute in Hp; discriminate Hp].
  destruct (MigrationPath_init (F := float) 7 (orbit_site 0 5 5 5)
              (orbit_site 1 5 6 5) two_orbits) as [q|] eqn:Hq;
    [|vm_compute in Hq; discriminate Hq].
  assert (MigrationPath_eq never_ne p q = true) as Heq.
  { vm_compute in Hp, Hq. injection Hp as <-. injection Hq as <-.
    vm_compute. reflexivity. }
  assert (MigrationPath_hash p = Ok 1) as Hh.
  { vm_compute in Hp. injection Hp as <-. reflexivity. }
  destruct (hash_consistent_with_eq never_ne 7 _ _ _ _ two_orbits p q
              same_orbits_equivalence Hp Hq Heq) as (_ & _ & Hpq).
  exists p, q. split_and!; try done. by rewrite <- Hpq.
Defined.

Lemma length_numeric {Specie Props : Type} `{!EqDecision Specie}
    (p : MigrationPath xreal Specie Props) a b c d e f :
  coords (isite p) = (Some a, Some b, Some c) →
  coords (esite p) = (Some d, Some e, Some f) →
  numeric MigrationPath_length p.
Proof.
  intros Hi He. unfold numeric, MigrationPath_length. rewrite Hi, He.
  change (is_Some (norm (numbers [a - d; b - e; c - f]%R))).
  by rewrite norm_numbers.
Qed.

Lemma two_orbits_paths :
  ∃ p q : MigrationPath xreal string nat,
    discovered_paths never_ne 7 two_orbits_finder = Ok [(1, p); (0, q)] ∧
    isite p = orbit_site 0 0 0 0 ∧ esite p = orbit_site 1 1 0 0 ∧
    isite q = orbit_site 0 0 0 0 ∧ esite q = orbit_site 0 0 1 0.
Proof.
  eexists _, _. split; [vm_compute; reflexivity|].
  split_and!; vm_compute; reflexivity.
Qed.


(** [get_paths_sorted] for the two paths of the example, the set iterated
    over in the reverse of the order of insertion. *)
Lemma get_paths_sorted_witness :
  (∀ l : list (nat * MigrationPath xreal string nat), reverse l ≡ₚ l) ∧
  ∃ ps,
    get_paths never_ne 7 reverse two_orbits_finder = Ok ps ∧
    Forall (numeric MigrationPath_length) ps ∧
    length ps = 2 ∧
    StronglySorted (key_le MigrationPath_length) ps.
Proof.
  split; [intros l; apply reverse_Permutation|].
  destruct two_orbits_paths as (p & q & Hd & Hip & Hep & Hiq & Heq).
  assert (get_paths never_ne 7 reverse two_orbits_finder
          = Ok (sorted MigrationPath_length [q; p])) as Hget.
  { unfold get_paths. by rewrite Hd. }
  assert (Forall (numeric MigrationPath_length)
            (sorted MigrationPath_length [q; p])) as Hnum.
  { rewrite sorted_perm. repeat constructor.
    - eapply length_numeric; [by rewrite Hiq|by rewrite Heq].
    - eapply length_numeric; [by rewrite Hip|by rewrite Hep]. }
  destruct (get_paths_sorted never_ne 7 reverse two_orbits_finder _
              (λ l, reverse_Permutation l) Hget Hnum)
    as (paths & _ & _ & Hperm & Hsorted & _).
  eexists. split; [exact Hget|]. split; [exact Hnum|].
  split; [|exact Hsorted].
  by rewrite sorted_perm.
Defined.

(** Two paths of the same length: the one found first has the hash 1, the
    one found second the hash 0, and the set yields the second before the
    first. *)
Lemma ties_in_set_order :
  ∃ p q : MigrationPath float string nat,
    discovered_paths never_ne 7 two_orbits_finder = Ok [(1, p); (0, q)] ∧
    MigrationPath_length p = MigrationPath_length q ∧
    eindex p = Some 1 ∧ eindex q = Some 0 ∧
    get_paths_discovery_order never_ne 7 two_orbits_finder = Ok [p; q] ∧
    get_paths never_ne 7 small_set_order two_orbits_finder = Ok [q; p].
Proof.
  eexists _, _. split; [vm_compute; reflexivity|].
  split_and!; vm_compute; reflexivity.
Qed.

(** [translations_antisymmetric] on the chain of three configurations. *)
Lemma translations_antisymmetric_witness :
  IDPPSolver_init chain3 = Ok solver3 ∧
  0 < nimages solver3 ∧ 0 < natoms solver3 ∧ 1 < natoms solver3 ∧
  ∃ v, translation_at (translations solver3) 0 0 1 = Some v ∧
       translation_at (translations solver3) 0 1 0 = Some (v3neg v).
Proof.
  pose proof solver3_shape as [Hn Ha].
  split; [apply solver3_init|]. split_and!; [lia..|].
  destruct (translations_antisymmetric chain3 solver3 0 0 1 solver3_init)
    as (v & Hv & Hv' & _); [lia..|].
  by exists v.
Defined.

(** [displacement_clipped] in the first iteration on the chain of five
    configurations, every site moving: the first site of the third
    configuration. *)
Lemma displacement_clipped_witness :
  species_indices (@Ok string) solver5 None = Ok [0; 1] ∧
  ∃ x' funcs conv tot_forces,
    run_step solver5 (default_args 3 None) [0; 1] (init_coords solver5)
      (replicate 3 f0) = Ok (x', funcs, conv) ∧
    total_forces solver5 (default_args 3 None) (init_coords solver5) =
      Ok tot_forces ∧
    ∀ v t, coord_at (init_coords solver5) 2 0 = Some v →
      coord_at tot_forces 1 0 = Some t →
      coord_at x' 2 0 =
        Some (v3add v (v3map (clip_disp 0x1.999999999999ap-5%float
                                0x1.999999999999ap-5%float) t)).
Proof.
  assert (species_indices (@Ok string) solver5 None = Ok [0; 1]) as Hi
    by (vm_compute; reflexivity).
  split; [exact Hi|].
  destruct (run_step solver5 (default_args 3 None) [0; 1] (init_coords solver5)
              (replicate 3 f0)) as [[[x' funcs] conv]|] eqn:Hstep;
    [|vm_compute in Hstep; discriminate Hstep].
  destruct (proj1 displacement_clipped float _ string _ unit string
              (@Ok string) solver5 (default_args 3 None) None [0; 1]
              (init_coords solver5) (replicate 3 f0) x' funcs conv Hi Hstep)
    as (tot & Htot & Hd).
  exists x', funcs, conv, tot. split_and!; [reflexivity|exact Htot|].
  intros v t Hv Ht. apply (Hd 2 0 v t); [vm_compute; lia| |exact Hv|exact Ht].
  apply elem_of_cons. by left.
Defined.



Lemma loose_indices :
  species_indices (@Ok string) solver5 (species loose_args) = Ok [0; 1].
Proof. vm_compute. reflexivity. Qed.




Lemma solver5_coords_wf : coords_wf solver5 (init_coords solver5).
Proof. split; [reflexivity|]. repeat constructor. Qed.





Lemma no_third_orbit :
  ¬ has_orbit (two_orbits (F := float)) (orbit_site 2 9 9 9).
Proof.
  intros (orbit & s0 & Hin & Hs0 & Ht).
  repeat (apply elem_of_cons in Hin as [->|Hin];
          [injection Hs0 as <-; vm_compute in Ht; discriminate Ht|]).
  by apply elem_of_nil in Hin.
Qed.




Lemma two_orbits_covered (site : PeriodicSite float string nat) :
  properties site = 0 ∨ properties site = 1 → has_orbit two_orbits site.
Proof.
  intros [H0|H1].
  - exists [orbit_site 0 0 0 0], (orbit_site 0 0 0 0).
    split_and!; [by left|done|]. simpl. apply bool_decide_eq_true.
    simpl. by rewrite H0.
  - exists [orbit_site 1 1 0 0], (orbit_site 1 1 0 0).
    split_and!; [by right; left|done|]. simpl. apply bool_decide_eq_true.
    simpl. by rewrite H1.
Qed.


Lemma linear_length {F : Type} `{!Float64 F} {Specie Props : Type}
    (s e : Structure F Specie Props) k pbc tol images :
  linear s e k pbc tol = Images images → length images = k + 1.
Proof.
  unfold linear. intros [= <-]. rewrite length_fmap, length_seqZ. lia.
Qed.




